(** * maven-pom-downloader: dependency walker and artifact retrieval

    A shallow embedding of [main.js] (the variant with the visited set, the
    bounded fan-out and the version-range handling) together with the
    properties its design document states about it.

    Layout of the development:
    - [JsString]: the JavaScript string methods the program calls;
    - [Js]: the JavaScript values produced by the XML reader, property
      reads, truthiness, string conversion and thrown exceptions;
    - version resolution ([parseVersionRange], [resolveVersion]);
    - descriptor post-processing and [getDependencies];
    - the file download ([downloadFile]) over an explicit disk and an
      explicit record of the I/O it performs;
    - the recursive walk ([downloadDependency], [main]);
    - the vocabulary of the statements and two sample repositories;
    - the two other scripts of [main.js], as far as they differ: the
      earliest one ([Earlier]: no visited set) and the sequential one
      ([Sequential]: one download and one dependency at a time);
    - the theorems.

    What lies outside the program is a parameter: the network
    ([https_get], from a URL to what the request yields), the XML reader
    ([parseString]) and [path.join].  The disk is a finite map from paths
    to contents, and file operations take effect in program order. *)

From Stdlib Require Import ZArith Lia Bool Ascii.
From stdpp Require Import gmap strings list pretty.

Local Open Scope string_scope.
Local Open Scope list_scope.
Set Warnings "-register-all,-clear-no-such-hyp".

(** ** JavaScript strings

    A string is a sequence of code units; code units are modelled by
    [ascii] (the Latin-1 range). *)
Module JsString.

(** [s.startsWith(p)] *)
Fixpoint startsWith (s p : string) {struct p} : bool :=
  match p, s with
  | EmptyString, _ => true
  | String _ _, EmptyString => false
  | String c p', String d s' => Ascii.eqb c d && startsWith s' p'
  end.

(** [s.includes(p)] *)
Fixpoint includes (s p : string) : bool :=
  startsWith s p ||
  match s with
  | EmptyString => false
  | String _ s' => includes s' p
  end.

(** [s.endsWith(p)]: the last [p.length] code units of [s] are [p]. *)
Definition endsWith (s p : string) : bool :=
  (String.length p <=? String.length s)%nat &&
  String.eqb (String.substring (String.length s - String.length p) (String.length p) s) p.

(** Index normalisation of [slice]: a negative index counts from the
    end, and both ends are clamped to the string. *)
Definition clamp (len i : Z) : Z :=
  if (i <? 0)%Z then Z.max (len + i) 0 else Z.min i len.

(** [s.slice(b, e)] *)
Definition slice (s : string) (b e : Z) : string :=
  let len := Z.of_nat (String.length s) in
  let from := clamp len b in
  let to := clamp len e in
  String.substring (Z.to_nat from) (Z.to_nat (to - from)) s.

(** White space removed by [trim] (tab, line feed, vertical tab, form
    feed, carriage return, space, no-break space). *)
Definition is_space (c : ascii) : bool :=
  let n := Ascii.nat_of_ascii c in
  ((9 <=? n) && (n <=? 13) || (n =? 32) || (n =? 160))%nat.

Fixpoint trimStart (s : string) : string :=
  match s with
  | EmptyString => EmptyString
  | String c s' => if is_space c then trimStart s' else s
  end.

Fixpoint trimEnd (s : string) : string :=
  match s with
  | EmptyString => EmptyString
  | String c s' =>
      let r := trimEnd s' in
      if is_space c && String.eqb r "" then "" else String c r
  end.

(** [s.trim()] *)
Definition trim (s : string) : string := trimEnd (trimStart s).

(** [s.split(c)] for a one-character separator. *)
Fixpoint split (c : ascii) (s : string) : list string :=
  match s with
  | EmptyString => [""]
  | String d s' =>
      let r := split c s' in
      if Ascii.eqb d c then "" :: r
      else match r with
           | h :: t => String d h :: t
           | [] => [String d ""]
           end
  end.

(** [s.replace(/c/g, r)] for a one-character pattern and replacement. *)
Fixpoint replaceAll (c r : ascii) (s : string) : string :=
  match s with
  | EmptyString => EmptyString
  | String d s' => String (if Ascii.eqb d c then r else d) (replaceAll c r s')
  end.

(** A property name is an array index when it is the canonical decimal
    form of a natural number: ["0"], or digits without a leading zero. *)
Definition digit (c : ascii) : option nat :=
  let n := Ascii.nat_of_ascii c in
  if ((48 <=? n) && (n <=? 57))%nat then Some (n - 48)%nat else None.

Fixpoint digits (acc : nat) (s : string) : option nat :=
  match s with
  | EmptyString => Some acc
  | String c s' =>
      match digit c with
      | Some d => digits (10 * acc + d) s'
      | None => None
      end
  end.

Definition index_of_name (s : string) : option nat :=
  match s with
  | EmptyString => None
  | String c s' =>
      if Ascii.eqb c "0"%char
      then (if String.eqb s' "" then Some 0%nat else None)
      else digits 0 s
  end.

(** [contains s p]: [p] occurs in [s] as a contiguous substring. *)
Definition contains (s p : string) : Prop :=
  exists pre post, s = pre +:+ p +:+ post.

End JsString.

(** ** JavaScript values

    The values the program handles are those the XML reader builds
    (strings, arrays, objects with string keys) plus [null] and
    [undefined], and what a read with a computed name can find on the
    prototype chain of such a value: a number (the [length] of a string or
    array) or a built-in function.  An object is the list of its own
    properties in insertion order; it is an ordinary object, which
    inherits from [Object.prototype]. *)
Module Js.

Inductive jsval : Type :=
| JUndefined
| JNull
| JStr (s : string)
| JArr (items : list jsval)
| JObj (fields : list (string * jsval))
| JNum (n : nat)
| JFun (name : string).

(** A computation either returns or throws a [TypeError]. *)
Inductive result (A : Type) : Type :=
| Ok (a : A)
| Throw (msg : string).
Arguments Ok {A} a.
Arguments Throw {A} msg.

Definition bind {A B} (r : result A) (k : A -> result B) : result B :=
  match r with
  | Ok a => k a
  | Throw m => Throw m
  end.

(** [!!v] *)
Definition truthy (v : jsval) : bool :=
  match v with
  | JUndefined | JNull => false
  | JStr s => negb (String.eqb s "")
  | JNum n => negb (n =? 0)%nat
  | JArr _ | JObj _ | JFun _ => true
  end.

Fixpoint assoc (fields : list (string * jsval)) (k : string) : option jsval :=
  match fields with
  | [] => None
  | (k', v) :: rest => if String.eqb k' k then Some v else assoc rest k
  end.

(** Assignment [o[k] = v] on the property list: an existing property keeps
    its position. *)
Fixpoint assign (fields : list (string * jsval)) (k : string) (v : jsval)
  : list (string * jsval) :=
  match fields with
  | [] => [(k, v)]
  | (k', v') :: rest =>
      if String.eqb k' k then (k', v) :: rest else (k', v') :: assign rest k v
  end.

(** *** The prototype chain

    What a value inherits, by name (ECMAScript 2023 with its annex B).
    A method is the built-in function of that name; [constructor] is the
    constructor of the kind; [__proto__] is the prototype itself, which
    is taken as an empty value of the kind (an object for a string or a
    number, whose prototypes are wrapper objects). *)
Definition isIn (k : string) (names : list string) : bool :=
  existsb (String.eqb k) names.

Definition objectMethods : list string :=
  ["hasOwnProperty"; "isPrototypeOf"; "propertyIsEnumerable";
   "toLocaleString"; "toString"; "valueOf"; "__defineGetter__";
   "__defineSetter__"; "__lookupGetter__"; "__lookupSetter__"].

Definition arrayMethods : list string :=
  ["at"; "concat"; "copyWithin"; "entries"; "every"; "fill"; "filter";
   "find"; "findIndex"; "findLast"; "findLastIndex"; "flat"; "flatMap";
   "forEach"; "includes"; "indexOf"; "join"; "keys"; "lastIndexOf"; "map";
   "pop"; "push"; "reduce"; "reduceRight"; "reverse"; "shift"; "slice";
   "some"; "sort"; "splice"; "toLocaleString"; "toReversed"; "toSorted";
   "toSpliced"; "toString"; "unshift"; "values"; "with"].

Definition stringMethods : list string :=
  ["at"; "charAt"; "charCodeAt"; "codePointAt"; "concat"; "endsWith";
   "includes"; "indexOf"; "isWellFormed"; "lastIndexOf"; "localeCompare";
   "match"; "matchAll"; "normalize"; "padEnd"; "padStart"; "repeat";
   "replace"; "replaceAll"; "search"; "slice"; "split"; "startsWith";
   "substring"; "toLocaleLowerCase"; "toLocaleUpperCase"; "toLowerCase";
   "toString"; "toUpperCase"; "toWellFormed"; "trim"; "trimEnd";
   "trimStart"; "valueOf"; "substr"; "anchor"; "big"; "blink"; "bold";
   "fixed"; "fontcolor"; "fontsize"; "italics"; "link"; "small"; "strike";
   "sub"; "sup"; "trimLeft"; "trimRight"].

Definition numberMethods : list string :=
  ["toExponential"; "toFixed"; "toLocaleString"; "toPrecision"; "toString";
   "valueOf"].

(** What [Object.prototype] gives. *)
Definition objectMember (k : string) : jsval :=
  if String.eqb k "__proto__" then JObj []
  else if String.eqb k "constructor" then JFun "Object"
  else if isIn k objectMethods then JFun k
  else JUndefined.

(** What a value of a kind inherits: the members of the prototype of the
    kind, then those of [Object.prototype]. *)
Definition member (constructor : string) (methods : list string)
    (prototype : jsval) (k : string) : jsval :=
  if String.eqb k "__proto__" then prototype
  else if String.eqb k "constructor" then JFun constructor
  else if isIn k methods then JFun k
  else objectMember k.

(** [v[k]] on a value that is neither [null] nor [undefined]: an own
    property, or else what the value inherits.  Of a built-in function
    the program reads only the property ["0"], which it does not have;
    its other properties ([name], [length], ...) are not modelled. *)
Definition prop (v : jsval) (k : string) : jsval :=
  match v with
  | JObj fields => default (objectMember k) (assoc fields k)
  | JArr items =>
      match JsString.index_of_name k with
      | Some i => nth i items JUndefined
      | None =>
          if String.eqb k "length" then JNum (length items)
          else member "Array" arrayMethods (JArr []) k
      end
  | JStr s =>
      match JsString.index_of_name k with
      | Some i =>
          match String.get i s with
          | Some c => JStr (String c "")
          | None => JUndefined
          end
      | None =>
          if String.eqb k "length" then JNum (String.length s)
          else member "String" stringMethods (JObj []) k
      end
  | JNum _ =>
      match JsString.index_of_name k with
      | Some _ => JUndefined
      | None => member "Number" numberMethods (JObj []) k
      end
  | JFun _ | JUndefined | JNull => JUndefined
  end.

(** [v[k]]: reading a property of [null] or [undefined] throws. *)
Definition get (v : jsval) (k : string) : result jsval :=
  match v with
  | JUndefined | JNull => Throw "Cannot read properties of undefined"
  | _ => Ok (prop v k)
  end.

(** [v?.[k]] *)
Definition get_opt (v : jsval) (k : string) : jsval :=
  match v with
  | JUndefined | JNull => JUndefined
  | _ => prop v k
  end.

Definition join (sep : string) (parts : list string) : string :=
  match parts with
  | [] => ""
  | p :: ps => fold_left (fun acc q => acc +:+ sep +:+ q) ps p
  end.

(** String conversion, as performed by a template literal or by [+]. *)
Fixpoint to_string (v : jsval) : string :=
  match v with
  | JUndefined => "undefined"
  | JNull => "null"
  | JStr s => s
  | JArr items =>
      join ","
        (map (fun x => match x with
                       | JUndefined | JNull => ""
                       | _ => to_string x
                       end) items)
  | JObj _ => "[object Object]"
  | JNum n => pretty n
  | JFun name => "function " +:+ name +:+ "() { [native code] }"
  end.

(** The own enumerable properties copied by [{...v}]. *)
Fixpoint chars_from (i : nat) (s : string) : list (string * jsval) :=
  match s with
  | EmptyString => []
  | String c s' => (pretty i, JStr (String c "")) :: chars_from (S i) s'
  end.

Fixpoint items_from (i : nat) (l : list jsval) : list (string * jsval) :=
  match l with
  | [] => []
  | x :: l' => (pretty i, x) :: items_from (S i) l'
  end.

Definition spread (v : jsval) : list (string * jsval) :=
  match v with
  | JObj fields => fields
  | JStr s => chars_from 0 s
  | JArr items => items_from 0 items
  | JUndefined | JNull | JNum _ | JFun _ => []
  end.

End Js.

Import Js.

Notation "'let*' x ':=' c1 'in' c2" := (Js.bind c1 (fun x => c2))
  (at level 10, x name, c1 at level 100, c2 at level 200).

(** ** Version resolution *)

(** The object returned by [parseVersionRange]: either
    [{min, includeMin, max: null, includeMax}] or [{exact}]. *)
Inductive range : Type :=
| Range (min : string) (includeMin includeMax : bool)
| Exact (exact : string).

(** [versionRange.min]: absent on the [{exact}] shape. *)
Definition range_min (r : range) : jsval :=
  match r with
  | Range m _ _ => JStr m
  | Exact _ => JUndefined
  end.

Definition parseVersionRange (versionRange : string) : range :=
  let versionRange := JsString.trim versionRange in
  if JsString.startsWith versionRange "[" && JsString.endsWith versionRange ")"
  then Range (JsString.slice versionRange 1 (-2)) true false
  else Exact versionRange.

(** The loop of [resolveVersion] over the dot-separated parts of a property
    name: [current] steps to [current[part][0]] while both reads are
    truthy, and the lookup gives [null] at the first part where they are
    not. *)
Fixpoint lookupParts (parts : list string) (current : jsval) : result jsval :=
  match parts with
  | [] => Ok current
  | part :: rest =>
      let* entry := get current part in
      if truthy entry then
        let* first := get entry "0" in
        if truthy first then lookupParts rest first else Ok JNull
      else Ok JNull
  end.

(** The range branch of [resolveVersion]. *)
Definition resolveRange (version : string) : jsval :=
  if JsString.includes version "[" && JsString.includes version "]"
     || JsString.includes version "(" || JsString.includes version ")"
  then
    let versionRange := parseVersionRange version in
    if truthy (range_min versionRange) then range_min versionRange
    else JStr version
  else JStr version.

Definition resolveVersion (version properties : jsval) : result jsval :=
  if negb (truthy version) then Ok JNull
  else
    match version with
    | JStr v =>
        if JsString.startsWith v "${" && JsString.endsWith v "}" then
          let propertyName := JsString.slice v 2 (-1) in
          if truthy properties then
            let* direct := get properties propertyName in
            if truthy direct then get direct "0"
            else lookupParts (JsString.split "." propertyName) properties
          else Ok (resolveRange v)
        else Ok (resolveRange v)
    | _ => Throw "version.startsWith is not a function"
    end.

(** ** Descriptors *)

(** A declared dependency as [getDependencies] returns it. *)
Record dependency : Type := Dependency {
  groupId : jsval;
  artifactId : jsval;
  version : jsval
}.

(** [arr.map(f)] where [f] may throw; calling [map] on a value that is not
    an array throws. *)
Fixpoint mapM {A B} (f : A -> result B) (l : list A) : result (list B) :=
  match l with
  | [] => Ok []
  | x :: l' => let* y := f x in let* ys := mapM f l' in Ok (y :: ys)
  end.

(** The arrow function of [parsePomXml]:
    [dep => ({...dep, version: dep.version ? [resolveVersion(dep.version[0], properties)] : []})] *)
Definition resolveDeclaration (properties dep : jsval) : result jsval :=
  let* declared := get dep "version" in
  let* resolved :=
    (if truthy declared then
       let* raw := get declared "0" in
       let* v := resolveVersion raw properties in
       Ok (JArr [v])
     else Ok (JArr [])) in
  Ok (JObj (assign (spread dep) "version" resolved)).

(** In-place update of the property [k] of an object or array. *)
Definition update (v : jsval) (k : string) (f : jsval -> jsval) : jsval :=
  match v with
  | JObj fields => JObj (assign fields k (f (prop v k)))
  | JArr items =>
      match JsString.index_of_name k with
      | Some i => JArr (<[i := f (nth i items JUndefined)]> items)
      | None => v
      end
  | _ => v
  end.

(** The body of the parser callback of [parsePomXml] once the XML reader
    has produced [result]: the property table is read, every declared
    version is resolved against it, and the (mutated) [result] is what the
    promise resolves to. *)
Definition resolveDescriptor (result : jsval) : Js.result jsval :=
  if negb (truthy result) then Ok JNull
  else
    let project := get_opt result "project" in
    let table := get_opt (get_opt project "properties") "0" in
    let properties := if truthy table then table else JObj [] in
    let declared :=
      get_opt (get_opt (get_opt project "dependencies") "0") "dependency" in
    if truthy declared then
      match declared with
      | JArr items =>
          let* resolved := mapM (resolveDeclaration properties) items in
          Ok (update result "project" (fun project =>
                update project "dependencies" (fun dependencies =>
                  update dependencies "0" (fun first =>
                    update first "dependency" (fun _ => JArr resolved)))))
      | _ => Throw "dependency.map is not a function"
      end
    else Ok result.

(** The callback of [forEach] in [getDependencies]: [Some] for a pushed
    entry, [None] for a skipped one. *)
Definition collect (dep : jsval) : result (option dependency) :=
  let* g := get dep "groupId" in
  if negb (truthy g) then Ok None else
  let* a := get dep "artifactId" in
  if negb (truthy a) then Ok None else
  let* v := get dep "version" in
  if negb (truthy v) then Ok None else
  let* v0 := get v "0" in
  if negb (truthy v0) then Ok None else
  let* g0 := get g "0" in
  let* a0 := get a "0" in
  Ok (Some (Dependency g0 a0 v0)).

Definition getDependencies (pomObj : jsval) : result (list dependency) :=
  if negb (truthy pomObj) then Ok []
  else
    let* project := get pomObj "project" in
    if negb (truthy project) then Ok [] else
    let* dependencies := get project "dependencies" in
    if negb (truthy dependencies) then Ok [] else
    let* first := get dependencies "0" in
    let* declared := get first "dependency" in
    if negb (truthy declared) then Ok [] else
    match declared with
    | JArr items => let* found := mapM collect items in Ok (omap id found)
    | _ => Throw "dependency.forEach is not a function"
    end.

(** ** Configuration *)

Definition MAVEN_CENTRAL_URL : string := "https://repo1.maven.org/maven2".

Record proxyConfig : Type := {
  enabled : bool;
  socks : option string;
  http : option string
}.

Definition PROXY_CONFIG : proxyConfig :=
  {| enabled := true; socks := Some "socks5://127.0.0.1:11080"; http := None |}.

Definition CONCURRENT_DOWNLOADS : nat := 5.

(** Truthiness of a configuration entry that is a string or [null]. *)
Definition configured (entry : option string) : bool :=
  match entry with
  | Some s => negb (String.eqb s "")
  | None => false
  end.

(** ** File download *)

Inductive proxyAgent : Type :=
| SocksProxyAgent (uri : string)
| HttpProxyAgent (uri : string).

Record requestOptions : Type := {
  headers : list (string * string);
  timeout : Z;
  agent : option proxyAgent
}.

Definition USER_AGENT : string :=
  "Mozilla/5.0 (Windows NT 10.0; Win64; x64) AppleWebKit/537.36 (KHTML, like Gecko) Chrome/91.0.4472.124 Safari/537.36".

(** The [options] object built at the top of [downloadFile]. *)
Definition buildOptions (config : proxyConfig) : requestOptions :=
  {| headers := [("User-Agent", USER_AGENT); ("Accept", "*/*")];
     timeout := 10000;
     agent :=
       if enabled config then
         if configured (socks config)
         then Some (SocksProxyAgent (default "" (socks config)))
         else if configured (http config)
         then Some (HttpProxyAgent (default "" (http config)))
         else None
       else None |}.

(** What one [https.get] yields.  [Response]: the response handed to the
    callback (status code, [Location] header), whose body arrives
    completely.  [RequestError]: an ['error'] event on the request.
    [Truncated]: the response is handed to the callback but its body
    breaks off after [received]; the response then ends without ['end'],
    so a stream it is piped into is never ended.  [NoAnswer]: neither a
    response nor an error ever comes; after the [timeout] of the options
    the request emits ['timeout'], for which the program registers no
    listener, and goes on waiting.  The [Location] of a redirect is taken
    to be an absolute URL, which [https.get] accepts. *)
Inductive reply : Type :=
| Response (statusCode : Z) (location : string) (body : string)
| RequestError (cause : string)
| Truncated (statusCode : Z) (location : string) (received : string)
| NoAnswer.

(** The argument of [reject]. *)
Inductive fetchError : Type :=
| FileNotFound                  (* new Error('文件未找到') *)
| HttpStatus (statusCode : Z)   (* new Error(`HTTP状态码 ${statusCode}`) *)
| Transport (cause : string).   (* the error of the request *)

(** State of the promise returned by [downloadFile] once every callback
    that can run has run. *)
Inductive settled : Type :=
| Resolved
| Rejected (err : fetchError)
| Pending.

(** The I/O performed, in program order. *)
Inductive io : Type :=
| IoCreateWriteStream (path : string)
| IoGet (url : string) (options : requestOptions)
| IoClose (path : string)
| IoUnlink (path : string)
| IoPipe (path : string).

Record download : Type := {
  outcome : settled;
  disk_after : gmap string string;
  trace : list io
}.

(** [fs.createWriteStream(dest)]: the file is created, or truncated. *)
Definition createWriteStream (dest : string) (disk : gmap string string)
  : gmap string string := <[dest := ""]> disk.

(** [fs.unlink(dest, () => {})]: the entry is removed; a failure (no such
    file) is ignored by the empty callback. *)
Definition unlink (dest : string) (disk : gmap string string)
  : gmap string string := delete dest disk.

Section Download.

(** The network: what a GET of a URL yields. *)
Variable https_get : string -> requestOptions -> reply.

(** The part common to both response callbacks, from the test for 404
    on; [body] is what arrives of the body and [complete] tells whether
    that is all of it.  [closed] tells whether [file.close()] was already
    called when the response arrives: [pipe] into a stream that has ended
    writes nothing and its ['finish'] listener, registered afterwards, is
    never called.  Into an open stream [pipe] writes what arrives, and
    ends the stream (['finish']) only when the body is complete. *)
Definition handleResponse (closed complete : bool) (dest : string)
    (statusCode : Z) (body : string) (disk : gmap string string)
  : settled * gmap string string * list io :=
  if (statusCode =? 404)%Z then
    (Rejected FileNotFound, unlink dest disk, [IoClose dest; IoUnlink dest])
  else if negb (statusCode =? 200)%Z then
    (Rejected (HttpStatus statusCode), unlink dest disk,
     [IoClose dest; IoUnlink dest])
  else if closed then (Pending, disk, [IoPipe dest])
  else if complete then
    (Resolved, <[dest := body]> disk, [IoPipe dest; IoClose dest])
  else (Pending, <[dest := body]> disk, [IoPipe dest]).

(** The response that a reply hands to the callback, if any: its status
    code, its [Location], what arrives of its body and whether that is
    all. *)
Definition arrival (r : reply) : option (Z * string * string * bool) :=
  match r with
  | Response statusCode location body =>
      Some (statusCode, location, body, true)
  | Truncated statusCode location received =>
      Some (statusCode, location, received, false)
  | RequestError _ | NoAnswer => None
  end.

(** The follow-up request of a redirect, made after the stream was closed
    and the destination deleted. *)
Definition followRedirect (redirectUrl dest : string)
    (disk : gmap string string) (sofar : list io) : download :=
  let options := buildOptions PROXY_CONFIG in
  let redirected := sofar ++ [IoGet redirectUrl options] in
  match https_get redirectUrl options with
  | RequestError cause =>
      {| outcome := Rejected (Transport cause);
         disk_after := unlink dest disk;
         trace := redirected ++ [IoUnlink dest] |}
  | NoAnswer =>
      {| outcome := Pending; disk_after := disk; trace := redirected |}
  | Response statusCode' _ body' =>
      let '(state, disk, steps) :=
        handleResponse true true dest statusCode' body' disk in
      {| outcome := state; disk_after := disk; trace := redirected ++ steps |}
  | Truncated statusCode' _ received =>
      let '(state, disk, steps) :=
        handleResponse true false dest statusCode' received disk in
      {| outcome := state; disk_after := disk; trace := redirected ++ steps |}
  end.

(** The callback of the first request. *)
Definition firstResponse (complete : bool) (statusCode : Z)
    (redirectUrl body dest : string) (disk : gmap string string)
    (opened : list io) : download :=
  if (statusCode =? 302)%Z || (statusCode =? 301)%Z then
    followRedirect redirectUrl dest (unlink dest disk)
      (opened ++ [IoClose dest; IoUnlink dest])
  else
    let '(state, disk, steps) :=
      handleResponse false complete dest statusCode body disk in
    {| outcome := state; disk_after := disk; trace := opened ++ steps |}.

Definition downloadFile (url dest : string) (disk : gmap string string)
  : download :=
  let options := buildOptions PROXY_CONFIG in
  let disk := createWriteStream dest disk in
  let opened := [IoCreateWriteStream dest; IoGet url options] in
  match https_get url options with
  | RequestError cause =>
      {| outcome := Rejected (Transport cause);
         disk_after := unlink dest disk;
         trace := opened ++ [IoUnlink dest] |}
  | NoAnswer => {| outcome := Pending; disk_after := disk; trace := opened |}
  | Response statusCode redirectUrl body =>
      firstResponse true statusCode redirectUrl body dest disk opened
  | Truncated statusCode redirectUrl received =>
      firstResponse false statusCode redirectUrl received dest disk opened
  end.

End Download.

(** ** The walk

    [downloadDependency] is an [async] function.  Its body up to the first
    [await] (validation, the test and update of [downloadedDependencies],
    the computation of names and paths) runs when it is called; the rest
    runs later.  [Promise.all(chunk.map(...))] therefore runs the first
    part for every member of a chunk before the rest of any of them; the
    model then runs the remainders one after the other, in chunk order,
    all of them even when one fails or never finishes.
    Directories ([mkdirp]) and the log file are not part of the state. *)

(** The two files of a coordinate. *)
Inductive artifactFile : Type :=
| Jar
| Pom.

Inductive event : Type :=
| Marked (key : string)
    (* downloadedDependencies.add(key) *)
| Fetch (key : string) (file : artifactFile) (url dest : string).
    (* downloadFile(url, dest), for that file of [key] *)

Record world : Type := World {
  downloadedDependencies : gset string;
  disk : gmap string string;
  events : list event
}.

(** How an [async] call ended: its promise fulfilled, it rejected, or it
    waits for a promise that never settles. *)
Inductive status : Type :=
| Completed
| Threw
| Stalled.

(** [Promise.all]: rejected as soon as one member rejects, otherwise
    pending while a member is pending. *)
Definition all (a b : status) : status :=
  match a, b with
  | Threw, _ | _, Threw => Threw
  | Stalled, _ | _, Stalled => Stalled
  | Completed, Completed => Completed
  end.

Definition status_of (s : settled) : status :=
  match s with
  | Resolved => Completed
  | Rejected _ => Threw
  | Pending => Stalled
  end.

(** The names and paths computed for one coordinate. *)
Record task : Type := Task {
  dependencyKey : string;
  actualVersion : jsval;
  artifactPath : string;
  jarName : string;
  pomName : string;
  localJarPath : string;
  pomFilePath : string
}.

Inductive prepared : Type :=
| Skip
| Start (t : task)
| Fail.

(** [v.includes(c)]: a method of strings and of arrays only. *)
Definition includes (v : jsval) (c : string) : result bool :=
  match v with
  | JStr s => Ok (JsString.includes s c)
  | JArr items =>
      Ok (existsb (fun x => match x with
                            | JStr s => String.eqb s c
                            | _ => false
                            end) items)
  | _ => Throw "version.includes is not a function"
  end.

(** The [let actualVersion = version; if (...) {...}] block. *)
Definition effectiveVersion (version : jsval) : result jsval :=
  let* bracket := includes version "[" in
  let* range := (if bracket then Ok true else includes version "(") in
  if range then
    match version with
    | JStr v => Ok (range_min (parseVersionRange v))
    | _ => Throw "versionRange.trim is not a function"
    end
  else Ok version.

(** [groupId.replace(/\./g, '/')] *)
Definition groupPath (groupId : jsval) : result string :=
  match groupId with
  | JStr g => Ok (JsString.replaceAll "." "/" g)
  | _ => Throw "groupId.replace is not a function"
  end.

Definition existsSync (disk : gmap string string) (path : string) : bool :=
  bool_decide (is_Some (disk !! path)).

Definition keyOf (d : dependency) : string :=
  to_string (groupId d) +:+ ":" +:+ to_string (artifactId d) +:+ ":"
  +:+ to_string (version d).

Definition urlOf (artifactPath name : string) : string :=
  MAVEN_CENTRAL_URL +:+ "/" +:+ artifactPath +:+ "/" +:+ name.

(** [for (i = 0; i < l.length; i += n) chunks.push(l.slice(i, i + n))] *)
Fixpoint slices {A} (steps n : nat) (l : list A) : list (list A) :=
  match steps, l with
  | S k, _ :: _ => take n l :: slices k n (drop n l)
  | _, _ => []
  end.

Definition chunks {A} (l : list A) : list (list A) :=
  slices (length l) CONCURRENT_DOWNLOADS l.

Section Walk.

Variable https_get : string -> requestOptions -> reply.

(** The XML reader: the [result] passed to the callback of
    [parser.parseString], or [None] when it passes an error. *)
Variable parseString : string -> option jsval.

(** [path.join] *)
Variable path_join : string -> string -> string.

(** [parsePomXml] on the content of the file: [None] when the promise
    rejects (reader error, or exception in the callback). *)
Definition parsePomXml (pomContent : string) : option jsval :=
  match parseString pomContent with
  | None => None
  | Some result =>
      match resolveDescriptor result with
      | Ok pomObj => Some pomObj
      | Throw _ => None
      end
  end.

(** Names and paths of a coordinate (after the visited test). *)
Definition layout (repositoryPath : string) (d : dependency) : result task :=
  let* actual := effectiveVersion (version d) in
  let* group := groupPath (groupId d) in
  let artifactPath :=
    group +:+ "/" +:+ to_string (artifactId d) +:+ "/" +:+ to_string actual in
  let jarName := to_string (artifactId d) +:+ "-" +:+ to_string actual +:+ ".jar" in
  let pomName := to_string (artifactId d) +:+ "-" +:+ to_string actual +:+ ".pom" in
  let localPath := path_join repositoryPath artifactPath in
  Ok {| dependencyKey := keyOf d;
        actualVersion := actual;
        artifactPath := artifactPath;
        jarName := jarName;
        pomName := pomName;
        localJarPath := path_join localPath jarName;
        pomFilePath := path_join localPath pomName |}.

Definition mark (key : string) (w : world) : world :=
  {| downloadedDependencies := {[key]} ∪ downloadedDependencies w;
     disk := disk w;
     events := events w ++ [Marked key] |}.

(** [downloadDependency] up to [await mkdirp(localPath)]. *)
Definition prepare (repositoryPath : string) (d : dependency) (w : world)
  : prepared * world :=
  if negb (truthy (groupId d)) || negb (truthy (artifactId d))
     || negb (truthy (version d))
  then (Skip, w)
  else if bool_decide (keyOf d ∈ downloadedDependencies w) then (Skip, w)
  else
    let w := mark (keyOf d) w in
    match layout repositoryPath d with
    | Ok t => (Start t, w)
    | Throw _ => (Fail, w)
    end.

(** One call of [downloadFile] on behalf of [key]. *)
Definition fetch (key : string) (file : artifactFile) (url dest : string)
    (w : world) : settled * world :=
  let d := downloadFile https_get url dest (disk w) in
  (outcome d,
   {| downloadedDependencies := downloadedDependencies w;
      disk := disk_after d;
      events := events w ++ [Fetch key file url dest] |}).

(** The first [try] block up to [await Promise.all(downloadTasks)]: both
    existence tests are made before either download runs. *)
Definition fetchFiles (t : task) (w : world) : status * world :=
  let needJar := negb (existsSync (disk w) (localJarPath t)) in
  let needPom := negb (existsSync (disk w) (pomFilePath t)) in
  let '(jar, w) :=
    if needJar
    then fetch (dependencyKey t) Jar (urlOf (artifactPath t) (jarName t))
           (localJarPath t) w
    else (Resolved, w) in
  let '(pom, w) :=
    if needPom
    then fetch (dependencyKey t) Pom (urlOf (artifactPath t) (pomName t))
           (pomFilePath t) w
    else (Resolved, w) in
  (all (status_of jar) (status_of pom), w).

Section Chunks.

(** First part and remainder of the call made for each member. *)
Variable begin : dependency -> world -> prepared * world.
Variable finish : task -> world -> option (status * world).

Fixpoint beginAll (chunk : list dependency) (w : world)
  : list prepared * world :=
  match chunk with
  | [] => ([], w)
  | d :: rest =>
      let '(p, w) := begin d w in
      let '(ps, w) := beginAll rest w in
      (p :: ps, w)
  end.

Fixpoint finishAll (started : list prepared) (w : world)
  : option (status * world) :=
  match started with
  | [] => Some (Completed, w)
  | p :: rest =>
      match
        match p with
        | Skip => Some (Completed, w)
        | Fail => Some (Threw, w)
        | Start t => finish t w
        end
      with
      | None => None
      | Some (s, w) =>
          match finishAll rest w with
          | None => None
          | Some (s', w) => Some (all s s', w)
          end
      end
  end.

(** [await Promise.all(chunk.map(...))] *)
Definition walkChunk (chunk : list dependency) (w : world)
  : option (status * world) :=
  let '(started, w) := beginAll chunk w in
  finishAll started w.

(** [for (const chunk of chunks) await Promise.all(...)]: a chunk that
    does not complete ends the loop. *)
Fixpoint walkChunks (cs : list (list dependency)) (w : world)
  : option (status * world) :=
  match cs with
  | [] => Some (Completed, w)
  | chunk :: rest =>
      match walkChunk chunk w with
      | Some (Completed, w) => walkChunks rest w
      | other => other
      end
  end.

End Chunks.

(** [downloadDependency] from [await mkdirp(localPath)] on.  [fuel]
    bounds the depth of the recursion. *)
Fixpoint resume (fuel : nat) (repositoryPath : string) (t : task) (w : world)
  : option (status * world) :=
  match fuel with
  | O => None
  | S fuel =>
      match fetchFiles t w with
      | (Threw, w) => Some (Completed, w)      (* outer [catch] *)
      | (Stalled, w) => Some (Stalled, w)
      | (Completed, w) =>
          match disk w !! pomFilePath t with
          | None => Some (Completed, w)
          | Some pomContent =>
              if String.eqb pomContent "" then
                Some (Completed,
                      {| downloadedDependencies := downloadedDependencies w;
                         disk := delete (pomFilePath t) (disk w);
                         events := events w |})
              else
                match parsePomXml pomContent with
                | None => Some (Completed, w)  (* inner [catch] *)
                | Some depPomObj =>
                    if truthy depPomObj then
                      match getDependencies depPomObj with
                      | Throw _ => Some (Completed, w)
                      | Ok transitiveDeps =>
                          match
                            walkChunks (prepare repositoryPath)
                              (resume fuel repositoryPath)
                              (chunks transitiveDeps) w
                          with
                          | None => None
                          | Some (Stalled, w) => Some (Stalled, w)
                          | Some (_, w) => Some (Completed, w)
                          end
                      end
                    else Some (Completed, w)
                end
          end
      end
  end.

Definition downloadDependency (fuel : nat) (d : dependency)
    (repositoryPath : string) (w : world) : option (status * world) :=
  match prepare repositoryPath d w with
  | (Skip, w) => Some (Completed, w)
  | (Fail, w) => Some (Threw, w)
  | (Start t, w) => resume fuel repositoryPath t w
  end.

(** [main]: [Threw] is the path through [process.exit(1)]. *)
Definition main (fuel : nat) (w : world) : option (status * world) :=
  let pomPath := "./pom.xml" in
  let repositoryPath := "./repository" in
  match disk w !! pomPath with
  | None => Some (Threw, w)
  | Some pomContent =>
      match parsePomXml pomContent with
      | None => Some (Threw, w)
      | Some pomObj =>
          match getDependencies pomObj with
          | Throw _ => Some (Threw, w)
          | Ok dependencies =>
              walkChunks
                (fun dep w =>
                   if truthy (version dep) then prepare repositoryPath dep w
                   else (Skip, w))
                (resume fuel repositoryPath)
                (chunks dependencies) w
          end
      end
  end.

End Walk.

(** * Vocabulary of the statements *)

(** The successful nested walk of [resolveVersion], as a partial function:
    [Some] of the value reached when every part leads on, [None] as soon
    as a part does not. *)
Fixpoint descend (parts : list string) (current : jsval) : option jsval :=
  match parts with
  | [] => Some current
  | part :: rest =>
      let first := prop (prop current part) "0" in
      if truthy (prop current part) && truthy first then descend rest first
      else None
  end.

(** A name under which no value inherits anything: not [length],
    [constructor] or [__proto__], and not the name of a method of an
    object, array, string or number. *)
Definition plainName (k : string) : bool :=
  negb (String.eqb k "length" || String.eqb k "__proto__"
        || String.eqb k "constructor" || isIn k objectMethods
        || isIn k arrayMethods || isIn k stringMethods
        || isIn k numberMethods).

(** The syntactic form [[min,)] of an open-ended range. *)
Definition openRange (v : string) : Prop :=
  exists min, v = "[" +:+ min +:+ ",)".

(** The test [parseVersionRange] applies to tell a range from an exact
    version. *)
Definition recognised (v : string) : bool :=
  JsString.startsWith (JsString.trim v) "["
  && JsString.endsWith (JsString.trim v) ")".

(** ** Shape of what the XML reader returns

    With the reader's default options the result is an object with one
    key, the name of the root element.  The value of an element is a
    string (text only) or an object; in such an object the key ["$"] holds
    the attributes, ["_"] the text, and every other key is a child name
    bound to a non-empty array of element values. *)
Fixpoint element (v : jsval) : bool :=
  match v with
  | JStr _ => true
  | JObj fields =>
      forallb (fun '(k, children) =>
                 String.eqb k "$" || String.eqb k "_" ||
                 match children with
                 | JArr (first :: rest) => element first && forallb element rest
                 | _ => false
                 end) fields
  | _ => false
  end.

Definition document (result : jsval) : bool :=
  match result with
  | JObj [(_, root)] => element root
  | _ => false
  end.

(** The declarations of a descriptor: the array that [getDependencies]
    iterates over. *)
Definition declarations (pomObj : jsval) : list jsval :=
  match
    get_opt (get_opt (get_opt (get_opt pomObj "project") "dependencies") "0")
      "dependency"
  with
  | JArr items => items
  | _ => []
  end.

(** A declaration has its three fields, and its first version is usable. *)
Definition complete (declaration : jsval) : bool :=
  truthy (prop declaration "groupId")
  && truthy (prop declaration "artifactId")
  && truthy (prop declaration "version")
  && truthy (prop (prop declaration "version") "0").

Definition is_object (v : jsval) : Prop := exists fields, v = JObj fields.

(** The entry pushed for a declaration. *)
Definition entry (declaration : jsval) : dependency :=
  {| groupId := prop (prop declaration "groupId") "0";
     artifactId := prop (prop declaration "artifactId") "0";
     version := prop (prop declaration "version") "0" |}.

(** ** Reading the record of a walk *)

(** Keys in the order they were added to [downloadedDependencies]. *)
Definition marks (evs : list event) : list string :=
  omap (fun e => match e with Marked k => Some k | _ => None end) evs.

Definition sameFile (a b : artifactFile) : bool :=
  match a, b with
  | Jar, Jar | Pom, Pom => true
  | _, _ => false
  end.

(** Keys for which [downloadFile] was called for the given file, one per
    call. *)
Definition fetches (file : artifactFile) (evs : list event) : list string :=
  omap (fun e => match e with
                 | Fetch k f _ _ => if sameFile f file then Some k else None
                 | _ => None
                 end) evs.

Fixpoint occurrences (k : string) (l : list string) : nat :=
  match l with
  | [] => 0
  | k' :: rest => (if String.eqb k' k then 1 else 0) + occurrences k rest
  end.

(** Every call of [downloadFile] for a key comes after the key was added
    to [downloadedDependencies]. *)
Definition ordered (evs : list event) : Prop :=
  forall i k file url dest,
    evs !! i = Some (Fetch k file url dest) ->
    exists j, j < i /\ evs !! j = Some (Marked k).

(** The keys recorded as marked are distinct, and they are the members
    of [downloadedDependencies]. *)
Definition fresh (w : world) : Prop :=
  NoDup (marks (events w))
  /\ forall k, k ∈ marks (events w) <-> k ∈ downloadedDependencies w.

(** Keys of the tasks that were started. *)
Definition startKeys (ps : list prepared) : list string :=
  omap (fun p => match p with Start t => Some (dependencyKey t) | _ => None end) ps.

(** [step owed w w']: how a part of the walk may change the world, when
    [owed] lists the keys of the tasks it completes (each may still make
    one call of [downloadFile] for each of its two files). *)
Definition step (owed : list string) (w w' : world) : Prop :=
  downloadedDependencies w ⊆ downloadedDependencies w'
  /\ (exists new, events w' = events w ++ new)
  /\ (fresh w -> fresh w')
  /\ (ordered (events w) ->
      (forall k, k ∈ owed -> Marked k ∈ events w) ->
      ordered (events w'))
  /\ (forall file k,
        occurrences k (fetches file (events w')) + occurrences k (marks (events w))
        <= occurrences k (fetches file (events w)) + occurrences k (marks (events w'))
           + occurrences k owed).

(** [credit ps w w']: the first parts of the calls of a chunk call
    [downloadFile] for nothing and mark the key of every task they
    start. *)
Definition credit (ps : list prepared) (w w' : world) : Prop :=
  step [] w w'
  /\ disk w' = disk w
  /\ (forall file, fetches file (events w') = fetches file (events w))
  /\ (forall k,
        occurrences k (marks (events w)) + occurrences k (startKeys ps)
        <= occurrences k (marks (events w')))
  /\ (forall k, k ∈ startKeys ps -> Marked k ∈ events w').

(** A file is on disk and has content. *)
Definition nonEmptyFile (files : gmap string string) (path : string) : bool :=
  match files !! path with
  | Some content => negb (String.eqb content "")
  | None => false
  end.

(** Both files of a task are on disk with content. *)
Definition settledTask (files : gmap string string) (t : task) : Prop :=
  nonEmptyFile files (localJarPath t) = true
  /\ nonEmptyFile files (pomFilePath t) = true.

(** Whatever task is laid out for [d], its files are on disk. *)
Definition declaredPresent (path_join : string -> string -> string)
    (repositoryPath : string) (files : gmap string string)
    (d : dependency) : Prop :=
  forall t, layout path_join repositoryPath d = Ok t -> settledTask files t.

(** A part of the walk that leaves the disk alone and calls
    [downloadFile] for nothing. *)
Definition quiet (w w' : world) : Prop :=
  disk w' = disk w
  /\ forall file, fetches file (events w') = fetches file (events w).

(** A network on which no call of [downloadFile] leaves its promise
    pending: no request goes unanswered, no body of a 200 breaks off and
    no redirect leads to a 200. *)
Definition settling (https_get : string -> requestOptions -> reply) : Prop :=
  forall url dest files,
    outcome (downloadFile https_get url dest files) <> Pending.

(** Number of coordinates of [universe] not yet visited. *)
Definition room (universe : gset string) (w : world) : nat :=
  size (universe ∖ downloadedDependencies w).

(** ** Sample repositories *)

Module Sample.

Definition declaration (g a v : string) : jsval :=
  JObj [("groupId", JArr [JStr g]); ("artifactId", JArr [JStr a]);
        ("version", JArr [JStr v])].

Definition pom (decls : list jsval) : jsval :=
  JObj [("project",
         JObj [("dependencies", JArr [JObj [("dependency", JArr decls)]])])].

(** A descriptor with a property table and four declarations: one
    resolvable, one with an unknown property, one without a version, and
    one that is plain text. *)
Definition described : jsval :=
  JObj [("project",
         JObj [("$", JObj [("xmlns", JStr "http://maven.apache.org/POM/4.0.0")]);
               ("properties", JArr [JObj [("foo.bar", JArr [JStr "1.2.3"])]]);
               ("dependencies",
                JArr [JObj [("dependency",
                             JArr [declaration "g" "a" "${foo.bar}";
                                   declaration "g" "b" "${nope}";
                                   JObj [("groupId", JArr [JStr "g"]);
                                         ("artifactId", JArr [JStr "c"])];
                                   JStr "text"])]])])].

(** [path.join] on the paths that occur here: the two parts are joined
    with [/], and the normalisation drops a leading [./]. *)
Definition join (a b : string) : string :=
  match a +:+ "/" +:+ b with
  | String "."%char (String "/"%char rest) => rest
  | joined => joined
  end.

Definition url (a : string) (ext : string) : string :=
  "https://repo1.maven.org/maven2/g/" +:+ a +:+ "/1/" +:+ a +:+ "-1." +:+ ext.

Definition file (a : string) (ext : string) : string :=
  "repository/g/" +:+ a +:+ "/1/" +:+ a +:+ "-1." +:+ ext.

(** Every jar is served; descriptors are served under their artifact
    name; everything else is a 404. *)
Definition https_get (descriptors : list string)
    (url : string) (_ : requestOptions) : reply :=
  if JsString.endsWith url ".jar" then Response 200 "" "jar"
  else
    match
      find (fun a => String.eqb url (Sample.url a "pom")) descriptors
    with
    | Some a => Response 200 "" a
    | None => Response 404 "" ""
    end.

(** The task of the coordinate g:A:1. *)
Definition taskA : task :=
  {| dependencyKey := "g:A:1";
     actualVersion := JStr "1";
     artifactPath := "g/A/1";
     jarName := "A-1.jar";
     pomName := "A-1.pom";
     localJarPath := file "A" "jar";
     pomFilePath := file "A" "pom" |}.

(** A repository in which the jar of A is an empty file. *)
Definition emptyJar : world :=
  World ∅ {[file "A" "jar" := ""; file "A" "pom" := "A"]} [].

(** The cycle: the root declares A, A declares B, B declares A. *)
Module Cycle.
Definition parseString (content : string) : option jsval :=
  if String.eqb content "root" then Some (pom [declaration "g" "A" "1"])
  else if String.eqb content "A" then Some (pom [declaration "g" "B" "1"])
  else if String.eqb content "B" then Some (pom [declaration "g" "A" "1"])
  else None.
Definition get := https_get ["A"; "B"].
Definition start : world := World ∅ {["./pom.xml" := "root"]} [].
Definition universe : gset string := {["g:A:1"; "g:B:1"]}.
(** The state of the disk after a first run. *)
Definition downloaded : world :=
  World ∅
    {["./pom.xml" := "root";
      file "A" "jar" := "jar"; file "A" "pom" := "A";
      file "B" "jar" := "jar"; file "B" "pom" := "B"]} [].
End Cycle.

(** The diamond: the root declares A and B, both declare C, and C
    declares nothing. *)
Module Diamond.
Definition parseString (content : string) : option jsval :=
  if String.eqb content "root"
  then Some (pom [declaration "g" "A" "1"; declaration "g" "B" "1"])
  else if String.eqb content "A" then Some (pom [declaration "g" "C" "1"])
  else if String.eqb content "B" then Some (pom [declaration "g" "C" "1"])
  else if String.eqb content "C" then Some (JObj [("project", JStr "")])
  else None.
Definition get := https_get ["A"; "B"; "C"].
Definition start : world := World ∅ {["./pom.xml" := "root"]} [].
End Diamond.

End Sample.

(** * Further vocabulary *)

(** A string of white space only. *)
Fixpoint blank (s : string) : bool :=
  match s with
  | EmptyString => true
  | String c s' => JsString.is_space c && blank s'
  end.

(** A string value. *)
Definition is_string (v : jsval) : Prop := exists s, v = JStr s.

(** A string without a colon. *)
Definition plainField (v : jsval) : Prop :=
  exists s, v = JStr s /\ JsString.includes s ":" = false.

(** The fields that [downloadDependency] insists on. *)
Definition valid (d : dependency) : bool :=
  truthy (groupId d) && truthy (artifactId d) && truthy (version d).

(** Every file of [w] that has content is in [w'] with the same
    content. *)
Definition keeps (w w' : world) : Prop :=
  forall path content,
    disk w !! path = Some content -> content <> "" ->
    disk w' !! path = Some content.

(** The visited set only grows. *)
Definition grows (w w' : world) : Prop :=
  downloadedDependencies w ⊆ downloadedDependencies w'.

(** * The earliest variant of the script

    The third script of [main.js]: no visited set, no test for files
    already on disk, no version ranges; [downloadFile] passes no options
    and looks at the status code only to tell a 404. *)
Module Earlier.

Definition MAVEN_CENTRAL_URL : string :=
  "https://maven.aliyun.com/repository/public".

Definition resolveVersion (version properties : jsval) : result jsval :=
  if negb (truthy version) then Ok JNull
  else
    match version with
    | JStr v =>
        if JsString.startsWith v "${" && JsString.endsWith v "}" then
          let propertyName := JsString.slice v 2 (-1) in
          if truthy properties then
            let* direct := get properties propertyName in
            if truthy direct then get direct "0"
            else lookupParts (JsString.split "." propertyName) properties
          else Ok version
        else Ok version
    | _ => Throw "version.startsWith is not a function"
    end.

Definition resolveDeclaration (properties dep : jsval) : result jsval :=
  let* declared := get dep "version" in
  let* resolved :=
    (if truthy declared then
       let* raw := get declared "0" in
       let* v := resolveVersion raw properties in
       Ok (JArr [v])
     else Ok (JArr [])) in
  Ok (JObj (assign (spread dep) "version" resolved)).

Definition resolveDescriptor (result : jsval) : Js.result jsval :=
  if negb (truthy result) then Ok JNull
  else
    let project := get_opt result "project" in
    let table := get_opt (get_opt project "properties") "0" in
    let properties := if truthy table then table else JObj [] in
    let declared :=
      get_opt (get_opt (get_opt project "dependencies") "0") "dependency" in
    if truthy declared then
      match declared with
      | JArr items =>
          let* resolved := mapM (resolveDeclaration properties) items in
          Ok (update result "project" (fun project =>
                update project "dependencies" (fun dependencies =>
                  update dependencies "0" (fun first =>
                    update first "dependency" (fun _ => JArr resolved)))))
      | _ => Throw "dependency.map is not a function"
      end
    else Ok result.

Section Walk.

(** [https.get(url, callback)]: the request carries no options. *)
Variable https_get : string -> reply.
Variable parseString : string -> option jsval.
Variable path_join : string -> string -> string.

(** [downloadFile]: how its promise ends and the disk it leaves.  A 404
    deletes the file and resolves; any other response is piped into the
    file, and the promise resolves when the body has arrived
    completely. *)
Definition downloadFile (url dest : string) (disk : gmap string string)
  : settled * gmap string string :=
  let disk := createWriteStream dest disk in
  match https_get url with
  | RequestError cause => (Rejected (Transport cause), unlink dest disk)
  | NoAnswer => (Pending, disk)
  | Response statusCode _ body =>
      if (statusCode =? 404)%Z then (Resolved, unlink dest disk)
      else (Resolved, <[dest := body]> disk)
  | Truncated statusCode _ received =>
      if (statusCode =? 404)%Z then (Resolved, unlink dest disk)
      else (Pending, <[dest := received]> disk)
  end.

Definition parsePomXml (pomContent : string) : option jsval :=
  match parseString pomContent with
  | None => None
  | Some result =>
      match resolveDescriptor result with
      | Ok pomObj => Some pomObj
      | Throw _ => None
      end
  end.

(** [for (const dep of deps) await call(dep)]: a call that rejects ends
    the loop. *)
Fixpoint forEach
    (call : dependency -> gmap string string
            -> option (status * gmap string string))
    (deps : list dependency) (disk : gmap string string)
  : option (status * gmap string string) :=
  match deps with
  | [] => Some (Completed, disk)
  | dep :: rest =>
      match call dep disk with
      | Some (Completed, disk) => forEach call rest disk
      | other => other
      end
  end.

(** [downloadDependency]; [fuel] bounds the depth of the recursion.  Both
    [catch] blocks only log. *)
Fixpoint downloadDependency (fuel : nat) (d : dependency)
    (repositoryPath : string) (disk : gmap string string)
  : option (status * gmap string string) :=
  match fuel with
  | O => None
  | S fuel =>
      if negb (truthy (groupId d)) || negb (truthy (artifactId d))
         || negb (truthy (version d))
      then Some (Completed, disk)
      else
        match groupPath (groupId d) with
        | Throw _ => Some (Threw, disk)
        | Ok group =>
            let artifactPath :=
              group +:+ "/" +:+ to_string (artifactId d) +:+ "/"
              +:+ to_string (version d) in
            let jarName :=
              to_string (artifactId d) +:+ "-" +:+ to_string (version d)
              +:+ ".jar" in
            let pomName :=
              to_string (artifactId d) +:+ "-" +:+ to_string (version d)
              +:+ ".pom" in
            let localPath := path_join repositoryPath artifactPath in
            match
              downloadFile
                (MAVEN_CENTRAL_URL +:+ "/" +:+ artifactPath +:+ "/" +:+ jarName)
                (path_join localPath jarName) disk
            with
            | (Rejected _, disk) => Some (Completed, disk)
            | (Pending, disk) => Some (Stalled, disk)
            | (Resolved, disk) =>
                match
                  downloadFile
                    (MAVEN_CENTRAL_URL +:+ "/" +:+ artifactPath +:+ "/"
                     +:+ pomName)
                    (path_join localPath pomName) disk
                with
                | (Rejected _, disk) => Some (Completed, disk)
                | (Pending, disk) => Some (Stalled, disk)
                | (Resolved, disk) =>
                    match disk !! path_join localPath pomName with
                    | None => Some (Completed, disk)
                    | Some pomContent =>
                        match parsePomXml pomContent with
                        | None => Some (Completed, disk)
                        | Some depPomObj =>
                            if truthy depPomObj then
                              match getDependencies depPomObj with
                              | Throw _ => Some (Completed, disk)
                              | Ok transitiveDeps =>
                                  match
                                    forEach
                                      (fun dep =>
                                         downloadDependency fuel dep
                                           repositoryPath)
                                      transitiveDeps disk
                                  with
                                  | None => None
                                  | Some (Stalled, disk) =>
                                      Some (Stalled, disk)
                                  | Some (_, disk) => Some (Completed, disk)
                                  end
                              end
                            else Some (Completed, disk)
                        end
                    end
                end
            end
        end
  end.

(** [main]: its [catch] logs the error and the process ends normally. *)
Definition main (fuel : nat) (disk : gmap string string)
  : option (status * gmap string string) :=
  match disk !! "./pom.xml" with
  | None => Some (Completed, disk)
  | Some pomContent =>
      match parsePomXml pomContent with
      | None => Some (Completed, disk)
      | Some pomObj =>
          match getDependencies pomObj with
          | Throw _ => Some (Completed, disk)
          | Ok dependencies =>
              match
                forEach
                  (fun dep disk =>
                     if truthy (version dep)
                     then downloadDependency fuel dep "./repository" disk
                     else Some (Completed, disk))
                  dependencies disk
              with
              | None => None
              | Some (Stalled, disk) => Some (Stalled, disk)
              | Some (_, disk) => Some (Completed, disk)
              end
          end
      end
  end.

End Walk.

(** The URL requested for a file of the coordinate [g:a:v], [ext] being
    [".jar"] or [".pom"]. *)
Definition remote (g : string) (a : jsval) (v ext : string) : string :=
  MAVEN_CENTRAL_URL +:+ "/"
  +:+ (JsString.replaceAll "." "/" g +:+ "/" +:+ to_string a +:+ "/" +:+ v)
  +:+ "/" +:+ (to_string a +:+ "-" +:+ v +:+ ext).

(** A repository in which the descriptor of g:A:1 declares g:A:1. *)
Module Loop.
Definition parseString (content : string) : option jsval :=
  if String.eqb content "A"
  then Some (Sample.pom [Sample.declaration "g" "A" "1"])
  else None.
Definition get (url : string) : reply := Response 200 "" "A".
Definition self : dependency := Dependency (JStr "g") (JStr "A") (JStr "1").
End Loop.

End Earlier.

(** * The sequential variant of the script

    The second script of [main.js]: it has the visited set and the range
    handling, but it awaits one download after the other and one
    dependency after the other.  [resolveVersion], [parsePomXml],
    [getDependencies] and the part of [downloadDependency] before
    [await mkdirp] are the same text as in the first script. *)
Module Sequential.

Definition MAVEN_CENTRAL_URL : string := "https://repo.maven.apache.org/maven2".

Definition urlOf (artifactPath name : string) : string :=
  MAVEN_CENTRAL_URL +:+ "/" +:+ artifactPath +:+ "/" +:+ name.

(** [for (const dep of deps) await call(dep)], the call given by its first
    part and its remainder: a call that does not complete ends the
    loop. *)
Fixpoint forEach
    (begin : dependency -> world -> prepared * world)
    (finish : task -> world -> option (status * world))
    (deps : list dependency) (w : world) : option (status * world) :=
  match deps with
  | [] => Some (Completed, w)
  | dep :: rest =>
      match
        match begin dep w with
        | (Skip, w) => Some (Completed, w)
        | (Fail, w) => Some (Threw, w)
        | (Start t, w) => finish t w
        end
      with
      | Some (Completed, w) => forEach begin finish rest w
      | other => other
      end
  end.

Section Walk.

(** [downloadFile], whatever it does: how its promise ends and the disk it
    leaves. *)
Variable downloadFile :
  string -> string -> gmap string string -> settled * gmap string string.
Variable parseString : string -> option jsval.
Variable path_join : string -> string -> string.

Definition fetch (key : string) (file : artifactFile) (url dest : string)
    (w : world) : settled * world :=
  let '(state, files) := downloadFile url dest (disk w) in
  (state,
   {| downloadedDependencies := downloadedDependencies w;
      disk := files;
      events := events w ++ [Fetch key file url dest] |}).

(** The first [try] block up to the second [await downloadFile]: the
    descriptor is looked for, and requested, only after the download of
    the jar has resolved. *)
Definition fetchFiles (t : task) (w : world) : status * world :=
  let '(jar, w) :=
    if existsSync (disk w) (localJarPath t) then (Resolved, w)
    else fetch (dependencyKey t) Jar (urlOf (artifactPath t) (jarName t))
           (localJarPath t) w in
  match status_of jar with
  | Completed =>
      let '(pom, w) :=
        if existsSync (disk w) (pomFilePath t) then (Resolved, w)
        else fetch (dependencyKey t) Pom (urlOf (artifactPath t) (pomName t))
               (pomFilePath t) w in
      (status_of pom, w)
  | other => (other, w)
  end.

(** [downloadDependency] from [await mkdirp(localPath)] on. *)
Fixpoint resume (fuel : nat) (repositoryPath : string) (t : task) (w : world)
  : option (status * world) :=
  match fuel with
  | O => None
  | S fuel =>
      match fetchFiles t w with
      | (Threw, w) => Some (Completed, w)
      | (Stalled, w) => Some (Stalled, w)
      | (Completed, w) =>
          match disk w !! pomFilePath t with
          | None => Some (Completed, w)
          | Some pomContent =>
              if String.eqb pomContent "" then
                Some (Completed,
                      {| downloadedDependencies := downloadedDependencies w;
                         disk := delete (pomFilePath t) (disk w);
                         events := events w |})
              else
                match parsePomXml parseString pomContent with
                | None => Some (Completed, w)
                | Some depPomObj =>
                    if truthy depPomObj then
                      match getDependencies depPomObj with
                      | Throw _ => Some (Completed, w)
                      | Ok transitiveDeps =>
                          match
                            forEach (prepare path_join repositoryPath)
                              (resume fuel repositoryPath) transitiveDeps w
                          with
                          | None => None
                          | Some (Stalled, w) => Some (Stalled, w)
                          | Some (_, w) => Some (Completed, w)
                          end
                      end
                    else Some (Completed, w)
                end
          end
      end
  end.

Definition downloadDependency (fuel : nat) (d : dependency)
    (repositoryPath : string) (w : world) : option (status * world) :=
  match prepare path_join repositoryPath d w with
  | (Skip, w) => Some (Completed, w)
  | (Fail, w) => Some (Threw, w)
  | (Start t, w) => resume fuel repositoryPath t w
  end.

Definition main (fuel : nat) (w : world) : option (status * world) :=
  let pomPath := "./pom.xml" in
  let repositoryPath := "./repository" in
  match disk w !! pomPath with
  | None => Some (Threw, w)
  | Some pomContent =>
      match parsePomXml parseString pomContent with
      | None => Some (Threw, w)
      | Some pomObj =>
          match getDependencies pomObj with
          | Throw _ => Some (Threw, w)
          | Ok dependencies =>
              forEach
                (fun dep w =>
                   if truthy (version dep) then prepare path_join repositoryPath dep w
                   else (Skip, w))
                (resume fuel repositoryPath) dependencies w
          end
      end
  end.

End Walk.

(** A [downloadFile] that finds every jar and the descriptors of A and
    B. *)
Definition served (url dest : string) (files : gmap string string)
  : settled * gmap string string :=
  if JsString.endsWith url ".jar" then (Resolved, <[dest := "jar"]> files)
  else if JsString.endsWith url "/A-1.pom" then (Resolved, <[dest := "A"]> files)
  else if JsString.endsWith url "/B-1.pom" then (Resolved, <[dest := "B"]> files)
  else (Rejected FileNotFound, delete dest files).

End Sequential.

(** * Properties *)

(** ** Facts about strings *)

Lemma append_nil (b : string) : "" +:+ b = b.
Proof. reflexivity. Qed.

Lemma append_cons (x : ascii) (a b : string) :
  String x a +:+ b = String x (a +:+ b).
Proof. reflexivity. Qed.

Ltac unfold_append := rewrite ?append_cons, ?append_nil in *.

Section StringFacts.

Import JsString.

Lemma append_assoc (a b c : string) : (a +:+ b) +:+ c = a +:+ b +:+ c.
Proof.
  induction a as [|x a IH]; unfold_append; [reflexivity | now rewrite IH].
Qed.

Lemma append_empty_r (a : string) : a +:+ "" = a.
Proof.
  induction a as [|x a IH]; unfold_append; [reflexivity | now rewrite IH].
Qed.

Lemma length_append (a b : string) :
  String.length (a +:+ b) = (String.length a + String.length b)%nat.
Proof.
  induction a as [|x a IH]; unfold_append; simpl; [reflexivity | now rewrite IH].
Qed.

Lemma substring_whole (m b : string) :
  String.substring 0 (String.length m) (m +:+ b) = m.
Proof.
  induction m as [|x m IH]; unfold_append; simpl.
  - now destruct b.
  - now rewrite IH.
Qed.

Lemma substring_middle (a m b : string) :
  String.substring (String.length a) (String.length m) (a +:+ m +:+ b) = m.
Proof.
  induction a as [|x a IH]; unfold_append; simpl;
    [apply substring_whole | exact IH].
Qed.

Lemma startsWith_append (p s : string) : startsWith (p +:+ s) p = true.
Proof.
  induction p as [|x p IH]; unfold_append; simpl; [reflexivity |].
  now rewrite Ascii.eqb_refl, IH.
Qed.

Lemma startsWith_inv (s p : string) :
  startsWith s p = true -> exists rest, s = p +:+ rest.
Proof.
  revert s; induction p as [|x p IH]; intros s H; simpl in *.
  - now exists s.
  - destruct s as [|y s]; [discriminate |].
    apply andb_true_iff in H as [Hxy Hp].
    apply Ascii.eqb_eq in Hxy as ->.
    destruct (IH _ Hp) as [rest ->]. now exists rest.
Qed.

Lemma endsWith_append (s p : string) : endsWith (s +:+ p) p = true.
Proof.
  unfold endsWith. rewrite length_append.
  apply andb_true_iff; split; [apply Nat.leb_le; lia |].
  replace (String.length s + String.length p - String.length p)%nat
    with (String.length s) by lia.
  pose proof (substring_middle s p "") as H.
  rewrite append_empty_r in H. rewrite H. apply String.eqb_refl.
Qed.

Lemma includes_append (a p b : string) : includes (a +:+ p +:+ b) p = true.
Proof.
  induction a as [|x a IH]; unfold_append.
  - destruct (p +:+ b) eqn:E; simpl; rewrite <- ?E, startsWith_append;
      reflexivity.
  - simpl. rewrite IH. apply orb_true_r.
Qed.

Lemma contains_includes (s p : string) : contains s p -> includes s p = true.
Proof. intros (pre & post & ->). apply includes_append. Qed.

(** [slice] with a prefix length and a negative suffix length cuts both
    off. *)
Lemma slice_middle (a m b : string) :
  b <> "" ->
  slice (a +:+ m +:+ b) (Z.of_nat (String.length a))
    (- Z.of_nat (String.length b)) = m.
Proof.
  intros Hb. unfold slice, clamp. rewrite !length_append.
  assert (0 < String.length b)%nat by (destruct b; [congruence | simpl; lia]).
  destruct (Z.ltb_spec (Z.of_nat (String.length a)) 0); [lia |].
  destruct (Z.ltb_spec (- Z.of_nat (String.length b)) 0); [| lia].
  rewrite Z.min_l by lia. rewrite Z.max_l by lia.
  rewrite Nat2Z.id.
  replace (Z.to_nat _) with (String.length m) by lia.
  apply substring_middle.
Qed.

Lemma trimStart_id (c : ascii) (s : string) :
  is_space c = false -> trimStart (String c s) = String c s.
Proof. intros H; simpl; now rewrite H. Qed.

Lemma trimEnd_id (s : string) (c : ascii) :
  is_space c = false -> trimEnd (s +:+ String c "") = s +:+ String c "".
Proof.
  intros H. induction s as [|x s IH]; unfold_append; simpl.
  - now rewrite H.
  - rewrite IH.
    destruct (s +:+ String c "") eqn:E.
    + destruct s; discriminate.
    + now rewrite andb_false_r.
Qed.

(** A string delimited by two characters that are not white space is
    left alone by [trim]. *)
Lemma trim_delimited (c d : ascii) (s : string) :
  is_space c = false -> is_space d = false ->
  trim (String c (s +:+ String d "")) = String c (s +:+ String d "").
Proof.
  intros Hc Hd. unfold trim. rewrite trimStart_id by assumption.
  rewrite <- append_cons. now apply trimEnd_id.
Qed.

Lemma append_suffix_inj (a b : string) (c d : ascii) :
  a +:+ String c "" = b +:+ String d "" -> a = b /\ c = d.
Proof.
  revert b; induction a as [|x a IH]; intros [|y b] E; unfold_append.
  - now inversion E.
  - inversion E as [[E1 E2]]. destruct b; discriminate.
  - inversion E as [[E1 E2]]. destruct a; discriminate.
  - inversion E as [[E1 E2]]. destruct (IH _ E2) as [-> ->]. now subst.
Qed.

End StringFacts.

(** ** Version resolution *)

Lemma get_truthy (v : jsval) (k : string) :
  truthy v = true -> get v k = Ok (prop v k).
Proof. now destruct v. Qed.

Lemma lookupParts_descend (parts : list string) (current : jsval) :
  truthy current = true ->
  lookupParts parts current = Ok (default JNull (descend parts current)).
Proof.
  revert current; induction parts as [|part rest IH]; intros current Hc; simpl.
  - reflexivity.
  - rewrite (get_truthy _ _ Hc); simpl.
    destruct (truthy (prop current part)) eqn:He; simpl; [| reflexivity].
    rewrite (get_truthy _ _ He); simpl.
    destruct (truthy (prop (prop current part) "0")) eqn:Hf; [| reflexivity].
    now apply IH.
Qed.




Lemma open_range_shape (min : string) :
  JsString.trim ("[" +:+ min +:+ ",)") = "[" +:+ min +:+ ",)"
  /\ JsString.endsWith ("[" +:+ min +:+ ",)") ")" = true
  /\ JsString.slice ("[" +:+ min +:+ ",)") 1 (-2) = min.
Proof.
  assert (E : "[" +:+ min +:+ ",)" = String "[" ((min +:+ ",") +:+ ")")).
  { unfold_append. f_equal. now rewrite append_assoc. }
  split; [| split].
  - rewrite E. now apply trim_delimited.
  - rewrite E, <- append_cons. apply endsWith_append.
  - apply (slice_middle "[" min ",)"). discriminate.
Qed.

Lemma parseVersionRange_open (min : string) :
  parseVersionRange ("[" +:+ min +:+ ",)") = Range min true false.
Proof.
  unfold parseVersionRange.
  destruct (open_range_shape min) as (-> & -> & ->).
  now rewrite startsWith_append.
Qed.

(** An open-ended range with a non-empty lower bound resolves to that
    bound. *)
Lemma resolveVersion_open_range (min : string) (properties : jsval) :
  min <> "" ->
  resolveVersion (JStr ("[" +:+ min +:+ ",)")) properties = Ok (JStr min).
Proof.
  intros Hm. unfold resolveVersion.
  replace (truthy (JStr ("[" +:+ min +:+ ",)"))) with true by reflexivity.
  replace (JsString.startsWith ("[" +:+ min +:+ ",)") "${") with false
    by reflexivity.
  simpl. unfold resolveRange.
  assert (Hp : JsString.includes ("[" +:+ min +:+ ",)") ")" = true).
  { replace ("[" +:+ min +:+ ",)") with (("[" +:+ min +:+ ",") +:+ ")" +:+ "").
    - apply includes_append.
    - unfold_append. f_equal. now rewrite append_assoc. }
  rewrite Hp, orb_true_r, parseVersionRange_open. simpl.
  apply String.eqb_neq in Hm. now rewrite Hm.
Qed.

(** With an empty lower bound the fallback [versionRange.min || version]
    returns the expression itself. *)
Lemma resolveVersion_empty_bound (properties : jsval) :
  resolveVersion (JStr "[,)") properties = Ok (JStr "[,)").
Proof. reflexivity. Qed.

(** An expression that [parseVersionRange] does not recognise is returned
    unchanged. *)
Lemma resolveRange_exact (version : string) :
  JsString.startsWith (JsString.trim version) "["
    && JsString.endsWith (JsString.trim version) ")" = false ->
  resolveRange version = JStr version.
Proof.
  intros H. unfold resolveRange, parseVersionRange. rewrite H. simpl.
  now destruct (_ || _).
Qed.

Lemma assoc_assign (fields : list (string * jsval)) (k : string) (v : jsval) :
  assoc (assign fields k v) k = Some v.
Proof.
  induction fields as [|[k' v'] rest IH]; simpl.
  - now rewrite String.eqb_refl.
  - destruct (String.eqb k' k) eqn:E; simpl; now rewrite E.
Qed.

Lemma assoc_assign_ne (fields : list (string * jsval)) (k j : string) (v : jsval) :
  k <> j -> assoc (assign fields k v) j = assoc fields j.
Proof.
  intros Hne. induction fields as [|[k' v'] rest IH]; simpl.
  - apply String.eqb_neq in Hne. now rewrite Hne.
  - destruct (String.eqb k' k) eqn:E; simpl.
    + apply String.eqb_eq in E as ->.
      apply String.eqb_neq in Hne. now rewrite Hne.
    + now rewrite IH.
Qed.






(** C7. At the half-open range ["[1.0,2.0)"], which is not of the
    [[min,)] form, [parseVersionRange] takes the branch meant for
    [[min,)] and cuts one character off the front and two off the back:
    the expression is not returned unchanged, it resolves to ["1.0,2."]. *)
Theorem resolveVersion_bounded_range (properties : jsval) :
  parseVersionRange "[1.0,2.0)" = Range "1.0,2." true false
  /\ resolveVersion (JStr "[1.0,2.0)") properties = Ok (JStr "1.0,2.").
Proof. split; reflexivity. Qed.

(** ** Names and paths of a coordinate *)

Lemma contains_intro (pre p post s : string) :
  s = pre +:+ p +:+ post -> JsString.contains s p.
Proof. intros ->. now exists pre, post. Qed.

Lemma effectiveVersion_string (v : string) :
  effectiveVersion (JStr v) =
  Ok (if JsString.includes v "[" || JsString.includes v "("
      then range_min (parseVersionRange v) else JStr v).
Proof.
  unfold effectiveVersion, includes. simpl.
  now destruct (JsString.includes v "["), (JsString.includes v "(").
Qed.

Lemma parseVersionRange_unrecognised (v : string) :
  recognised v = false -> parseVersionRange v = Exact (JsString.trim v).
Proof. unfold recognised, parseVersionRange. now intros ->. Qed.

Lemma not_openRange (v : string) :
  JsString.endsWith v ",)" = false -> ~ openRange v.
Proof.
  intros H [min ->].
  replace ("[" +:+ min +:+ ",)") with (("[" +:+ min) +:+ ",)") in H
    by apply append_assoc.
  now rewrite endsWith_append in H.
Qed.

Lemma not_contains (s p : string) :
  JsString.includes s p = false -> ~ JsString.contains s p.
Proof. intros H Hc. apply contains_includes in Hc. congruence. Qed.

(** C10, as stated, fails at ["[1.0,2.0)"]: the version contains ['['], is
    not of the [[min,)] form, and yet the effective version is the string
    ["1.0,2."], so no computed name contains ["undefined"]. *)
Lemma effective_version_bounded_range :
  let d := Dependency (JStr "g") (JStr "artifact") (JStr "[1.0,2.0)") in
  JsString.includes "[1.0,2.0)" "[" = true
  /\ ~ openRange "[1.0,2.0)"
  /\ exists t,
       layout Sample.join "./repository" d = Ok t
       /\ actualVersion t = JStr "1.0,2."
       /\ jarName t = "artifact-1.0,2..jar"
       /\ ~ JsString.contains (jarName t) "undefined"
       /\ ~ JsString.contains (pomName t) "undefined"
       /\ ~ JsString.contains (localJarPath t) "undefined"
       /\ ~ JsString.contains (urlOf (artifactPath t) (jarName t)) "undefined".
Proof.
  intros d. split; [reflexivity |]. split; [now apply not_openRange |].
  eexists. split; [reflexivity |].
  repeat split; now apply not_contains.
Qed.

(** C10 (amended). For a dependency whose version contains ['['] or ['(']
    and is not recognised by [parseVersionRange] (after trimming it does
    not both start with ['['] and end with [')']; e.g. ["[1.0]"] or
    ["(1.0,2.0)"]), the effective version is [undefined]: the artifact
    path, the file names and the URLs are built with the text
    ["undefined"] in the place of the version, and this is the task the
    walker starts for the coordinate. *)
Theorem effective_version_undefined
    (path_join : string -> string -> string)
    (repositoryPath g : string) (a : jsval) (v : string) :
  JsString.includes v "[" || JsString.includes v "(" = true ->
  recognised v = false ->
  let d := Dependency (JStr g) a (JStr v) in
  exists t,
    layout path_join repositoryPath d = Ok t
    /\ actualVersion t = JUndefined
    /\ artifactPath t =
         JsString.replaceAll "." "/" g +:+ "/" +:+ to_string a +:+ "/undefined"
    /\ jarName t = to_string a +:+ "-undefined.jar"
    /\ pomName t = to_string a +:+ "-undefined.pom"
    /\ localJarPath t =
         path_join (path_join repositoryPath (artifactPath t)) (jarName t)
    /\ pomFilePath t =
         path_join (path_join repositoryPath (artifactPath t)) (pomName t)
    /\ JsString.contains (jarName t) "undefined"
    /\ JsString.contains (pomName t) "undefined"
    /\ JsString.contains (urlOf (artifactPath t) (jarName t)) "undefined"
    /\ JsString.contains (urlOf (artifactPath t) (pomName t)) "undefined"
    /\ forall w,
         truthy (JStr g) = true -> truthy a = true ->
         keyOf d ∉ downloadedDependencies w ->
         prepare path_join repositoryPath d w = (Start t, mark (keyOf d) w).
Proof.
  intros Hrange Hexact d.
  assert (Hl : layout path_join repositoryPath d =
          Ok (Task (keyOf d) JUndefined
                (JsString.replaceAll "." "/" g +:+ "/" +:+ to_string a +:+ "/undefined")
                (to_string a +:+ "-undefined.jar")
                (to_string a +:+ "-undefined.pom")
                (path_join
                   (path_join repositoryPath
                      (JsString.replaceAll "." "/" g +:+ "/" +:+ to_string a +:+ "/undefined"))
                   (to_string a +:+ "-undefined.jar"))
                (path_join
                   (path_join repositoryPath
                      (JsString.replaceAll "." "/" g +:+ "/" +:+ to_string a +:+ "/undefined"))
                   (to_string a +:+ "-undefined.pom")))).
  { unfold layout. simpl version. rewrite effectiveVersion_string, Hrange.
    rewrite (parseVersionRange_unrecognised _ Hexact). reflexivity. }
  eexists. split; [exact Hl |]. simpl.
  do 6 (split; [reflexivity |]).
  split; [| split; [| split; [| split]]].
  - apply (contains_intro (to_string a +:+ "-") "undefined" ".jar").
    now rewrite !append_assoc.
  - apply (contains_intro (to_string a +:+ "-") "undefined" ".pom").
    now rewrite !append_assoc.
  - unfold urlOf.
    apply (contains_intro
             (MAVEN_CENTRAL_URL +:+ "/" +:+ JsString.replaceAll "." "/" g
              +:+ "/" +:+ to_string a +:+ "/")
             "undefined" ("/" +:+ to_string a +:+ "-undefined.jar")).
    now rewrite !append_assoc.
  - unfold urlOf.
    apply (contains_intro
             (MAVEN_CENTRAL_URL +:+ "/" +:+ JsString.replaceAll "." "/" g
              +:+ "/" +:+ to_string a +:+ "/")
             "undefined" ("/" +:+ to_string a +:+ "-undefined.pom")).
    now rewrite !append_assoc.
  - intros w Hg Ha Hfresh. unfold prepare.
    assert (Hv : truthy (JStr v) = true).
    { destruct v; [discriminate Hrange | reflexivity]. }
    cbn [groupId artifactId version d].
    change (truthy (JStr g) = true) in Hg.
    rewrite Hg, Ha, Hv. cbn [negb orb].
    rewrite bool_decide_eq_false_2 by exact Hfresh.
    now rewrite Hl.
Qed.

Lemma effective_version_undefined_witness :
  JsString.includes "(1.0,2.0)" "[" || JsString.includes "(1.0,2.0)" "(" = true
  /\ recognised "(1.0,2.0)" = false
  /\ exists t,
       layout Sample.join "./repository"
         (Dependency (JStr "org.x") (JStr "artifact") (JStr "(1.0,2.0)")) = Ok t
       /\ jarName t = "artifact-undefined.jar"
       /\ artifactPath t = "org/x/artifact/undefined".
Proof.
  split; [reflexivity |]. split; [reflexivity |].
  destruct (effective_version_undefined Sample.join "./repository" "org.x"
              (JStr "artifact") "(1.0,2.0)" eq_refl eq_refl)
    as (t & Hl & _ & Hp & Hj & _).
  exists t. split; [exact Hl |]. split; [exact Hj | exact Hp].
Defined.

(** ** Descriptors *)

Lemma get_opt_prop (v : jsval) (k : string) : get_opt v k = prop v k.
Proof. now destruct v. Qed.

Lemma plainName_spec (k : string) :
  plainName k = true ->
  String.eqb k "length" = false
  /\ objectMember k = JUndefined
  /\ (forall constructor prototype,
        member constructor arrayMethods prototype k = JUndefined
        /\ member constructor stringMethods prototype k = JUndefined
        /\ member constructor numberMethods prototype k = JUndefined).
Proof.
  unfold plainName. intros H. apply negb_true_iff in H.
  repeat (apply orb_false_iff in H as [H ?]).
  assert (Ho : objectMember k = JUndefined).
  { unfold objectMember.
    repeat match goal with E : _ = false |- _ => rewrite E; clear E end.
    reflexivity. }
  split; [assumption |]. split; [exact Ho |].
  intros constructor prototype. unfold member. rewrite Ho.
  repeat match goal with E : _ = false |- _ => rewrite E; clear E end.
  auto.
Qed.

Lemma prop_falsy (v : jsval) (k : string) :
  plainName k = true -> truthy v = false -> prop v k = JUndefined.
Proof.
  intros Hk. destruct (plainName_spec k Hk) as (Hl & Ho & Hm).
  destruct v as [| |s| | |n|]; try discriminate; try reflexivity.
  - destruct s; [| discriminate]. intros _. simpl. rewrite Hl.
    destruct (JsString.index_of_name k) as [[|i]|]; try reflexivity.
    apply Hm.
  - intros _. simpl.
    destruct (JsString.index_of_name k); [reflexivity | apply Hm].
Qed.

Lemma element_cons (k : string) (children : jsval)
    (fields : list (string * jsval)) :
  element (JObj ((k, children) :: fields)) =
  (String.eqb k "$" || String.eqb k "_" ||
   match children with
   | JArr (first :: rest) => element first && forallb element rest
   | _ => false
   end) && element (JObj fields).
Proof. reflexivity. Qed.

(** A child of an element is a non-empty array of elements. *)
Lemma element_child (fields : list (string * jsval)) (k : string) (v : jsval) :
  element (JObj fields) = true ->
  assoc fields k = Some v ->
  String.eqb k "$" = false -> String.eqb k "_" = false ->
  exists first rest, v = JArr (first :: rest) /\ element first = true.
Proof.
  intros He Ha H1 H2. induction fields as [|[k' c] fields IH]; [discriminate |].
  rewrite element_cons in He. apply andb_true_iff in He as [Hc Hrest].
  simpl in Ha. destruct (String.eqb k' k) eqn:Ek.
  - apply String.eqb_eq in Ek as ->. injection Ha as ->.
    rewrite H1, H2 in Hc. simpl in Hc.
    destruct v as [| | |[|first rest]| | |]; try discriminate.
    apply andb_true_iff in Hc as [Hf _]. now exists first, rest.
  - now apply IH.
Qed.

Lemma element_defined (v : jsval) :
  element v = true -> v <> JUndefined /\ v <> JNull.
Proof. now destruct v. Qed.

(** On an object the callback of [forEach] returns: it pushes the entry of
    a complete declaration and skips any other. *)
Lemma collect_object (fields : list (string * jsval)) :
  collect (JObj fields) =
  Ok (if complete (JObj fields) then Some (entry (JObj fields)) else None).
Proof.
  unfold collect, complete, entry.
  set (d := JObj fields).
  rewrite !(get_truthy d) by reflexivity. cbn [Js.bind].
  destruct (truthy (prop d "groupId")) eqn:Hg; cbn [negb andb];
    [| reflexivity].
  destruct (truthy (prop d "artifactId")) eqn:Ha; cbn [negb andb];
    [| reflexivity].
  destruct (truthy (prop d "version")) eqn:Hv; cbn [negb andb];
    [| reflexivity].
  rewrite (get_truthy _ _ Hv). cbn [Js.bind].
  destruct (truthy (prop (prop d "version") "0")) eqn:H0; cbn [negb];
    [| reflexivity].
  now rewrite (get_truthy _ _ Hg), (get_truthy _ _ Ha).
Qed.

Lemma mapM_collect (items : list jsval) :
  Forall is_object items ->
  mapM collect items =
  Ok (map (fun d => if complete d then Some (entry d) else None) items).
Proof.
  induction 1 as [|d items [fields ->] _ IH]; simpl; [reflexivity |].
  now rewrite collect_object, IH.
Qed.

Lemma omap_complete (items : list jsval) :
  omap id (map (fun d => if complete d then Some (entry d) else None) items)
  = map entry (filter (fun d => complete d = true) items).
Proof.
  induction items as [|d items IH]; [reflexivity |].
  rewrite filter_cons. destruct (complete d) eqn:E.
  - rewrite decide_True by reflexivity. simpl. rewrite E. simpl.
    f_equal. exact IH.
  - rewrite decide_False by congruence. simpl. rewrite E. exact IH.
Qed.

Lemma resolveDeclaration_object (properties dep resolved : jsval) :
  resolveDeclaration properties dep = Ok resolved -> is_object resolved.
Proof.
  unfold resolveDeclaration. intros H.
  destruct (get dep "version") as [declared|]; simpl in H; [| discriminate].
  destruct (if truthy declared then _ else _) as [r|]; simpl in H;
    [| discriminate].
  injection H as <-. now eexists.
Qed.

Lemma mapM_Forall {A B} (f : A -> result B) (P : B -> Prop)
    (l : list A) (rs : list B) :
  (forall x r, f x = Ok r -> P r) -> mapM f l = Ok rs -> Forall P rs.
Proof.
  intros Hf. revert rs; induction l as [|x l IH]; intros rs H; simpl in H.
  - injection H as <-. constructor.
  - destruct (f x) as [r|] eqn:Ex; simpl in H; [| discriminate].
    destruct (mapM f l) as [rs'|]; simpl in H; [| discriminate].
    injection H as <-. constructor; eauto.
Qed.

(** [getDependencies] in terms of [declarations], for a descriptor in
    which the first entry of [dependencies] is defined and [dependency],
    when truthy, is an array of objects. *)
Lemma getDependencies_declarations (pomObj : jsval) :
  let dependencies := prop (prop pomObj "project") "dependencies" in
  let declared := prop (prop dependencies "0") "dependency" in
  (truthy dependencies = true ->
   prop dependencies "0" <> JUndefined /\ prop dependencies "0" <> JNull) ->
  (truthy declared = true ->
   exists items, declared = JArr items /\ Forall is_object items) ->
  getDependencies pomObj =
  Ok (map entry (filter (fun d => complete d = true) (declarations pomObj))).
Proof.
  intros dependencies declared Hfirst Hdeclared.
  unfold declarations. rewrite !get_opt_prop.
  fold dependencies. fold declared.
  unfold getDependencies.
  destruct (truthy pomObj) eqn:Hpom; cbn [negb].
  2:{ subst declared dependencies.
      now rewrite (prop_falsy pomObj) by (reflexivity || assumption). }
  rewrite (get_truthy _ _ Hpom). cbn [Js.bind].
  destruct (truthy (prop pomObj "project")) eqn:Hproject; cbn [negb].
  2:{ subst declared dependencies.
      now rewrite (prop_falsy (prop pomObj "project"))
        by (reflexivity || assumption). }
  rewrite (get_truthy _ _ Hproject). cbn [Js.bind]. fold dependencies.
  destruct (truthy dependencies) eqn:Hdeps; cbn [negb].
  2:{ subst declared.
      now rewrite (prop_falsy dependencies) by (reflexivity || assumption). }
  rewrite (get_truthy _ _ Hdeps). cbn [Js.bind].
  destruct (Hfirst eq_refl) as [Hu Hn].
  assert (Hget : get (prop dependencies "0") "dependency" = Ok declared).
  { subst declared. now destruct (prop dependencies "0"). }
  rewrite Hget. cbn [Js.bind].
  destruct (truthy declared) eqn:Htruthy; cbn [negb].
  2:{ now destruct declared. }
  destruct (Hdeclared eq_refl) as (items & -> & Hitems).
  rewrite (mapM_collect _ Hitems). cbn [Js.bind]. now rewrite omap_complete.
Qed.

Lemma prop_string_name (s k : string) :
  JsString.index_of_name k = None -> plainName k = true ->
  prop (JStr s) k = JUndefined.
Proof.
  intros H Hk. destruct (plainName_spec k Hk) as (Hl & _ & Hm).
  simpl. rewrite H, Hl. apply Hm.
Qed.

Lemma prop_object (fields : list (string * jsval)) (k : string) :
  plainName k = true ->
  prop (JObj fields) k = default JUndefined (assoc fields k).
Proof.
  intros Hk. destruct (plainName_spec k Hk) as (_ & Ho & _).
  simpl. now rewrite Ho.
Qed.

Lemma prop_root (root : string) (e : jsval) (k : string) :
  plainName k = true ->
  prop (JObj [(root, e)]) k = if String.eqb root k then e else JUndefined.
Proof.
  intros Hk. rewrite prop_object by assumption. simpl.
  now destruct (String.eqb root k).
Qed.

Lemma prop_first (first : jsval) (rest : list jsval) :
  prop (JArr (first :: rest)) "0" = first.
Proof. reflexivity. Qed.

Lemma update_object (fields : list (string * jsval)) (k : string)
    (f : jsval -> jsval) :
  update (JObj fields) k f = JObj (assign fields k (f (prop (JObj fields) k))).
Proof. reflexivity. Qed.

Lemma update_first (first : jsval) (rest : list jsval) (f : jsval -> jsval) :
  update (JArr (first :: rest)) "0" f = JArr (f first :: rest).
Proof. reflexivity. Qed.

Lemma prop_assign (fields : list (string * jsval)) (k : string) (v : jsval) :
  prop (JObj (assign fields k v)) k = v.
Proof. simpl. now rewrite assoc_assign. Qed.

(** Where the declarations of a reader result are, when its
    [dependencies] is truthy. *)
Lemma document_dependencies (root : string) (e : jsval) :
  element e = true ->
  truthy (prop (prop (JObj [(root, e)]) "project") "dependencies") = true ->
  exists fields first rest,
    String.eqb root "project" = true /\ e = JObj fields
    /\ prop (JObj fields) "dependencies" = JArr (first :: rest)
    /\ element first = true.
Proof.
  intros He Hd. rewrite prop_root in Hd by reflexivity.
  destruct (String.eqb root "project") eqn:Er; [| discriminate Hd].
  cbv iota in Hd.
  destruct e as [| |s| |fields| |]; try discriminate.
  rewrite prop_object in Hd by reflexivity.
  destruct (assoc fields "dependencies") as [v|] eqn:Ea; [| discriminate].
  destruct (element_child _ _ _ He Ea eq_refl eq_refl)
    as (first & rest & -> & Hf).
  exists fields, first, rest. rewrite prop_object, Ea by reflexivity. auto.
Qed.

(** The descriptor a successful [parsePomXml] resolves to meets the
    conditions of [getDependencies_declarations]. *)
Lemma resolveDescriptor_shape (result pomObj : jsval) :
  document result = true ->
  resolveDescriptor result = Ok pomObj ->
  let dependencies := prop (prop pomObj "project") "dependencies" in
  let declared := prop (prop dependencies "0") "dependency" in
  (truthy dependencies = true ->
   prop dependencies "0" <> JUndefined /\ prop dependencies "0" <> JNull)
  /\ (truthy declared = true ->
      exists items, declared = JArr items /\ Forall is_object items).
Proof.
  intros Hdoc Hres.
  destruct result as [| | | |[|[root e] [|]]| |]; try discriminate.
  change (element e = true) in Hdoc. unfold resolveDescriptor in Hres.
  cbn [truthy negb] in Hres. rewrite !get_opt_prop in Hres.
  pose proof (document_dependencies root e Hdoc) as Hraw.
  set (deps := prop (prop (JObj [(root, e)]) "project") "dependencies") in *.
  set (raw := prop (prop deps "0") "dependency") in *.
  destruct (truthy raw) eqn:Htr.
  - (* declarations present: they are resolved and written back *)
    assert (Hd : truthy deps = true).
    { destruct (truthy deps) eqn:E; [reflexivity |].
      subst raw.
      rewrite (prop_falsy deps) in Htr by (reflexivity || assumption).
      discriminate. }
    destruct (Hraw Hd) as (fields & first & rest & Er & -> & Ea & Hf).
    assert (Edeps : deps = JArr (first :: rest)).
    { subst deps. now rewrite prop_root, Er by reflexivity. }
    assert (Efirst : prop deps "0" = first) by now rewrite Edeps.
    destruct first as [| |s| |inner| |]; try discriminate.
    { subst raw. rewrite Efirst, prop_string_name in Htr by reflexivity.
      discriminate. }
    destruct raw as [| | |items| | |] eqn:Eraw; try discriminate.
    destruct (mapM _ items) as [resolved|] eqn:Em; [| discriminate].
    cbn [Js.bind] in Hres. injection Hres as <-.
    assert (Hobjects : Forall is_object resolved).
    { eapply mapM_Forall; [| exact Em].
      intros x r. apply resolveDeclaration_object. }
    rewrite !Er. cbn [default].
    rewrite (update_object fields), Ea, update_first, update_object.
    cbv zeta.
    rewrite (prop_root root _ "project"), Er, prop_assign, prop_first,
      prop_assign by reflexivity.
    split.
    + intros _. split; discriminate.
    + intros _. now exists resolved.
  - (* no declarations: the result is returned as it is *)
    injection Hres as <-. fold deps. cbv zeta.
    split; [| intros H; change (truthy raw = true) in H; congruence].
    intros Hd. destruct (Hraw Hd) as (fields & first & rest & Er & -> & Ea & Hf).
    assert (Edeps : deps = JArr (first :: rest)).
    { subst deps. now rewrite prop_root, Er by reflexivity. }
    rewrite Edeps, prop_first. now apply element_defined.
Qed.

(** C9. For every descriptor that [parsePomXml] resolves to,
    [getDependencies] returns (it does not throw) exactly the entries of
    the complete declarations: a declaration without [groupId], without
    [artifactId], without [version], or whose version resolved to [null],
    is not among them, and every returned entry comes from a declaration
    that has its three fields. *)
Theorem getDependencies_complete_only (result pomObj : jsval) :
  document result = true ->
  resolveDescriptor result = Ok pomObj ->
  let kept := filter (fun d => complete d = true) (declarations pomObj) in
  getDependencies pomObj = Ok (map entry kept)
  /\ (forall d,
        prop d "groupId" = JUndefined \/ prop d "artifactId" = JUndefined
        \/ prop d "version" = JArr [] \/ prop d "version" = JArr [JNull] ->
        d ∉ kept)
  /\ (forall dep,
        dep ∈ map entry kept ->
        exists d,
          d ∈ declarations pomObj /\ dep = entry d
          /\ prop d "groupId" <> JUndefined
          /\ prop d "artifactId" <> JUndefined
          /\ prop d "version" <> JUndefined
          /\ truthy (version dep) = true).
Proof.
  intros Hdoc Hres kept.
  destruct (resolveDescriptor_shape _ _ Hdoc Hres) as [Hfirst Hdeclared].
  split; [now apply getDependencies_declarations |].
  split.
  - intros d Hmissing [Hc _]%list_elem_of_filter.
    unfold complete in Hc.
    destruct Hmissing as [E|[E|[E|E]]]; rewrite E in Hc; simpl in Hc;
      rewrite ?andb_false_r in Hc; discriminate.
  - intros dep (d & -> & [Hc Hin]%list_elem_of_filter)%list_elem_of_fmap.
    exists d. split; [exact Hin |]. split; [reflexivity |].
    unfold complete in Hc.
    apply andb_true_iff in Hc as [Hc H0].
    apply andb_true_iff in Hc as [Hc Hv].
    apply andb_true_iff in Hc as [Hg Ha].
    repeat split; try (intros E; rewrite E in *; discriminate).
    exact H0.
Qed.

Lemma getDependencies_complete_only_witness :
  document Sample.described = true
  /\ exists pomObj,
       resolveDescriptor Sample.described = Ok pomObj
       /\ getDependencies pomObj =
          Ok [Dependency (JStr "g") (JStr "a") (JStr "1.2.3")].
Proof.
  split; [reflexivity |].
  eexists. split; [reflexivity |].
  destruct (getDependencies_complete_only Sample.described _ eq_refl eq_refl)
    as [-> _].
  reflexivity.
Defined.

(** ** File download *)

Section DownloadFacts.

Variable https_get : string -> requestOptions -> reply.

Lemma unlink_absent (dest : string) (disk : gmap string string) :
  unlink dest disk !! dest = None.
Proof. apply lookup_delete_eq. Qed.

(** The common part of the two callbacks deletes the destination
    whenever it rejects. *)
Lemma handleResponse_cleanup (closed complete : bool) (dest : string)
    (statusCode : Z) (body : string) (disk : gmap string string) :
  let '(state, disk', _) :=
    handleResponse closed complete dest statusCode body disk in
  forall e, state = Rejected e -> disk' !! dest = None.
Proof.
  unfold handleResponse.
  destruct (statusCode =? 404)%Z; [intros e _; apply unlink_absent |].
  destruct (statusCode =? 200)%Z; simpl; [| intros e _; apply unlink_absent].
  destruct closed; [discriminate |]. destruct complete; discriminate.
Qed.

Lemma handleResponse_rejects (closed complete : bool) (dest : string)
    (statusCode : Z) (body : string) (disk : gmap string string) :
  statusCode <> 200%Z ->
  handleResponse closed complete dest statusCode body disk =
  (Rejected (if (statusCode =? 404)%Z then FileNotFound
             else HttpStatus statusCode),
   unlink dest disk, [IoClose dest; IoUnlink dest]).
Proof.
  intros H. unfold handleResponse.
  destruct (statusCode =? 404)%Z; [reflexivity |].
  apply Z.eqb_neq in H. now rewrite H.
Qed.

Lemma followRedirect_rejected (redirectUrl dest : string)
    (disk : gmap string string) (sofar : list io) (e : fetchError) :
  outcome (followRedirect https_get redirectUrl dest disk sofar) = Rejected e ->
  disk_after (followRedirect https_get redirectUrl dest disk sofar) !! dest
  = None.
Proof.
  unfold followRedirect.
  destruct (https_get redirectUrl _) as [c l b|cause|c l b|].
  - pose proof (handleResponse_cleanup true true dest c b disk) as H.
    destruct (handleResponse true true dest c b disk) as [[? ?] ?].
    simpl. apply H.
  - intros _. apply unlink_absent.
  - pose proof (handleResponse_cleanup true false dest c b disk) as H.
    destruct (handleResponse true false dest c b disk) as [[? ?] ?].
    simpl. apply H.
  - discriminate.
Qed.

Lemma firstResponse_rejected (complete : bool) (statusCode : Z)
    (redirectUrl body dest : string) (disk : gmap string string)
    (opened : list io) (e : fetchError) :
  outcome (firstResponse https_get complete statusCode redirectUrl body dest
             disk opened) = Rejected e ->
  disk_after (firstResponse https_get complete statusCode redirectUrl body
                dest disk opened) !! dest = None.
Proof.
  unfold firstResponse.
  destruct ((statusCode =? 302)%Z || (statusCode =? 301)%Z).
  - apply followRedirect_rejected.
  - pose proof (handleResponse_cleanup false complete dest statusCode body
                  disk) as H.
    destruct (handleResponse false complete dest statusCode body disk)
      as [[? ?] ?].
    simpl. apply H.
Qed.

(** Whenever the promise is rejected, the destination is absent. *)
Lemma downloadFile_rejected_absent (url dest : string)
    (disk : gmap string string) (e : fetchError) :
  outcome (downloadFile https_get url dest disk) = Rejected e ->
  disk_after (downloadFile https_get url dest disk) !! dest = None.
Proof.
  unfold downloadFile.
  destruct (https_get url _) as [c l b|cause|c l b|].
  - apply firstResponse_rejected.
  - intros _. apply unlink_absent.
  - apply firstResponse_rejected.
  - discriminate.
Qed.

(** After a 301 or a 302 the file of the first request is closed and
    deleted before the second request is made. *)
Lemma downloadFile_redirect_trace (url dest : string)
    (disk : gmap string string) (complete : bool) (statusCode : Z)
    (location body : string) :
  let options := buildOptions PROXY_CONFIG in
  arrival (https_get url options) = Some (statusCode, location, body, complete) ->
  statusCode = 301%Z \/ statusCode = 302%Z ->
  exists after,
    trace (downloadFile https_get url dest disk) =
    [IoCreateWriteStream dest; IoGet url options; IoClose dest;
     IoUnlink dest; IoGet location options] ++ after
    /\ forall u o, IoGet u o ∉ after.
Proof.
  intros options Hr Hredirect.
  assert (Hs : (statusCode =? 302)%Z || (statusCode =? 301)%Z = true).
  { destruct Hredirect as [-> | ->]; reflexivity. }
  assert (Hnone : forall steps : list io,
            steps = [] \/ steps = [IoUnlink dest]
            \/ steps = [IoClose dest; IoUnlink dest]
            \/ steps = [IoPipe dest] ->
            forall u o, IoGet u o ∉ steps).
  { intros steps Hsteps u o Hin.
    destruct Hsteps as [-> | [-> | [-> | ->]]];
      repeat (apply elem_of_cons in Hin as [Hin|Hin]; [discriminate Hin |]);
      now apply elem_of_nil in Hin. }
  assert (Hsecond : forall closed complete' c b d0,
            (handleResponse closed complete' dest c b d0).2
              = [IoClose dest; IoUnlink dest]
            \/ closed = true
               /\ (handleResponse closed complete' dest c b d0).2
                  = [IoPipe dest]
            \/ closed = false).
  { intros closed complete' c b d0. unfold handleResponse.
    destruct (c =? 404)%Z; [now left |].
    destruct (c =? 200)%Z; simpl; [| now left].
    destruct closed; [right; left; now split | now right; right]. }
  assert (Hfollow : exists after,
            trace (followRedirect https_get location dest
                     (unlink dest (createWriteStream dest disk))
                     ([IoCreateWriteStream dest; IoGet url options]
                      ++ [IoClose dest; IoUnlink dest])) =
            [IoCreateWriteStream dest; IoGet url options; IoClose dest;
             IoUnlink dest; IoGet location options] ++ after
            /\ forall u o, IoGet u o ∉ after).
  { unfold followRedirect. fold options.
    destruct (https_get location options) as [c l b|cause|c l b|].
    - destruct (Hsecond true true c b
                  (unlink dest (createWriteStream dest disk)))
        as [E | [[_ E] | E]]; [| | discriminate E];
        destruct (handleResponse true true dest c b _) as [[? ?] steps];
        simpl in E; subst steps; simpl;
        eexists; (split; [reflexivity | apply Hnone; auto]).
    - eexists. split; [reflexivity | apply Hnone; auto].
    - destruct (Hsecond true false c b
                  (unlink dest (createWriteStream dest disk)))
        as [E | [[_ E] | E]]; [| | discriminate E];
        destruct (handleResponse true false dest c b _) as [[? ?] steps];
        simpl in E; subst steps; simpl;
        eexists; (split; [reflexivity | apply Hnone; auto]).
    - exists []. split; [reflexivity | apply Hnone; auto]. }
  unfold downloadFile. fold options.
  destruct (https_get url options) as [c l b|cause|c l b|];
    try discriminate Hr; injection Hr as -> -> -> <-;
    unfold firstResponse; rewrite Hs; exact Hfollow.
Qed.

(** C2. The destination is cleaned up on the ways out that have a
    handler: whenever the promise of [downloadFile] is rejected the
    destination is absent (after a 404, after any other status that is
    not 200, after a request error), and on a redirect the file opened
    for the first request is deleted before the second request is made.
    It is not where the promise is never settled: a request that is never answered leaves the empty file that
    [createWriteStream] made, and a 200 response whose body breaks off
    leaves the part that was received. *)
Theorem downloadFile_cleanup_incomplete (url dest : string)
    (disk : gmap string string) :
  let options := buildOptions PROXY_CONFIG in
  let d := downloadFile https_get url dest disk in
  (forall e, outcome d = Rejected e -> disk_after d !! dest = None)
  /\ (forall location body,
        https_get url options = Response 404 location body ->
        outcome d = Rejected FileNotFound /\ disk_after d !! dest = None)
  /\ (forall statusCode location body,
        https_get url options = Response statusCode location body ->
        statusCode <> 200%Z -> statusCode <> 301%Z ->
        statusCode <> 302%Z -> statusCode <> 404%Z ->
        outcome d = Rejected (HttpStatus statusCode)
        /\ disk_after d !! dest = None)
  /\ (forall cause,
        https_get url options = RequestError cause ->
        outcome d = Rejected (Transport cause)
        /\ disk_after d !! dest = None)
  /\ (forall statusCode location body,
        https_get url options = Response statusCode location body ->
        statusCode = 301%Z \/ statusCode = 302%Z ->
        exists after,
          trace d =
          [IoCreateWriteStream dest; IoGet url options; IoClose dest;
           IoUnlink dest; IoGet location options] ++ after)
  /\ (https_get url options = NoAnswer ->
      outcome d = Pending /\ disk_after d !! dest = Some "")
  /\ (forall location received,
        https_get url options = Truncated 200 location received ->
        outcome d = Pending /\ disk_after d !! dest = Some received).
Proof.
  intros options d.
  pose proof (downloadFile_rejected_absent url dest disk) as Habsent.
  fold d in Habsent.
  split; [exact Habsent |].
  assert (Hrej : forall e, outcome d = Rejected e ->
                 outcome d = Rejected e /\ disk_after d !! dest = None).
  { intros e He. split; [exact He |]. now apply (Habsent e). }
  split; [| split; [| split; [| split; [| split]]]].
  - intros location body Hr. apply Hrej.
    subst d. unfold downloadFile. fold options. now rewrite Hr.
  - intros statusCode location body Hr H200 H301 H302 H404. apply Hrej.
    subst d. unfold downloadFile, firstResponse. fold options. rewrite Hr.
    apply Z.eqb_neq in H301, H302, H404.
    rewrite H301, H302. cbn [orb].
    rewrite handleResponse_rejects by assumption. now rewrite H404.
  - intros cause Hr. apply Hrej.
    subst d. unfold downloadFile. fold options. now rewrite Hr.
  - intros statusCode location body Hr Hredirect.
    destruct (downloadFile_redirect_trace url dest disk true statusCode
                location body) as (after & Ht & _);
      [fold options; now rewrite Hr | assumption |].
    now exists after.
  - intros Hr. subst d. unfold downloadFile. fold options. rewrite Hr.
    split; [reflexivity | apply lookup_insert_eq].
  - intros location received Hr.
    subst d. unfold downloadFile, firstResponse. fold options. rewrite Hr.
    simpl. split; [reflexivity | apply lookup_insert_eq].
Qed.

(** C5. The options of every request carry the literal [timeout] of
    10000 ms, and nothing listens for it: when no answer comes, the
    promise of [downloadFile] is not rejected, with a transport error or
    otherwise; it stays pending after the two steps made before the
    wait, and the file that was created stays.  The same holds for the
    second request of a redirect. *)
Theorem downloadFile_unanswered (url dest : string)
    (disk : gmap string string) :
  let options := buildOptions PROXY_CONFIG in
  let d := downloadFile https_get url dest disk in
  timeout options = 10000%Z
  /\ (https_get url options = NoAnswer ->
      outcome d = Pending
      /\ (forall e, outcome d <> Rejected e)
      /\ trace d = [IoCreateWriteStream dest; IoGet url options]
      /\ disk_after d !! dest = Some "")
  /\ (forall statusCode location body complete,
        arrival (https_get url options)
          = Some (statusCode, location, body, complete) ->
        statusCode = 301%Z \/ statusCode = 302%Z ->
        https_get location options = NoAnswer ->
        outcome d = Pending /\ forall e, outcome d <> Rejected e).
Proof.
  intros options d. split; [reflexivity |]. split.
  - intros Hr. subst d. unfold downloadFile. fold options. rewrite Hr.
    simpl. repeat split; try discriminate. apply lookup_insert_eq.
  - intros statusCode location body complete Hr Hredirect Hr'.
    assert (Hs : (statusCode =? 302)%Z || (statusCode =? 301)%Z = true).
    { destruct Hredirect as [-> | ->]; reflexivity. }
    assert (Ho : outcome d = Pending).
    { subst d. unfold downloadFile. fold options.
      destruct (https_get url options) as [c l b|cause|c l b|];
        try discriminate Hr; injection Hr as -> -> -> <-;
        unfold firstResponse, followRedirect; fold options;
        now rewrite Hs, Hr'. }
    split; [exact Ho |]. intros e. now rewrite Ho.
Qed.

(** A redirect answered by a 200: the body is piped into the stream that
    was closed on the redirect, so nothing is written and the promise
    stays pending. *)
Lemma downloadFile_redirect_then_ok (url dest : string)
    (disk : gmap string string) (statusCode : Z)
    (location body location' body' : string) :
  let options := buildOptions PROXY_CONFIG in
  https_get url options = Response statusCode location body ->
  statusCode = 301%Z \/ statusCode = 302%Z ->
  https_get location options = Response 200 location' body' ->
  outcome (downloadFile https_get url dest disk) = Pending
  /\ disk_after (downloadFile https_get url dest disk) !! dest = None.
Proof.
  intros options Hr Hredirect Hr'.
  assert (Hs : (statusCode =? 302)%Z || (statusCode =? 301)%Z = true).
  { destruct Hredirect as [-> | ->]; reflexivity. }
  unfold downloadFile, firstResponse, followRedirect. fold options.
  rewrite Hr, Hs, Hr'. simpl.
  split; [reflexivity | apply unlink_absent].
Qed.


End DownloadFacts.

Lemma downloadFile_cleanup_incomplete_witness :
  let get := fun (_ : string) (_ : requestOptions) => NoAnswer in
  let d := downloadFile get "https://repo1.maven.org/maven2/g/a/1/a-1.jar"
             "./repository/g/a/1/a-1.jar" ∅ in
  outcome d = Pending
  /\ disk_after d !! "./repository/g/a/1/a-1.jar" = Some "".
Proof.
  intros get d.
  destruct (downloadFile_cleanup_incomplete get
              "https://repo1.maven.org/maven2/g/a/1/a-1.jar"
              "./repository/g/a/1/a-1.jar" ∅)
    as (_ & _ & _ & _ & _ & Hunanswered & _).
  exact (Hunanswered eq_refl).
Defined.

Lemma downloadFile_unanswered_witness :
  let get := fun (_ : string) (_ : requestOptions) => NoAnswer in
  let d := downloadFile get "https://repo1.maven.org/maven2/g/a/1/a-1.pom"
             "./repository/g/a/1/a-1.pom" ∅ in
  outcome d = Pending
  /\ (forall e, outcome d <> Rejected e)
  /\ trace d =
     [IoCreateWriteStream "./repository/g/a/1/a-1.pom";
      IoGet "https://repo1.maven.org/maven2/g/a/1/a-1.pom"
        (buildOptions PROXY_CONFIG)]
  /\ disk_after d !! "./repository/g/a/1/a-1.pom" = Some "".
Proof.
  intros get d.
  destruct (downloadFile_unanswered get
              "https://repo1.maven.org/maven2/g/a/1/a-1.pom"
              "./repository/g/a/1/a-1.pom" ∅) as (_ & Hunanswered & _).
  exact (Hunanswered eq_refl).
Defined.


(** ** The record of a walk *)

Lemma marks_app (a b : list event) : marks (a ++ b) = marks a ++ marks b.
Proof. apply omap_app. Qed.

Lemma fetches_app (file : artifactFile) (a b : list event) :
  fetches file (a ++ b) = fetches file a ++ fetches file b.
Proof. apply omap_app. Qed.

Lemma startKeys_app (a b : list prepared) :
  startKeys (a ++ b) = startKeys a ++ startKeys b.
Proof. apply omap_app. Qed.

Lemma occurrences_app (k : string) (a b : list string) :
  occurrences k (a ++ b) = occurrences k a + occurrences k b.
Proof. induction a as [|x a IH]; simpl; [reflexivity | rewrite IH; lia]. Qed.

Lemma occurrences_absent (k : string) (l : list string) :
  k ∉ l -> occurrences k l = 0.
Proof.
  induction l as [|x l IH]; [reflexivity |].
  intros Hn. apply not_elem_of_cons in Hn as [Hne Hn]. simpl.
  rewrite IH by assumption.
  destruct (String.eqb_spec x k); [congruence | reflexivity].
Qed.

Lemma occurrences_NoDup (k : string) (l : list string) :
  NoDup l -> occurrences k l <= 1.
Proof.
  induction 1 as [|x l Hx _ IH]; simpl; [lia |].
  destruct (String.eqb_spec x k) as [->|]; [| lia].
  rewrite occurrences_absent by assumption. lia.
Qed.

Lemma elem_of_marks (k : string) (evs : list event) :
  k ∈ marks evs <-> Marked k ∈ evs.
Proof.
  unfold marks. rewrite list_elem_of_omap. split.
  - intros (e & He & Hk). destruct e; [| discriminate].
    injection Hk as ->. exact He.
  - intros H. now exists (Marked k).
Qed.

Lemma ordered_nil : ordered [].
Proof. intros i k file url dest H. now rewrite lookup_nil in H. Qed.

Lemma ordered_app_marked (evs : list event) (k : string) :
  ordered evs -> ordered (evs ++ [Marked k]).
Proof.
  intros Ho i k' file url dest Hi.
  destruct (decide (i < length evs)) as [Hlt|Hge].
  - rewrite lookup_app_l in Hi by assumption.
    destruct (Ho _ _ _ _ _ Hi) as (j & Hj & Hm).
    exists j. split; [exact Hj |]. rewrite lookup_app_l by lia. exact Hm.
  - rewrite lookup_app_r in Hi by lia.
    destruct (i - length evs) as [|[|n]]; discriminate.
Qed.

(** Calls of [downloadFile] for a key already marked can be appended. *)
Lemma ordered_app_fetches (evs new : list event) (key : string) :
  ordered evs -> Marked key ∈ evs ->
  Forall (fun e => exists file url dest, e = Fetch key file url dest) new ->
  ordered (evs ++ new).
Proof.
  intros Ho Hm Hnew i k file url dest Hi.
  destruct (decide (i < length evs)) as [Hlt|Hge].
  - rewrite lookup_app_l in Hi by assumption.
    destruct (Ho _ _ _ _ _ Hi) as (j & Hj & Hmj).
    exists j. split; [exact Hj |]. rewrite lookup_app_l by lia. exact Hmj.
  - rewrite lookup_app_r in Hi by lia.
    apply list_elem_of_lookup_2 in Hi.
    rewrite Forall_forall in Hnew.
    destruct (Hnew _ Hi) as (file' & url' & dest' & E).
    injection E as -> _ _ _.
    apply list_elem_of_lookup_1 in Hm as [j Hj].
    exists j. split.
    + apply lookup_lt_Some in Hj. lia.
    + rewrite lookup_app_l by (now apply lookup_lt_Some in Hj). exact Hj.
Qed.

Lemma step_refl (w : world) : step [] w w.
Proof.
  split; [reflexivity |].
  split; [exists []; now rewrite app_nil_r |].
  split; [auto |]. split; [auto |].
  intros file k. lia.
Qed.

Lemma step_trans (o1 o2 : list string) (w w1 w2 : world) :
  step o1 w w1 -> step o2 w1 w2 -> step (o1 ++ o2) w w2.
Proof.
  intros (Hv1 & [n1 He1] & Hf1 & Ho1 & Hc1) (Hv2 & [n2 He2] & Hf2 & Ho2 & Hc2).
  split; [set_solver |].
  split; [exists (n1 ++ n2); now rewrite He2, He1, app_assoc |].
  split; [auto |].
  split.
  - intros Ho Hk. apply Ho2.
    + apply Ho1; [exact Ho |]. intros k Hin. apply Hk, elem_of_app. now left.
    + intros k Hin. rewrite He1. apply elem_of_app. left.
      apply Hk, elem_of_app. now right.
  - intros file k. specialize (Hc1 file k). specialize (Hc2 file k).
    rewrite occurrences_app. lia.
Qed.

Lemma step_owed (owed : list string) (w w' : world) :
  step [] w w' -> step owed w w'.
Proof.
  intros H. pose proof (step_trans _ _ _ _ _ (step_refl w) H) as H'.
  destruct H as (Hv & He & Hf & Ho & Hc).
  split; [exact Hv |]. split; [exact He |]. split; [exact Hf |].
  split.
  - intros Hord _. apply Ho; [exact Hord |]. intros k Hk.
    now apply elem_of_nil in Hk.
  - intros file k. specialize (Hc file k). simpl in Hc. lia.
Qed.

(** Adding a key that is not yet in the set. *)
Lemma mark_credit (key : string) (w : world) (p : prepared) :
  key ∉ downloadedDependencies w ->
  startKeys [p] = [] \/ startKeys [p] = [key] ->
  credit [p] w (mark key w).
Proof.
  intros Hnew Hp.
  assert (Hev : events (mark key w) = events w ++ [Marked key])
    by reflexivity.
  assert (Hmarks : marks (events (mark key w)) = marks (events w) ++ [key])
    by (rewrite Hev, marks_app; reflexivity).
  assert (Hfetches : forall file,
            fetches file (events (mark key w)) = fetches file (events w))
    by (intros file; rewrite Hev, fetches_app; apply app_nil_r).
  assert (Hvis : downloadedDependencies (mark key w)
                 = {[key]} ∪ downloadedDependencies w) by reflexivity.
  unfold credit, step, fresh. rewrite Hmarks, Hvis, Hev.
  split; [| split; [reflexivity |]; split; [exact Hfetches |]; split].
  - split; [set_solver |]. split; [now eexists |].
    split.
    + intros [Hnd Hsub]. split.
      * apply NoDup_app. split; [exact Hnd |].
        split; [| apply NoDup_singleton].
        intros k Hk Hk'. apply list_elem_of_singleton in Hk' as ->.
        apply Hnew, Hsub, Hk.
      * intros k. rewrite elem_of_app, list_elem_of_singleton, Hsub.
        set_solver.
    + split; [intros Ho _; now apply ordered_app_marked |].
      intros file k. rewrite <- Hev, Hfetches, occurrences_app. simpl. lia.
  - intros k. rewrite occurrences_app.
    destruct Hp as [E | E]; rewrite E; simpl; lia.
  - intros k Hk. apply elem_of_app. right.
    destruct Hp as [E | E]; rewrite E in Hk.
    + now apply elem_of_nil in Hk.
    + apply list_elem_of_singleton in Hk as ->. apply list_elem_of_singleton.
      reflexivity.
Qed.

Lemma credit_skip (w : world) (p : prepared) :
  startKeys [p] = [] -> credit [p] w w.
Proof.
  intros Hp. unfold credit. rewrite Hp.
  split; [apply step_refl |]. split; [reflexivity |]. split; [reflexivity |].
  split; [simpl; lia |]. intros k Hk. now apply elem_of_nil in Hk.
Qed.

Lemma credit_trans (ps1 ps2 : list prepared) (w w1 w2 : world) :
  credit ps1 w w1 -> credit ps2 w1 w2 -> credit (ps1 ++ ps2) w w2.
Proof.
  intros (Hs1 & Hd1 & Hf1 & Hm1 & Hk1) (Hs2 & Hd2 & Hf2 & Hm2 & Hk2).
  split; [exact (step_trans _ _ _ _ _ Hs1 Hs2) |].
  split; [congruence |].
  split; [intros file; now rewrite Hf2, Hf1 |].
  split.
  - intros k. specialize (Hm1 k). specialize (Hm2 k).
    rewrite startKeys_app, occurrences_app. lia.
  - intros k. rewrite startKeys_app. intros [Hk|Hk]%elem_of_app.
    + destruct Hs2 as (_ & [new ->] & _). apply elem_of_app. left. now apply Hk1.
    + now apply Hk2.
Qed.

(** ** The walk: what each part may do to the world *)

Section WalkFacts.

Variable https_get : string -> requestOptions -> reply.
Variable parseString : string -> option jsval.
Variable path_join : string -> string -> string.

Lemma layout_key (repositoryPath : string) (d : dependency) (t : task) :
  layout path_join repositoryPath d = Ok t -> dependencyKey t = keyOf d.
Proof.
  unfold layout. intros H.
  destruct (effectiveVersion (version d)); simpl in H; [| discriminate].
  destruct (groupPath (groupId d)); simpl in H; [| discriminate].
  now injection H as <-.
Qed.

Lemma prepare_credit (repositoryPath : string) (d : dependency) (w : world) :
  credit [(prepare path_join repositoryPath d w).1] w
    (prepare path_join repositoryPath d w).2.
Proof.
  unfold prepare.
  destruct (_ || _); [now apply credit_skip |].
  destruct (bool_decide _) eqn:Hv; [now apply credit_skip |].
  apply bool_decide_eq_false in Hv.
  destruct (layout path_join repositoryPath d) as [t|] eqn:Hl; simpl.
  - apply mark_credit; [exact Hv |]. right. simpl.
    now rewrite (layout_key _ _ _ Hl).
  - apply mark_credit; [exact Hv |]. now left.
Qed.

(** The two downloads of a task append at most one call for the jar
    and one for the descriptor, both for its key, and touch neither the
    set nor the marks. *)
Lemma fetchFiles_events (t : task) (w : world) :
  exists new,
    events (fetchFiles https_get t w).2 = events w ++ new
    /\ (forall file k,
          occurrences k (fetches file new)
          <= if String.eqb (dependencyKey t) k then 1 else 0)
    /\ marks new = []
    /\ Forall (fun e => exists file url dest,
                         e = Fetch (dependencyKey t) file url dest) new
    /\ downloadedDependencies (fetchFiles https_get t w).2
       = downloadedDependencies w.
Proof.
  unfold fetchFiles, fetch.
  destruct (existsSync (disk w) (localJarPath t)),
           (existsSync (disk w) (pomFilePath t)); simpl.
  - exists []. rewrite app_nil_r. repeat split; auto.
    intros file k. simpl. destruct (String.eqb _ _); lia.
  - eexists [_]. repeat split; auto.
    + intros [] k; simpl; destruct (String.eqb _ _); lia.
    + repeat constructor. eauto.
  - eexists [_]. repeat split; auto.
    + intros [] k; simpl; destruct (String.eqb _ _); lia.
    + repeat constructor. eauto.
  - eexists [_; _]. rewrite <- app_assoc. repeat split; auto.
    + intros [] k; simpl; destruct (String.eqb _ _); lia.
    + repeat constructor; eauto.
Qed.

Lemma fetchFiles_step (t : task) (w : world) :
  step [dependencyKey t] w (fetchFiles https_get t w).2.
Proof.
  destruct (fetchFiles_events t w) as (new & He & Hocc & Hmarks & Hnew & Hv).
  unfold step, fresh. rewrite He, Hv, marks_app, Hmarks, app_nil_r.
  split; [reflexivity |]. split; [now eexists |].
  split; [auto |].
  split.
  - intros Ho Hk. eapply ordered_app_fetches; [exact Ho | | exact Hnew].
    apply Hk, list_elem_of_singleton. reflexivity.
  - intros file k. rewrite fetches_app, occurrences_app.
    specialize (Hocc file k). simpl.
    destruct (String.eqb (dependencyKey t) k); lia.
Qed.

Section ChunkFacts.

Variable begin : dependency -> world -> prepared * world.
Variable finish : task -> world -> option (status * world).

Hypothesis begin_credit :
  forall d w, credit [(begin d w).1] w (begin d w).2.
Hypothesis finish_step :
  forall t w s w',
    finish t w = Some (s, w') -> step [dependencyKey t] w w'.

Lemma beginAll_credit (chunk : list dependency) (w : world) :
  credit (beginAll begin chunk w).1 w (beginAll begin chunk w).2.
Proof.
  revert w; induction chunk as [|d chunk IH]; intros w; simpl.
  - unfold credit. split; [apply step_refl |].
    repeat split; auto. simpl; lia.
    intros k Hk. now apply elem_of_nil in Hk.
  - pose proof (begin_credit d w) as Hd.
    destruct (begin d w) as [p w1]. simpl in Hd.
    pose proof (IH w1) as Hrest.
    destruct (beginAll begin chunk w1) as [ps w2]. simpl in *.
    exact (credit_trans [p] ps _ _ _ Hd Hrest).
Qed.

Lemma finishAll_step (started : list prepared) (w : world)
    (s : status) (w' : world) :
  finishAll finish started w = Some (s, w') ->
  step (startKeys started) w w'.
Proof.
  revert w s w'; induction started as [|p started IH]; intros w s w' H;
    simpl in H.
  - injection H as <- <-. apply step_refl.
  - destruct (match p with
              | Skip => Some (Completed, w)
              | Start t => finish t w
              | Fail => Some (Threw, w)
              end) as [[s1 w1]|] eqn:Hp; [| discriminate].
    destruct (finishAll finish started w1) as [[s2 w2]|] eqn:Hrest;
      [| discriminate].
    injection H as <- <-. apply IH in Hrest.
    destruct p as [|t|].
    + injection Hp as <- <-. exact Hrest.
    + apply finish_step in Hp.
      exact (step_trans [dependencyKey t] _ _ _ _ Hp Hrest).
    + injection Hp as <- <-. exact Hrest.
Qed.

(** A chunk as a whole owes nothing: what its tasks may fetch is paid
    for by the marks its first parts made. *)
Lemma walkChunk_step (chunk : list dependency) (w : world)
    (s : status) (w' : world) :
  walkChunk begin finish chunk w = Some (s, w') -> step [] w w'.
Proof.
  unfold walkChunk. intros H.
  pose proof (beginAll_credit chunk w) as Hb.
  destruct (beginAll begin chunk w) as [started w1]. simpl in Hb.
  apply finishAll_step in H.
  destruct Hb as (Hs & _ & Hf & Hm & Hk).
  pose proof (step_trans _ _ _ _ _ Hs H) as (Hv & He & Hfr & _ & _).
  split; [exact Hv |]. split; [exact He |]. split; [exact Hfr |].
  split.
  - intros Ho _.
    destruct H as (_ & _ & _ & Ho2 & _).
    destruct Hs as (_ & _ & _ & Ho1 & _).
    apply Ho2; [| exact Hk].
    apply Ho1; [exact Ho |]. intros k Hin. now apply elem_of_nil in Hin.
  - intros file k. destruct H as (_ & _ & _ & _ & Hc).
    specialize (Hc file k). specialize (Hm k). rewrite Hf in Hc. simpl.
    lia.
Qed.

Lemma walkChunks_step (cs : list (list dependency)) (w : world)
    (s : status) (w' : world) :
  walkChunks begin finish cs w = Some (s, w') -> step [] w w'.
Proof.
  revert w; induction cs as [|chunk cs IH]; intros w H; simpl in H.
  - injection H as <- <-. apply step_refl.
  - destruct (walkChunk begin finish chunk w) as [[s1 w1]|] eqn:Hc;
      [| discriminate].
    apply walkChunk_step in Hc.
    destruct s1.
    + apply IH in H. exact (step_trans [] [] _ _ _ Hc H).
    + now injection H as <- <-.
    + now injection H as <- <-.
Qed.

End ChunkFacts.

Lemma resume_step (fuel : nat) (repositoryPath : string) (t : task)
    (w : world) (s : status) (w' : world) :
  resume https_get parseString path_join fuel repositoryPath t w
    = Some (s, w') ->
  step [dependencyKey t] w w'.
Proof.
  revert t w s w'; induction fuel as [|fuel IH]; intros t w s w' H;
    [discriminate |].
  simpl in H.
  pose proof (fetchFiles_step t w) as Hfetch.
  destruct (fetchFiles https_get t w) as [st w1]. simpl in Hfetch.
  destruct st; [| now injection H as <- <- | now injection H as <- <-].
  destruct (disk w1 !! pomFilePath t) as [pomContent|];
    [| now injection H as <- <-].
  destruct (String.eqb pomContent "").
  { injection H as <- <-. exact Hfetch. }
  destruct (parsePomXml parseString pomContent) as [depPomObj|];
    [| now injection H as <- <-].
  destruct (truthy depPomObj); [| now injection H as <- <-].
  destruct (getDependencies depPomObj) as [transitiveDeps|];
    [| now injection H as <- <-].
  destruct (walkChunks _ _ _ w1) as [[s2 w2]|] eqn:Hw; [| discriminate].
  apply walkChunks_step in Hw;
    [| intros; apply prepare_credit | exact IH].
  pose proof (step_trans _ _ _ _ _ Hfetch Hw) as Hall.
  rewrite app_nil_r in Hall.
  destruct s2; now injection H as <- <-.
Qed.

Lemma main_step (fuel : nat) (w : world) (s : status) (w' : world) :
  main https_get parseString path_join fuel w = Some (s, w') ->
  step [] w w'.
Proof.
  unfold main. intros H.
  destruct (disk w !! "./pom.xml") as [pomContent|];
    [| injection H as <- <-; apply step_refl].
  destruct (parsePomXml parseString pomContent) as [pomObj|];
    [| injection H as <- <-; apply step_refl].
  destruct (getDependencies pomObj) as [dependencies|];
    [| injection H as <- <-; apply step_refl].
  apply walkChunks_step in H;
    [exact H | | intros t0 w0 s0 w0' Hr; exact (resume_step _ _ _ _ _ _ Hr)].
  intros d w0. destruct (truthy (version d)).
  - apply prepare_credit.
  - now apply credit_skip.
Qed.

End WalkFacts.

(** A call of [downloadDependency] is a chunk of one. *)
Lemma downloadDependency_chunk
    (https_get : string -> requestOptions -> reply)
    (parseString : string -> option jsval)
    (path_join : string -> string -> string)
    (fuel : nat) (d : dependency) (repositoryPath : string) (w : world) :
  downloadDependency https_get parseString path_join fuel d repositoryPath w
  = walkChunk (prepare path_join repositoryPath)
      (resume https_get parseString path_join fuel repositoryPath) [d] w.
Proof.
  unfold downloadDependency, walkChunk. simpl.
  destruct (prepare path_join repositoryPath d w) as [[|t|] w1]; simpl;
    try reflexivity.
  destruct (resume _ _ _ _ _ t w1) as [[[| |] w2]|]; reflexivity.
Qed.

(** ** At most once *)

(** C1. In a run of [main] (which starts with an empty
    [downloadedDependencies]), every coordinate key is added to the set at
    most once, and the keys added are the members of the set at the end;
    every call of [downloadFile] made for a key comes after the key was
    added; and for each key the jar is requested at most once and the
    descriptor at most once, however many paths of the graph lead to the
    coordinate. *)
Theorem visited_once
    (https_get : string -> requestOptions -> reply)
    (parseString : string -> option jsval)
    (path_join : string -> string -> string)
    (fuel : nat) (files : gmap string string) (s : status) (w' : world) :
  main https_get parseString path_join fuel (World ∅ files []) = Some (s, w') ->
  NoDup (marks (events w'))
  /\ (forall k, k ∈ marks (events w') <-> k ∈ downloadedDependencies w')
  /\ ordered (events w')
  /\ (forall file k,
        occurrences k (fetches file (events w'))
        <= occurrences k (marks (events w'))
        /\ occurrences k (marks (events w')) <= 1).
Proof.
  intros H. apply main_step in H as (_ & _ & Hfresh & Hordered & Hcount).
  assert (Hf : fresh w').
  { apply Hfresh. split; [constructor |]. intros k. simpl. set_solver. }
  destruct Hf as [Hnd Hsub].
  split; [exact Hnd |]. split; [exact Hsub |].
  split.
  - apply Hordered; [apply ordered_nil |].
    intros k Hk. now apply elem_of_nil in Hk.
  - intros file k. split; [| now apply occurrences_NoDup].
    specialize (Hcount file k). simpl in Hcount. lia.
Qed.

Lemma visited_once_witness :
  exists s w',
    main Sample.Diamond.get Sample.Diamond.parseString Sample.join 3
      Sample.Diamond.start = Some (s, w')
    /\ marks (events w') = ["g:A:1"; "g:B:1"; "g:C:1"]
    /\ fetches Jar (events w') = ["g:A:1"; "g:C:1"; "g:B:1"]
    /\ fetches Pom (events w') = ["g:A:1"; "g:C:1"; "g:B:1"]
    /\ NoDup (marks (events w'))
    /\ ordered (events w').
Proof.
  destruct (main Sample.Diamond.get Sample.Diamond.parseString Sample.join 3
              Sample.Diamond.start) as [[s w']|] eqn:E.
  - exists s, w'. split; [reflexivity |].
    destruct (visited_once _ _ _ _ _ _ _ E) as (Hnd & _ & Hord & _).
    vm_compute in E. injection E as <- <-.
    repeat split; try reflexivity; assumption.
  - vm_compute in E. discriminate E.
Defined.

(** ** Termination *)

Lemma room_mono (universe : gset string) (w w' : world) :
  downloadedDependencies w ⊆ downloadedDependencies w' ->
  room universe w' <= room universe w.
Proof. intros H. apply subseteq_size. set_solver. Qed.

Lemma room_mark (universe : gset string) (key : string) (w : world) :
  key ∈ universe -> key ∉ downloadedDependencies w ->
  room universe (mark key w) < room universe w.
Proof.
  intros Hu Hn. apply subset_size. unfold mark; simpl.
  split; [set_solver |].
  intros H. assert (key ∈ universe ∖ downloadedDependencies w) as Hk
    by set_solver.
  apply H in Hk. set_solver.
Qed.

Lemma slices_Forall {A} (P : A -> Prop) (steps n : nat) (l : list A) :
  Forall P l -> Forall (Forall P) (slices steps n l).
Proof.
  revert l; induction steps as [|k IH]; intros l Hl; simpl.
  - constructor.
  - destruct l as [|x l]; [constructor |].
    constructor; [now apply Forall_take | apply IH; now apply Forall_drop].
Qed.

Lemma chunks_Forall {A} (P : A -> Prop) (l : list A) :
  Forall P l -> Forall (Forall P) (chunks l).
Proof. apply slices_Forall. Qed.

Section Termination.

Variable https_get : string -> requestOptions -> reply.
Variable parseString : string -> option jsval.
Variable path_join : string -> string -> string.

(** The coordinates any descriptor can declare. *)
Variable universe : gset string.
Hypothesis declared_in_universe :
  forall content pomObj deps d,
    parsePomXml parseString content = Some pomObj ->
    getDependencies pomObj = Ok deps ->
    d ∈ deps -> keyOf d ∈ universe.

Lemma prepare_room (repositoryPath : string) (d : dependency) (w : world) :
  keyOf d ∈ universe ->
  forall t, (prepare path_join repositoryPath d w).1 = Start t ->
  room universe (prepare path_join repositoryPath d w).2 < room universe w.
Proof.
  intros Hu t. unfold prepare.
  destruct (_ || _); [discriminate |].
  destruct (bool_decide _) eqn:Hv; [discriminate |].
  apply bool_decide_eq_false in Hv. intros _.
  destruct (layout _ _ _); simpl; now apply room_mark.
Qed.

Section ChunkTermination.

Variable begin : dependency -> world -> prepared * world.
Variable finish : task -> world -> option (status * world).
Variable bound : nat.

Hypothesis begin_credit :
  forall d w, credit [(begin d w).1] w (begin d w).2.
Hypothesis begin_room :
  forall d w t,
    keyOf d ∈ universe -> (begin d w).1 = Start t ->
    room universe (begin d w).2 < room universe w.
Hypothesis finish_step :
  forall t w s w',
    finish t w = Some (s, w') -> step [dependencyKey t] w w'.
Hypothesis finish_total :
  forall t w, room universe w < bound -> is_Some (finish t w).

Lemma beginAll_room (chunk : list dependency) (w : world) (t : task) :
  Forall (fun d => keyOf d ∈ universe) chunk ->
  Start t ∈ (beginAll begin chunk w).1 ->
  room universe (beginAll begin chunk w).2 < room universe w.
Proof.
  intros Hchunk. revert w.
  induction Hchunk as [|d chunk Hd _ IH]; intros w; simpl.
  - intros H. now apply elem_of_nil in H.
  - pose proof (begin_room d w) as Hroom.
    pose proof (begin_credit d w) as (Hs & _).
    destruct (begin d w) as [p w1]. simpl in *.
    pose proof (beginAll_credit begin begin_credit chunk w1)
      as ((Hv & _) & _).
    specialize (IH w1).
    destruct (beginAll begin chunk w1) as [ps w2]. simpl in *.
    intros [<-|Hin]%elem_of_cons.
    + specialize (Hroom t Hd eq_refl).
      pose proof (room_mono universe _ _ Hv). lia.
    + specialize (IH Hin). destruct Hs as (Hv1 & _).
      pose proof (room_mono universe _ _ Hv1). lia.
Qed.

Lemma finishAll_total (started : list prepared) (w : world) :
  (forall t, Start t ∈ started -> room universe w < bound) ->
  is_Some (finishAll finish started w).
Proof.
  revert w; induction started as [|p started IH]; intros w Hroom; simpl.
  - eauto.
  - assert (Hrest : forall w1,
              downloadedDependencies w ⊆ downloadedDependencies w1 ->
              is_Some (finishAll finish started w1)).
    { intros w1 Hv. apply IH. intros t Ht.
      pose proof (room_mono universe _ _ Hv).
      specialize (Hroom t). rewrite elem_of_cons in Hroom.
      specialize (Hroom (or_intror Ht)). lia. }
    destruct p as [|t|].
    + destruct (Hrest w) as [[s' w'] ->]; [reflexivity | eauto].
    + destruct (finish_total t w) as [[s1 w1] Hf].
      { apply (Hroom t). apply elem_of_cons. now left. }
      rewrite Hf. apply finish_step in Hf as (Hv & _).
      destruct (Hrest w1 Hv) as [[s' w'] ->]. eauto.
    + destruct (Hrest w) as [[s' w'] ->]; [reflexivity | eauto].
Qed.

Lemma walkChunk_total (chunk : list dependency) (w : world) :
  Forall (fun d => keyOf d ∈ universe) chunk ->
  room universe w <= bound ->
  is_Some (walkChunk begin finish chunk w).
Proof.
  intros Hchunk Hroom. unfold walkChunk.
  pose proof (beginAll_room chunk w) as Hb.
  destruct (beginAll begin chunk w) as [started w1]. simpl in Hb.
  apply finishAll_total. intros t Ht.
  specialize (Hb t Hchunk Ht). lia.
Qed.

Lemma walkChunks_total (cs : list (list dependency)) (w : world) :
  Forall (Forall (fun d => keyOf d ∈ universe)) cs ->
  room universe w <= bound ->
  is_Some (walkChunks begin finish cs w).
Proof.
  intros Hcs. revert w.
  induction Hcs as [|chunk cs Hchunk _ IH]; intros w Hroom; simpl.
  - eauto.
  - destruct (walkChunk_total chunk w Hchunk Hroom) as [[s1 w1] Hc].
    rewrite Hc.
    apply (walkChunk_step begin finish begin_credit finish_step) in Hc
      as (Hv & _).
    pose proof (room_mono universe _ _ Hv).
    destruct s1; [apply IH; lia | eauto | eauto].
Qed.

End ChunkTermination.

(** With more fuel than there are coordinates left to visit, the
    remainder of a call returns. *)
Lemma resume_total (fuel : nat) (repositoryPath : string) (t : task)
    (w : world) :
  room universe w < fuel ->
  is_Some (resume https_get parseString path_join fuel repositoryPath t w).
Proof.
  revert t w; induction fuel as [|fuel IH]; intros t w Hroom; [lia |].
  simpl.
  pose proof (fetchFiles_step https_get t w) as (Hv & _).
  destruct (fetchFiles https_get t w) as [st w1]. simpl in Hv.
  pose proof (room_mono universe _ _ Hv) as Hroom1.
  destruct st; [| eauto | eauto].
  destruct (disk w1 !! pomFilePath t) as [pomContent|]; [| eauto].
  destruct (String.eqb pomContent ""); [eauto |].
  destruct (parsePomXml parseString pomContent) as [depPomObj|] eqn:Hparse;
    [| eauto].
  destruct (truthy depPomObj); [| eauto].
  destruct (getDependencies depPomObj) as [transitiveDeps|] eqn:Hdeps;
    [| eauto].
  destruct (walkChunks_total
              (prepare path_join repositoryPath)
              (resume https_get parseString path_join fuel repositoryPath)
              fuel
              (prepare_credit path_join repositoryPath)
              (fun d w t Hd => prepare_room repositoryPath d w Hd t)
              (resume_step https_get parseString path_join fuel repositoryPath)
              IH
              (chunks transitiveDeps) w1) as [[s2 w2] ->].
  - apply chunks_Forall, Forall_forall. intros d Hd.
    exact (declared_in_universe _ _ _ _ Hparse Hdeps Hd).
  - lia.
  - destruct s2; eauto.
Qed.

Lemma main_total (fuel : nat) (w : world) :
  room universe w <= fuel ->
  is_Some (main https_get parseString path_join fuel w).
Proof.
  intros Hroom. unfold main.
  destruct (disk w !! "./pom.xml") as [pomContent|]; [| eauto].
  destruct (parsePomXml parseString pomContent) as [pomObj|] eqn:Hparse;
    [| eauto].
  destruct (getDependencies pomObj) as [dependencies|] eqn:Hdeps; [| eauto].
  apply walkChunks_total with (bound := fuel).
  - intros d w0. destruct (truthy (version d)).
    + apply prepare_credit.
    + now apply credit_skip.
  - intros d w0 t Hd. destruct (truthy (version d)); [| discriminate].
    now apply prepare_room.
  - apply resume_step.
  - intros t w0. apply resume_total.
  - apply chunks_Forall, Forall_forall. intros d Hd.
    exact (declared_in_universe _ _ _ _ Hparse Hdeps Hd).
  - exact Hroom.
Qed.

End Termination.

(** ** Downloads that settle *)

Lemma all_Stalled (a b : status) :
  all a b = Stalled -> a = Stalled \/ b = Stalled.
Proof. destruct a, b; simpl; auto; discriminate. Qed.

Section Settles.

Variable https_get : string -> requestOptions -> reply.
Variable parseString : string -> option jsval.
Variable path_join : string -> string -> string.

Hypothesis downloads_settle : settling https_get.

Lemma fetchFiles_settles (t : task) (w : world) :
  (fetchFiles https_get t w).1 <> Stalled.
Proof.
  assert (Hf : forall key file url dest w0,
             status_of (fetch https_get key file url dest w0).1 <> Stalled).
  { intros key file url dest w0. unfold fetch. cbn [fst].
    pose proof (downloads_settle url dest (disk w0)) as H.
    now destruct (outcome _). }
  unfold fetchFiles.
  destruct (negb (existsSync (disk w) (localJarPath t)));
    destruct (negb (existsSync (disk w) (pomFilePath t))).
  - pose proof (Hf (dependencyKey t) Jar (urlOf (artifactPath t) (jarName t))
                  (localJarPath t) w) as H1.
    destruct (fetch https_get _ Jar _ _ w) as [jar w1].
    pose proof (Hf (dependencyKey t) Pom (urlOf (artifactPath t) (pomName t))
                  (pomFilePath t) w1) as H2.
    destruct (fetch https_get _ Pom _ _ w1) as [pom w2]. cbn [fst] in *.
    intros Ha. apply all_Stalled in Ha as [Ha | Ha]; contradiction.
  - pose proof (Hf (dependencyKey t) Jar (urlOf (artifactPath t) (jarName t))
                  (localJarPath t) w) as H1.
    destruct (fetch https_get _ Jar _ _ w) as [jar w1]. cbn [fst] in *.
    intros Ha. apply all_Stalled in Ha as [Ha | Ha];
      [contradiction | discriminate].
  - pose proof (Hf (dependencyKey t) Pom (urlOf (artifactPath t) (pomName t))
                  (pomFilePath t) w) as H2.
    destruct (fetch https_get _ Pom _ _ w) as [pom w2]. cbn [fst] in *.
    intros Ha. apply all_Stalled in Ha as [Ha | Ha];
      [discriminate | contradiction].
  - discriminate.
Qed.

Section ChunkSettles.

Variable begin : dependency -> world -> prepared * world.
Variable finish : task -> world -> option (status * world).

Hypothesis finish_settles :
  forall t w s w', finish t w = Some (s, w') -> s <> Stalled.

Lemma finishAll_settles (started : list prepared) (w : world)
    (s : status) (w' : world) :
  finishAll finish started w = Some (s, w') -> s <> Stalled.
Proof.
  revert w s w'; induction started as [|p rest IH]; intros w s w' H;
    simpl in H.
  - injection H as <- _. discriminate.
  - assert (H1 : forall s1 w1,
               match p with
               | Skip => Some (Completed, w)
               | Fail => Some (Threw, w)
               | Start t => finish t w
               end = Some (s1, w1) -> s1 <> Stalled).
    { intros s1 w1 E. destruct p as [|t|].
      - injection E as <- _. discriminate.
      - eapply finish_settles, E.
      - injection E as <- _. discriminate. }
    destruct (match p with
              | Skip => Some (Completed, w)
              | Fail => Some (Threw, w)
              | Start t => finish t w
              end) as [[s1 w1]|]; [| discriminate].
    destruct (finishAll finish rest w1) as [[s2 w2]|] eqn:E2; [| discriminate].
    injection H as <- _. intros Ha.
    apply all_Stalled in Ha as [Ha | Ha].
    + now apply (H1 s1 w1).
    + now apply (IH _ _ _ E2).
Qed.

Lemma walkChunks_settles (cs : list (list dependency)) (w : world)
    (s : status) (w' : world) :
  walkChunks begin finish cs w = Some (s, w') -> s <> Stalled.
Proof.
  revert w; induction cs as [|chunk rest IH]; intros w H; simpl in H.
  - injection H as <- _. discriminate.
  - unfold walkChunk in H.
    destruct (beginAll begin chunk w) as [started w1].
    destruct (finishAll finish started w1) as [[s1 w2]|] eqn:E;
      [| discriminate].
    apply finishAll_settles in E.
    destruct s1; [now apply IH in H | | contradiction].
    injection H as <- _. discriminate.
Qed.

End ChunkSettles.

Lemma resume_settles (fuel : nat) (repositoryPath : string) (t : task)
    (w : world) (s : status) (w' : world) :
  resume https_get parseString path_join fuel repositoryPath t w
    = Some (s, w') ->
  s <> Stalled.
Proof.
  revert t w s w'; induction fuel as [|fuel IH]; intros t w s w' H;
    [discriminate |].
  cbn [resume] in H.
  pose proof (fetchFiles_settles t w) as Hf.
  destruct (fetchFiles https_get t w) as [[| |] w1]; cbn [fst] in Hf;
    try contradiction; try (injection H as <- _; discriminate).
  destruct (disk w1 !! pomFilePath t) as [pomContent|];
    [| injection H as <- _; discriminate].
  destruct (String.eqb pomContent ""); [injection H as <- _; discriminate |].
  destruct (parsePomXml parseString pomContent) as [depPomObj|];
    [| injection H as <- _; discriminate].
  destruct (truthy depPomObj); [| injection H as <- _; discriminate].
  destruct (getDependencies depPomObj) as [transitiveDeps|];
    [| injection H as <- _; discriminate].
  destruct (walkChunks _ _ _ w1) as [[s2 w2]|] eqn:E; [| discriminate].
  apply walkChunks_settles in E; [| exact IH].
  destruct s2; try contradiction; injection H as <- _; discriminate.
Qed.

Lemma main_settles (fuel : nat) (w : world) (s : status) (w' : world) :
  main https_get parseString path_join fuel w = Some (s, w') ->
  s <> Stalled.
Proof.
  unfold main. intros H.
  destruct (disk w !! "./pom.xml") as [pomContent|];
    [| injection H as <- _; discriminate].
  destruct (parsePomXml parseString pomContent) as [pomObj|];
    [| injection H as <- _; discriminate].
  destruct (getDependencies pomObj) as [dependencies|];
    [| injection H as <- _; discriminate].
  apply walkChunks_settles in H; [exact H |].
  intros t w0 s0 w0'. apply resume_settles.
Qed.

End Settles.

(** The sample networks answer every request completely and never with
    a redirect. *)
Lemma sample_settling (descriptors : list string) :
  settling (Sample.https_get descriptors).
Proof.
  intros url dest files. unfold downloadFile, Sample.https_get.
  destruct (JsString.endsWith url ".jar"); [discriminate |].
  destruct (find _ descriptors); discriminate.
Qed.

(** In the sample cycle every declared coordinate is A or B. *)
Lemma cycle_declared (content : string) (pomObj : jsval)
    (deps : list dependency) (d : dependency) :
  parsePomXml Sample.Cycle.parseString content = Some pomObj ->
  getDependencies pomObj = Ok deps ->
  d ∈ deps -> keyOf d ∈ Sample.Cycle.universe.
Proof.
  unfold parsePomXml, Sample.Cycle.parseString. intros Hparse Hdeps Hd.
  destruct (String.eqb content "root");
    [| destruct (String.eqb content "A");
       [| destruct (String.eqb content "B"); [| discriminate]]];
    vm_compute in Hparse; injection Hparse as <-;
    vm_compute in Hdeps; injection Hdeps as <-;
    apply list_elem_of_singleton in Hd as ->;
    apply (bool_decide_unpack _); vm_compute; exact I.
Qed.

(** C3. When the coordinates that descriptors can declare form a finite
    set, the walk ends: the recursion is entered only for a key that was
    just added to [downloadedDependencies], so its depth never exceeds
    the number of coordinates, and on a network on which no download
    stays pending the run does not wait for ever either.  In the sample
    cycle (the root declares A, A declares B, B declares A) the run
    completes with A and B each marked once and each of their two files
    requested once. *)
Theorem walk_terminates :
  (forall (https_get : string -> requestOptions -> reply)
          (parseString : string -> option jsval)
          (path_join : string -> string -> string)
          (universe : gset string) (fuel : nat) (w : world),
     (forall content pomObj deps d,
        parsePomXml parseString content = Some pomObj ->
        getDependencies pomObj = Ok deps ->
        d ∈ deps -> keyOf d ∈ universe) ->
     size universe <= fuel ->
     settling https_get ->
     exists s w',
       main https_get parseString path_join fuel w = Some (s, w')
       /\ s <> Stalled
       /\ downloadedDependencies w ⊆ downloadedDependencies w')
  /\ exists w',
       main Sample.Cycle.get Sample.Cycle.parseString Sample.join 2
         Sample.Cycle.start = Some (Completed, w')
       /\ marks (events w') = ["g:A:1"; "g:B:1"]
       /\ fetches Jar (events w') = ["g:A:1"; "g:B:1"]
       /\ fetches Pom (events w') = ["g:A:1"; "g:B:1"].
Proof.
  split.
  - intros https_get parseString path_join universe fuel w Hclosed Hfuel
      Hsettling.
    destruct (main_total https_get parseString path_join universe Hclosed
                fuel w) as [[s w'] Hrun].
    + unfold room. etransitivity; [| exact Hfuel].
      apply subseteq_size. set_solver.
    + exists s, w'. split; [exact Hrun |]. split.
      * exact (main_settles https_get parseString path_join Hsettling
                 fuel w s w' Hrun).
      * now apply main_step in Hrun as (Hv & _).
  - eexists. split; [vm_compute; reflexivity |].
    repeat split; reflexivity.
Qed.

Lemma walk_terminates_witness :
  size Sample.Cycle.universe <= 2
  /\ settling Sample.Cycle.get
  /\ exists s w',
       main Sample.Cycle.get Sample.Cycle.parseString Sample.join 2
         Sample.Cycle.start = Some (s, w')
       /\ s <> Stalled
       /\ downloadedDependencies Sample.Cycle.start
          ⊆ downloadedDependencies w'.
Proof.
  assert (Hsize : size Sample.Cycle.universe <= 2)
    by (vm_compute; lia).
  split; [exact Hsize |]. split; [apply sample_settling |].
  exact (proj1 walk_terminates Sample.Cycle.get Sample.Cycle.parseString
           Sample.join Sample.Cycle.universe 2 Sample.Cycle.start
           cycle_declared Hsize (sample_settling ["A"; "B"])).
Defined.

(** ** Files already on disk *)

Lemma nonEmptyFile_existsSync (files : gmap string string) (path : string) :
  nonEmptyFile files path = true -> existsSync files path = true.
Proof.
  unfold nonEmptyFile, existsSync. intros H.
  apply bool_decide_eq_true. destruct (files !! path); [eauto | discriminate].
Qed.

Lemma quiet_refl (w : world) : quiet w w.
Proof. now split. Qed.

Lemma quiet_trans (w w1 w2 : world) : quiet w w1 -> quiet w1 w2 -> quiet w w2.
Proof.
  intros [Hd1 Hf1] [Hd2 Hf2]. split; [congruence |].
  intros file. now rewrite Hf2, Hf1.
Qed.

Lemma credit_quiet (ps : list prepared) (w w' : world) :
  credit ps w w' -> quiet w w'.
Proof. intros (_ & Hd & Hf & _). now split. Qed.

(** What [fetchFiles] records: a call for the jar exactly when the jar is
    not on disk, then a call for the descriptor exactly when the
    descriptor is not on disk. *)
Lemma fetchFiles_record (https_get : string -> requestOptions -> reply)
    (t : task) (w : world) :
  events (fetchFiles https_get t w).2 =
  events w
  ++ (if existsSync (disk w) (localJarPath t) then []
      else [Fetch (dependencyKey t) Jar (urlOf (artifactPath t) (jarName t))
              (localJarPath t)])
  ++ (if existsSync (disk w) (pomFilePath t) then []
      else [Fetch (dependencyKey t) Pom (urlOf (artifactPath t) (pomName t))
              (pomFilePath t)]).
Proof.
  unfold fetchFiles, fetch.
  destruct (existsSync (disk w) (localJarPath t)),
           (existsSync (disk w) (pomFilePath t)); simpl;
    rewrite <- ?app_assoc, ?app_nil_r; reflexivity.
Qed.

Section Present.

Variable https_get : string -> requestOptions -> reply.
Variable parseString : string -> option jsval.
Variable path_join : string -> string -> string.
Variable repositoryPath : string.

(** The disk at the start of the run. *)
Variable files : gmap string string.

(** Both files of every coordinate a descriptor declares are there. *)
Hypothesis declared_present :
  forall content pomObj deps d t,
    parsePomXml parseString content = Some pomObj ->
    getDependencies pomObj = Ok deps ->
    d ∈ deps ->
    layout path_join repositoryPath d = Ok t ->
    settledTask files t.

Lemma fetchFiles_present (t : task) (w : world) :
  disk w = files -> settledTask files t ->
  fetchFiles https_get t w = (Completed, w).
Proof.
  intros Hd [Hjar Hpom]. unfold fetchFiles. rewrite Hd.
  rewrite (nonEmptyFile_existsSync _ _ Hjar),
          (nonEmptyFile_existsSync _ _ Hpom).
  reflexivity.
Qed.

Lemma prepare_settled (d : dependency) (w : world) (t : task) :
  (forall t, layout path_join repositoryPath d = Ok t -> settledTask files t) ->
  (prepare path_join repositoryPath d w).1 = Start t ->
  settledTask files t.
Proof.
  intros Hd. unfold prepare.
  destruct (_ || _); [discriminate |].
  destruct (bool_decide _); [discriminate |].
  destruct (layout path_join repositoryPath d) as [t'|] eqn:Hl;
    [| discriminate].
  simpl. intros [= <-]. now apply Hd.
Qed.

Section ChunkPresent.

Variable begin : dependency -> world -> prepared * world.
Variable finish : task -> world -> option (status * world).
Variable allowed : dependency -> Prop.

Hypothesis begin_credit :
  forall d w, credit [(begin d w).1] w (begin d w).2.
Hypothesis begin_settled :
  forall d w t,
    allowed d -> (begin d w).1 = Start t -> settledTask files t.
Hypothesis finish_quiet :
  forall t w s w',
    disk w = files -> settledTask files t ->
    finish t w = Some (s, w') -> quiet w w'.

Lemma beginAll_settled (chunk : list dependency) (w : world) (t : task) :
  Forall allowed chunk ->
  Start t ∈ (beginAll begin chunk w).1 -> settledTask files t.
Proof.
  intros Hchunk. revert w.
  induction Hchunk as [|d chunk Hd _ IH]; intros w; simpl.
  - intros H. now apply elem_of_nil in H.
  - pose proof (begin_settled d w) as Hs.
    destruct (begin d w) as [p w1]. simpl in Hs.
    specialize (IH w1).
    destruct (beginAll begin chunk w1) as [ps w2]. simpl in *.
    intros [<-|Hin]%elem_of_cons; [now apply Hs | now apply IH].
Qed.

Lemma finishAll_quiet (started : list prepared) (w : world)
    (s : status) (w' : world) :
  disk w = files ->
  (forall t, Start t ∈ started -> settledTask files t) ->
  finishAll finish started w = Some (s, w') -> quiet w w'.
Proof.
  revert w s w'; induction started as [|p started IH];
    intros w s w' Hd Hs H; simpl in H.
  - injection H as <- <-. apply quiet_refl.
  - assert (Hrest : forall t, Start t ∈ started -> settledTask files t).
    { intros t Ht. apply Hs, elem_of_cons. now right. }
    destruct (match p with
              | Skip => Some (Completed, w)
              | Start t => finish t w
              | Fail => Some (Threw, w)
              end) as [[s1 w1]|] eqn:Hp; [| discriminate].
    destruct (finishAll finish started w1) as [[s2 w2]|] eqn:Hr;
      [| discriminate].
    injection H as <- <-.
    assert (Hq : quiet w w1).
    { destruct p as [|t|].
      - injection Hp as <- <-. apply quiet_refl.
      - eapply finish_quiet; [exact Hd | | exact Hp].
        apply Hs, elem_of_cons. now left.
      - injection Hp as <- <-. apply quiet_refl. }
    eapply quiet_trans; [exact Hq |].
    eapply IH; [| exact Hrest | exact Hr].
    destruct Hq as [-> _]. exact Hd.
Qed.

Lemma walkChunk_quiet (chunk : list dependency) (w : world)
    (s : status) (w' : world) :
  disk w = files -> Forall allowed chunk ->
  walkChunk begin finish chunk w = Some (s, w') -> quiet w w'.
Proof.
  intros Hd Hchunk. unfold walkChunk.
  pose proof (beginAll_credit begin begin_credit chunk w) as Hc.
  pose proof (beginAll_settled chunk w) as Hs.
  destruct (beginAll begin chunk w) as [started w1]. simpl in *.
  apply credit_quiet in Hc. intros H.
  eapply quiet_trans; [exact Hc |].
  eapply finishAll_quiet; [| | exact H].
  - destruct Hc as [-> _]. exact Hd.
  - intros t Ht. now apply Hs.
Qed.

Lemma walkChunks_quiet (cs : list (list dependency)) (w : world)
    (s : status) (w' : world) :
  disk w = files -> Forall (Forall allowed) cs ->
  walkChunks begin finish cs w = Some (s, w') -> quiet w w'.
Proof.
  intros Hd Hcs. revert w Hd.
  induction Hcs as [|chunk cs Hchunk _ IH]; intros w Hd H; simpl in H.
  - injection H as <- <-. apply quiet_refl.
  - destruct (walkChunk begin finish chunk w) as [[s1 w1]|] eqn:Hc;
      [| discriminate].
    apply walkChunk_quiet in Hc; [| assumption | assumption].
    destruct s1.
    + eapply quiet_trans; [exact Hc |]. apply IH; [| exact H].
      destruct Hc as [-> _]. exact Hd.
    + now injection H as <- <-.
    + now injection H as <- <-.
Qed.

End ChunkPresent.

Lemma resume_quiet (fuel : nat) (t : task) (w : world)
    (s : status) (w' : world) :
  disk w = files -> settledTask files t ->
  resume https_get parseString path_join fuel repositoryPath t w
    = Some (s, w') ->
  quiet w w'.
Proof.
  revert t w s w'; induction fuel as [|fuel IH]; intros t w s w' Hd Ht H;
    [discriminate |].
  simpl in H. rewrite (fetchFiles_present t w Hd Ht) in H.
  destruct Ht as [_ Hpom]. unfold nonEmptyFile in Hpom. rewrite <- Hd in Hpom.
  destruct (disk w !! pomFilePath t) as [pomContent|]; [| discriminate].
  apply negb_true_iff in Hpom. rewrite Hpom in H.
  destruct (parsePomXml parseString pomContent) as [depPomObj|] eqn:Hparse;
    [| injection H as <- <-; apply quiet_refl].
  destruct (truthy depPomObj); [| injection H as <- <-; apply quiet_refl].
  destruct (getDependencies depPomObj) as [transitiveDeps|] eqn:Hdeps;
    [| injection H as <- <-; apply quiet_refl].
  destruct (walkChunks _ _ _ w) as [[s2 w2]|] eqn:Hw; [| discriminate].
  assert (Hq : quiet w w2).
  { eapply (walkChunks_quiet _ _
              (declaredPresent path_join repositoryPath files));
      [| | | exact Hd | | exact Hw].
    - apply prepare_credit.
    - intros d w0 t0 Hall. now apply prepare_settled.
    - exact IH.
    - apply chunks_Forall, Forall_forall. intros d Hin t0 Hl.
      exact (declared_present _ _ _ _ _ Hparse Hdeps Hin Hl). }
  destruct s2; now injection H as <- <-.
Qed.

End Present.

Lemma main_quiet
    (https_get : string -> requestOptions -> reply)
    (parseString : string -> option jsval)
    (path_join : string -> string -> string)
    (fuel : nat) (w : world) (s : status) (w' : world) :
  (forall content pomObj deps d t,
     parsePomXml parseString content = Some pomObj ->
     getDependencies pomObj = Ok deps ->
     d ∈ deps ->
     layout path_join "./repository" d = Ok t ->
     settledTask (disk w) t) ->
  main https_get parseString path_join fuel w = Some (s, w') ->
  quiet w w'.
Proof.
  intros Hpresent. unfold main. intros H.
  destruct (disk w !! "./pom.xml") as [pomContent|];
    [| injection H as <- <-; apply quiet_refl].
  destruct (parsePomXml parseString pomContent) as [pomObj|] eqn:Hparse;
    [| injection H as <- <-; apply quiet_refl].
  destruct (getDependencies pomObj) as [dependencies|] eqn:Hdeps;
    [| injection H as <- <-; apply quiet_refl].
  set (begin := fun (dep : dependency) (w : world) =>
                  if truthy (version dep)
                  then prepare path_join "./repository" dep w
                  else (Skip, w)) in H.
  assert (Hcredit : forall d w0, credit [(begin d w0).1] w0 (begin d w0).2).
  { intros d w0. unfold begin. destruct (truthy (version d)).
    - apply prepare_credit.
    - now apply credit_skip. }
  assert (Hsettled : forall d w0 t,
            declaredPresent path_join "./repository" (disk w) d ->
            (begin d w0).1 = Start t -> settledTask (disk w) t).
  { intros d w0 t Hall. unfold begin.
    destruct (truthy (version d)); [| discriminate].
    now apply prepare_settled. }
  assert (Hfinish : forall t w0 s0 w0',
            disk w0 = disk w -> settledTask (disk w) t ->
            resume https_get parseString path_join fuel "./repository" t w0
              = Some (s0, w0') -> quiet w0 w0').
  { intros t w0 s0 w0' Hd Ht Hr.
    exact (resume_quiet https_get parseString path_join "./repository"
             (disk w) Hpresent fuel t w0 s0 w0' Hd Ht Hr). }
  refine (walkChunks_quiet (disk w) begin _
            (declaredPresent path_join "./repository" (disk w))
            Hcredit Hsettled Hfinish _ w s w' eq_refl _ H).
  apply chunks_Forall, Forall_forall. intros d Hin t Hl.
  exact (Hpresent _ _ _ _ _ Hparse Hdeps Hin Hl).
Qed.

(** C4, as stated, fails for a file that exists and is empty: in the
    sample below the jar of A is an empty file (so it is not "on disk and
    non-empty"), and the walker skips it all the same: no call of
    [downloadFile] is made for it. *)
Lemma empty_jar_not_fetched :
  layout Sample.join "./repository"
    (Dependency (JStr "g") (JStr "A") (JStr "1")) = Ok Sample.taskA
  /\ existsSync (disk Sample.emptyJar) (localJarPath Sample.taskA) = true
  /\ nonEmptyFile (disk Sample.emptyJar) (localJarPath Sample.taskA) = false
  /\ fetches Jar
       (events (fetchFiles (Sample.https_get ["A"]) Sample.taskA
                  Sample.emptyJar).2) = [].
Proof. repeat split; vm_compute; reflexivity. Qed.

(** In the sample cycle, after a first run, both files of every declared
    coordinate are on disk. *)
Lemma cycle_present (content : string) (pomObj : jsval)
    (deps : list dependency) (d : dependency) (t : task) :
  parsePomXml Sample.Cycle.parseString content = Some pomObj ->
  getDependencies pomObj = Ok deps ->
  d ∈ deps ->
  layout Sample.join "./repository" d = Ok t ->
  settledTask (disk Sample.Cycle.downloaded) t.
Proof.
  unfold parsePomXml, Sample.Cycle.parseString. intros Hparse Hdeps Hd Hl.
  destruct (String.eqb content "root");
    [| destruct (String.eqb content "A");
       [| destruct (String.eqb content "B"); [| discriminate]]];
    vm_compute in Hparse; injection Hparse as <-;
    vm_compute in Hdeps; injection Hdeps as <-;
    apply list_elem_of_singleton in Hd as ->;
    vm_compute in Hl; injection Hl as <-;
    split; vm_compute; reflexivity.
Qed.

(** C4 (amended). For each of the two files of a coordinate, the walker
    calls [downloadFile] exactly when the file is not on disk; a file that
    is on disk is skipped whatever its size.  Consequently, when both
    files of every coordinate that descriptors declare are on disk and
    non-empty, a run returns having called [downloadFile] for nothing and
    having left the disk as it was. *)
Theorem files_on_disk_not_fetched :
  (forall (https_get : string -> requestOptions -> reply)
          (t : task) (w : world),
     events (fetchFiles https_get t w).2 =
     events w
     ++ (if existsSync (disk w) (localJarPath t) then []
         else [Fetch (dependencyKey t) Jar
                 (urlOf (artifactPath t) (jarName t)) (localJarPath t)])
     ++ (if existsSync (disk w) (pomFilePath t) then []
         else [Fetch (dependencyKey t) Pom
                 (urlOf (artifactPath t) (pomName t)) (pomFilePath t)]))
  /\ (forall (https_get : string -> requestOptions -> reply)
             (parseString : string -> option jsval)
             (path_join : string -> string -> string)
             (universe : gset string) (fuel : nat) (w : world),
        (forall content pomObj deps d,
           parsePomXml parseString content = Some pomObj ->
           getDependencies pomObj = Ok deps ->
           d ∈ deps -> keyOf d ∈ universe) ->
        size universe <= fuel ->
        (forall content pomObj deps d t,
           parsePomXml parseString content = Some pomObj ->
           getDependencies pomObj = Ok deps ->
           d ∈ deps ->
           layout path_join "./repository" d = Ok t ->
           settledTask (disk w) t) ->
        exists s w',
          main https_get parseString path_join fuel w = Some (s, w')
          /\ disk w' = disk w
          /\ forall file, fetches file (events w') = fetches file (events w)).
Proof.
  split; [exact fetchFiles_record |].
  intros https_get parseString path_join universe fuel w Hclosed Hfuel Hpresent.
  destruct (main_total https_get parseString path_join universe Hclosed
              fuel w) as [[s w'] Hrun].
  - unfold room. etransitivity; [| exact Hfuel].
    apply subseteq_size. set_solver.
  - exists s, w'. split; [exact Hrun |].
    exact (main_quiet _ _ _ _ _ _ _ Hpresent Hrun).
Qed.

Lemma files_on_disk_not_fetched_witness :
  size Sample.Cycle.universe <= 2
  /\ exists s w',
       main Sample.Cycle.get Sample.Cycle.parseString Sample.join 2
         Sample.Cycle.downloaded = Some (s, w')
       /\ disk w' = disk Sample.Cycle.downloaded
       /\ forall file,
            fetches file (events w')
            = fetches file (events Sample.Cycle.downloaded).
Proof.
  assert (Hsize : size Sample.Cycle.universe <= 2)
    by (vm_compute; lia).
  split; [exact Hsize |].
  exact (proj2 files_on_disk_not_fetched Sample.Cycle.get
           Sample.Cycle.parseString Sample.join Sample.Cycle.universe 2
           Sample.Cycle.downloaded cycle_declared Hsize cycle_present).
Defined.
(** * Further properties *)

(** ** Version resolution, continued *)

Lemma resolveRange_truthy (v : string) :
  v <> "" -> truthy (resolveRange v) = true.
Proof.
  intros Hv. unfold resolveRange.
  assert (Ht : truthy (JStr v) = true).
  { simpl. apply negb_true_iff. now apply String.eqb_neq. }
  destruct (_ || _); [| exact Ht].
  destruct (truthy (range_min (parseVersionRange v))) eqn:E; assumption.
Qed.

Lemma lookupParts_returns (parts : list string) (current : jsval) :
  truthy current = true -> exists r, lookupParts parts current = Ok r.
Proof. intros H. rewrite (lookupParts_descend _ _ H). eauto. Qed.

(** X1. On a string, [resolveVersion] always returns (it does not throw),
    whatever the property table is, and what it returns is falsy only for
    the empty string or for a [${...}] reference looked up in a table: a
    literal version or a range never resolves to [null] or to the empty
    string, so only an unresolved property makes [getDependencies] drop a
    declaration that has a version. *)
Theorem resolveVersion_string_result (v : string) (properties : jsval) :
  exists r,
    resolveVersion (JStr v) properties = Ok r
    /\ (truthy r = false ->
        v = ""
        \/ (JsString.startsWith v "${" && JsString.endsWith v "}" = true
            /\ truthy properties = true)).
Proof.
  unfold resolveVersion.
  destruct (String.eqb_spec v "") as [-> | Hv].
  { exists JNull. split; [reflexivity | now left]. }
  assert (Ht : truthy (JStr v) = true).
  { simpl. apply negb_true_iff. now apply String.eqb_neq. }
  rewrite Ht. cbn [negb].
  pose proof (resolveRange_truthy v Hv) as Hr.
  destruct (JsString.startsWith v "${" && JsString.endsWith v "}") eqn:Href;
    [| exists (resolveRange v); split; [reflexivity | congruence]].
  destruct (truthy properties) eqn:Hp;
    [| exists (resolveRange v); split; [reflexivity | congruence]].
  rewrite (get_truthy _ _ Hp). cbn [Js.bind].
  destruct (truthy (prop properties (JsString.slice v 2 (-1)))) eqn:Hd.
  - rewrite (get_truthy _ _ Hd). eexists. split; [reflexivity |].
    intros _. right. now split.
  - destruct (lookupParts_returns
                (JsString.split "." (JsString.slice v 2 (-1))) properties Hp)
      as [r ->].
    exists r. split; [reflexivity |]. intros _. right. now split.
Qed.

(** X2. [parseVersionRange] takes for the lower bound everything between
    the opening bracket and the last two characters: of a string that
    starts with a bracket and ends with a parenthesis, the character before
    the parenthesis is dropped whatever it is, a comma or not. *)
Theorem parseVersionRange_cut (min : string) (c : ascii) :
  parseVersionRange ("[" +:+ min +:+ String c ")") = Range min true false.
Proof.
  assert (E : "[" +:+ min +:+ String c ")"
              = String "[" ((min +:+ String c "") +:+ ")")).
  { unfold_append. f_equal. rewrite append_assoc. now unfold_append. }
  unfold parseVersionRange.
  assert (Ht : JsString.trim ("[" +:+ min +:+ String c ")")
               = "[" +:+ min +:+ String c ")").
  { rewrite E. now apply trim_delimited. }
  rewrite Ht, startsWith_append.
  assert (He : JsString.endsWith ("[" +:+ min +:+ String c ")") ")" = true).
  { rewrite E, <- append_cons. apply endsWith_append. }
  rewrite He. cbn [andb]. f_equal.
  apply (slice_middle "[" min (String c ")")). discriminate.
Qed.

Section Blank.

Import JsString.

Lemma trimStart_blank (ws s : string) :
  blank ws = true -> trimStart (ws +:+ s) = trimStart s.
Proof.
  induction ws as [|c ws IH]; intros H; unfold_append; [reflexivity |].
  simpl in H. apply andb_true_iff in H as [Hc Hws].
  simpl. rewrite Hc. now apply IH.
Qed.

Lemma trimEnd_blank (ws : string) : blank ws = true -> trimEnd ws = "".
Proof.
  induction ws as [|c ws IH]; intros H; [reflexivity |].
  simpl in H. apply andb_true_iff in H as [Hc Hws].
  simpl. now rewrite (IH Hws), Hc.
Qed.

Lemma trimEnd_append_blank (s ws : string) :
  blank ws = true -> trimEnd (s +:+ ws) = trimEnd s.
Proof.
  intros H. induction s as [|c s IH]; unfold_append.
  - now apply trimEnd_blank.
  - simpl. now rewrite IH.
Qed.

Lemma trim_append_blank (s ws : string) :
  blank ws = true -> trim (s +:+ ws) = trim s.
Proof.
  intros H. unfold trim. induction s as [|c s IH]; unfold_append.
  - rewrite <- (append_empty_r ws), trimStart_blank by assumption.
    reflexivity.
  - simpl. destruct (is_space c); [exact IH |].
    rewrite <- append_cons. now apply trimEnd_append_blank.
Qed.

Lemma trim_blank (ws1 s ws2 : string) :
  blank ws1 = true -> blank ws2 = true ->
  trim (ws1 +:+ s +:+ ws2) = trim s.
Proof.
  intros H1 H2. unfold trim. rewrite trimStart_blank by assumption.
  now apply trim_append_blank.
Qed.

End Blank.

(** X3. [parseVersionRange] ignores white space around the expression:
    it gives the same result with and without it. *)
Theorem parseVersionRange_whitespace (ws1 v ws2 : string) :
  blank ws1 = true -> blank ws2 = true ->
  parseVersionRange (ws1 +:+ v +:+ ws2) = parseVersionRange v.
Proof.
  intros H1 H2. unfold parseVersionRange.
  now rewrite (trim_blank ws1 v ws2 H1 H2).
Qed.

Lemma parseVersionRange_whitespace_witness :
  parseVersionRange "  [1.0,) " = Range "1.0" true false.
Proof.
  exact (parseVersionRange_whitespace "  " "[1.0,)" " " eq_refl eq_refl).
Defined.

(** X4. The variant of [resolveVersion] without range handling and the
    later one differ only where the earlier one returned the version
    string itself, and there the later one returns what the range rule
    makes of that string; on every other input (property references that
    are looked up, empty and non-string versions) they agree. *)
Theorem resolveVersion_extends_earlier (version properties : jsval) :
  resolveVersion version properties
  = Earlier.resolveVersion version properties
  \/ exists v,
       version = JStr v
       /\ Earlier.resolveVersion version properties = Ok (JStr v)
       /\ resolveVersion version properties = Ok (resolveRange v).
Proof.
  unfold resolveVersion, Earlier.resolveVersion.
  destruct (truthy version) eqn:Ht; cbn [negb]; [| now left].
  destruct version as [| |v| | | |]; try now left.
  destruct (JsString.startsWith v "${" && JsString.endsWith v "}");
    [| right; now exists v].
  destruct (truthy properties); [now left | right; now exists v].
Qed.

(** ** Descriptors, continued *)

Lemma collect_version_truthy (dep : jsval) (d : dependency) :
  collect dep = Ok (Some d) -> truthy (version d) = true.
Proof.
  unfold collect. intros H.
  destruct (get dep "groupId") as [g|]; cbn [Js.bind] in H; [| discriminate].
  destruct (truthy g); cbn [negb] in H; [| discriminate].
  destruct (get dep "artifactId") as [a|]; cbn [Js.bind] in H; [| discriminate].
  destruct (truthy a); cbn [negb] in H; [| discriminate].
  destruct (get dep "version") as [v|]; cbn [Js.bind] in H; [| discriminate].
  destruct (truthy v); cbn [negb] in H; [| discriminate].
  destruct (get v "0") as [v0|]; cbn [Js.bind] in H; [| discriminate].
  destruct (truthy v0) eqn:Hv0; cbn [negb] in H; [| discriminate].
  destruct (get g "0") as [g0|]; cbn [Js.bind] in H; [| discriminate].
  destruct (get a "0") as [a0|]; cbn [Js.bind] in H; [| discriminate].
  injection H as <-. exact Hv0.
Qed.

Lemma getDependencies_versions (pomObj : jsval) (deps : list dependency) :
  getDependencies pomObj = Ok deps ->
  Forall (fun d => truthy (version d) = true) deps.
Proof.
  unfold getDependencies. intros H.
  destruct (truthy pomObj); cbn [negb] in H;
    [| injection H as <-; constructor].
  destruct (get pomObj "project") as [project|]; cbn [Js.bind] in H;
    [| discriminate].
  destruct (truthy project); cbn [negb] in H;
    [| injection H as <-; constructor].
  destruct (get project "dependencies") as [dependencies|];
    cbn [Js.bind] in H; [| discriminate].
  destruct (truthy dependencies); cbn [negb] in H;
    [| injection H as <-; constructor].
  destruct (get dependencies "0") as [first|]; cbn [Js.bind] in H;
    [| discriminate].
  destruct (get first "dependency") as [declared|]; cbn [Js.bind] in H;
    [| discriminate].
  destruct (truthy declared); cbn [negb] in H;
    [| injection H as <-; constructor].
  destruct declared as [| | |items| | |]; try discriminate.
  destruct (mapM collect items) as [found|] eqn:Em; cbn [Js.bind] in H;
    [| discriminate].
  injection H as <-.
  apply Forall_forall. intros d Hd.
  apply list_elem_of_omap in Hd as (o & Ho & Eo). simpl in Eo. subst o.
  assert (HP : Forall (fun o => forall d, o = Some d ->
                                  truthy (version d) = true) found).
  { eapply mapM_Forall; [| exact Em].
    intros x r Hx d' ->. now apply collect_version_truthy in Hx. }
  rewrite Forall_forall in HP. now apply (HP _ Ho).
Qed.

(** X5. Every entry that [getDependencies] returns has a truthy version,
    whatever object it is given: the test [if (dep.version)] that [main]
    makes on each of them before calling [downloadDependency] never
    fails. *)
Theorem getDependencies_versions_truthy (pomObj : jsval)
    (deps : list dependency) (d : dependency) :
  getDependencies pomObj = Ok deps -> d ∈ deps ->
  truthy (version d) = true.
Proof.
  intros H Hd. apply getDependencies_versions in H.
  rewrite Forall_forall in H. now apply H.
Qed.

Lemma getDependencies_versions_truthy_witness :
  getDependencies
    (Sample.pom [Sample.declaration "g" "a" "1.2.3"; JStr "text"])
  = Ok [Dependency (JStr "g") (JStr "a") (JStr "1.2.3")]
  /\ truthy (version (Dependency (JStr "g") (JStr "a") (JStr "1.2.3")))
     = true.
Proof.
  split; [reflexivity |].
  apply (getDependencies_versions_truthy
           (Sample.pom [Sample.declaration "g" "a" "1.2.3"; JStr "text"])
           [Dependency (JStr "g") (JStr "a") (JStr "1.2.3")]
           (Dependency (JStr "g") (JStr "a") (JStr "1.2.3")));
    [reflexivity | apply list_elem_of_here].
Defined.

Lemma mapM_lookup {A B} (f : A -> result B) (l : list A) (rs : list B) :
  mapM f l = Ok rs ->
  length rs = length l
  /\ forall i x, l !! i = Some x -> exists y, rs !! i = Some y /\ f x = Ok y.
Proof.
  revert rs; induction l as [|x l IH]; intros rs H; simpl in H.
  - injection H as <-. split; [reflexivity |]. intros i x Hi. discriminate.
  - destruct (f x) as [y|] eqn:Ey; cbn [Js.bind] in H; [| discriminate].
    destruct (mapM f l) as [ys|]; cbn [Js.bind] in H; [| discriminate].
    injection H as <-. destruct (IH ys eq_refl) as [Hlen Hall].
    split; [simpl; now rewrite Hlen |].
    intros [|i] x' Hi; simpl in *.
    + injection Hi as <-. now exists y.
    + now apply Hall.
Qed.

Lemma resolveDeclaration_fields (properties : jsval)
    (fields : list (string * jsval)) (resolved : jsval) :
  resolveDeclaration properties (JObj fields) = Ok resolved ->
  exists versions,
    resolved = JObj (assign fields "version" (JArr versions))
    /\ length versions <= 1.
Proof.
  unfold resolveDeclaration. cbn [get Js.bind spread]. intros H.
  destruct (truthy (prop (JObj fields) "version")).
  - destruct (get (prop (JObj fields) "version") "0") as [raw|];
      cbn [Js.bind] in H; [| discriminate].
    destruct (resolveVersion raw properties) as [v|]; cbn [Js.bind] in H;
      [| discriminate].
    injection H as <-. exists [v]. split; [reflexivity | simpl; lia].
  - cbn [Js.bind] in H. injection H as <-. exists []. split;
      [reflexivity | simpl; lia].
Qed.

(** X6. The callback of [parsePomXml] rewrites versions only: the
    descriptor it resolves to has as many declarations as the reader's
    result, in the same order, and each declaration that is an object keeps
    every property other than [version] ([groupId], [artifactId], scope and
    so on) as it was, while its [version] becomes an array of at most one
    entry. *)
Theorem resolveDescriptor_keeps_coordinates (result pomObj : jsval) :
  document result = true ->
  resolveDescriptor result = Ok pomObj ->
  length (declarations pomObj) = length (declarations result)
  /\ forall i fields,
       declarations result !! i = Some (JObj fields) ->
       exists resolved versions,
         declarations pomObj !! i = Some (JObj resolved)
         /\ (forall k, k <> "version" -> assoc resolved k = assoc fields k)
         /\ assoc resolved "version" = Some (JArr versions)
         /\ length versions <= 1.
Proof.
  intros Hdoc Hres.
  destruct result as [| | | |[|[root e] [|]]| |]; try discriminate.
  change (element e = true) in Hdoc. unfold resolveDescriptor in Hres.
  cbn [truthy negb] in Hres. rewrite !get_opt_prop in Hres.
  pose proof (document_dependencies root e Hdoc) as Hraw.
  unfold declarations. rewrite !get_opt_prop.
  set (deps := prop (prop (JObj [(root, e)]) "project") "dependencies") in *.
  set (raw := prop (prop deps "0") "dependency") in *.
  destruct (truthy raw) eqn:Htr.
  - assert (Hd : truthy deps = true).
    { destruct (truthy deps) eqn:E; [reflexivity |].
      subst raw.
      rewrite (prop_falsy deps) in Htr by (reflexivity || assumption).
      discriminate. }
    destruct (Hraw Hd) as (fields & first & rest & Er & -> & Ea & Hf).
    assert (Edeps : deps = JArr (first :: rest)).
    { subst deps. now rewrite prop_root, Er by reflexivity. }
    assert (Efirst : prop deps "0" = first) by now rewrite Edeps.
    destruct first as [| |s| |inner| |]; try discriminate.
    { subst raw. rewrite Efirst, prop_string_name in Htr by reflexivity.
      discriminate. }
    destruct raw as [| | |items| | |] eqn:Eraw; try discriminate.
    destruct (mapM _ items) as [resolved|] eqn:Em; [| discriminate].
    cbn [Js.bind] in Hres. injection Hres as <-.
    rewrite !Er. cbn [default].
    rewrite (update_object fields), Ea, update_first, update_object.
    rewrite (prop_root root _ "project"), Er, prop_assign, prop_first,
      prop_assign by reflexivity.
    destruct (mapM_lookup _ _ _ Em) as [Hlen Hall].
    split; [exact Hlen |].
    intros i declared Hi.
    destruct (Hall i _ Hi) as (y & Hy & Hr).
    apply resolveDeclaration_fields in Hr as (versions & -> & Hv).
    exists (assign declared "version" (JArr versions)), versions.
    split; [exact Hy |]. split; [| split; [apply assoc_assign | exact Hv]].
    intros k Hk. apply assoc_assign_ne. congruence.
  - injection Hres as <-. fold deps. fold raw.
    assert (E : match raw with JArr items => items | _ => [] end = []).
    { destruct raw as [| |s| | | |]; try reflexivity; discriminate. }
    rewrite E. split; [reflexivity |]. intros i declared Hi. discriminate.
Qed.

Lemma resolveDescriptor_keeps_coordinates_witness :
  exists pomObj,
    resolveDescriptor Sample.described = Ok pomObj
    /\ length (declarations pomObj) = 4
    /\ exists resolved versions,
         declarations pomObj !! 1 = Some (JObj resolved)
         /\ assoc resolved "artifactId" = Some (JArr [JStr "b"])
         /\ assoc resolved "version" = Some (JArr versions)
         /\ length versions <= 1.
Proof.
  destruct (resolveDescriptor Sample.described) as [pomObj|] eqn:E;
    [| vm_compute in E; discriminate E].
  exists pomObj. split; [reflexivity |].
  destruct (resolveDescriptor_keeps_coordinates Sample.described pomObj
              eq_refl E) as [Hlen Hall].
  split; [exact Hlen |].
  destruct (Hall 1 _ eq_refl) as (resolved & versions & Hr & Hk & Hv & Hl).
  exists resolved, versions. split; [exact Hr |].
  split; [| split; assumption].
  rewrite Hk by discriminate. reflexivity.
Defined.

(** ** File download, continued *)

Section DownloadOutcome.

Variable https_get : string -> requestOptions -> reply.

Lemma handleResponse_closed (complete : bool) (dest : string)
    (statusCode : Z) (body : string) (disk : gmap string string) :
  let '(state, disk', _) :=
    handleResponse true complete dest statusCode body disk in
  state <> Resolved
  /\ (state = Pending <-> statusCode = 200%Z)
  /\ disk' = if (statusCode =? 200)%Z then disk else delete dest disk.
Proof.
  unfold handleResponse.
  destruct (Z.eqb_spec statusCode 404) as [-> | H404].
  { repeat split; try discriminate. }
  destruct (Z.eqb_spec statusCode 200) as [-> | H200]; cbn [negb].
  - repeat split; discriminate.
  - split; [discriminate |]. split; [| reflexivity].
    split; [discriminate | contradiction].
Qed.

Lemma handleResponse_open (complete : bool) (dest : string)
    (statusCode : Z) (body : string) (disk : gmap string string) :
  let '(state, disk', _) :=
    handleResponse false complete dest statusCode body disk in
  (state = Resolved <-> statusCode = 200%Z /\ complete = true)
  /\ (state = Pending <-> statusCode = 200%Z /\ complete = false)
  /\ disk' = if (statusCode =? 200)%Z then <[dest := body]> disk
             else delete dest disk.
Proof.
  unfold handleResponse.
  destruct (Z.eqb_spec statusCode 404) as [-> | H404].
  { repeat split; try discriminate; intros [? _]; discriminate. }
  destruct (Z.eqb_spec statusCode 200) as [-> | H200]; cbn [negb].
  - destruct complete; repeat split; try discriminate;
      intros [_ ?]; discriminate.
  - repeat split; try discriminate; intros [? _]; contradiction.
Qed.

(** How the follow-up request of a redirect ends. *)
Lemma followRedirect_outcome (location dest : string)
    (disk : gmap string string) (sofar : list io) :
  let options := buildOptions PROXY_CONFIG in
  let d := followRedirect https_get location dest disk sofar in
  outcome d <> Resolved
  /\ (outcome d = Pending <->
      https_get location options = NoAnswer
      \/ exists location' body' complete',
           arrival (https_get location options)
           = Some (200%Z, location', body', complete'))
  /\ (disk !! dest = None -> disk_after d = delete dest disk).
Proof.
  cbv zeta. unfold followRedirect.
  destruct (https_get location (buildOptions PROXY_CONFIG))
    as [c l b | cause | c l b |] eqn:E.
  - pose proof (handleResponse_closed true dest c b disk) as H.
    destruct (handleResponse true true dest c b disk) as [[state disk'] steps].
    destruct H as (Hres & Hpend & ->). cbn [outcome disk_after arrival].
    split; [exact Hres |]. split.
    + rewrite Hpend. split.
      * intros ->. right. now exists l, b, true.
      * intros [Eq | (l' & b' & c' & [= -> _ _ _])];
          [discriminate | reflexivity].
    + intros Hnone. destruct (c =? 200)%Z; [| reflexivity].
      symmetry. now apply delete_id.
  - cbn [outcome disk_after arrival].
    split; [discriminate |]. split; [| reflexivity].
    split; [discriminate |].
    intros [Eq | (l' & b' & c' & Eq)]; discriminate.
  - pose proof (handleResponse_closed false dest c b disk) as H.
    destruct (handleResponse true false dest c b disk) as [[state disk'] steps].
    destruct H as (Hres & Hpend & ->). cbn [outcome disk_after arrival].
    split; [exact Hres |]. split.
    + rewrite Hpend. split.
      * intros ->. right. now exists l, b, false.
      * intros [Eq | (l' & b' & c' & [= -> _ _ _])];
          [discriminate | reflexivity].
    + intros Hnone. destruct (c =? 200)%Z; [| reflexivity].
      symmetry. now apply delete_id.
  - cbn [outcome disk_after]. split; [discriminate |]. split.
    + split; [now left | reflexivity].
    + intros Hnone. symmetry. now apply delete_id.
Qed.

(** How the callback of the first request ends. *)
Lemma firstResponse_outcome (complete : bool) (statusCode : Z)
    (location body dest : string) (disk : gmap string string)
    (opened : list io) :
  let options := buildOptions PROXY_CONFIG in
  let d := firstResponse https_get complete statusCode location body dest
             (createWriteStream dest disk) opened in
  (outcome d = Resolved <-> statusCode = 200%Z /\ complete = true)
  /\ (outcome d = Pending <->
      statusCode = 200%Z /\ complete = false
      \/ (statusCode = 301 \/ statusCode = 302)%Z
         /\ (https_get location options = NoAnswer
             \/ exists location' body' complete',
                  arrival (https_get location options)
                  = Some (200%Z, location', body', complete')))
  /\ disk_after d = if (statusCode =? 200)%Z then <[dest := body]> disk
                    else delete dest disk.
Proof.
  cbv zeta. unfold firstResponse.
  destruct ((statusCode =? 302)%Z || (statusCode =? 301)%Z) eqn:Hredirect.
  - assert (Hcode : (statusCode = 301 \/ statusCode = 302)%Z).
    { apply orb_true_iff in Hredirect as [H | H]; apply Z.eqb_eq in H; auto. }
    assert (H200 : (statusCode =? 200)%Z = false).
    { destruct Hcode as [-> | ->]; reflexivity. }
    rewrite H200.
    destruct (followRedirect_outcome location dest
                (unlink dest (createWriteStream dest disk))
                (opened ++ [IoClose dest; IoUnlink dest]))
      as (Hres & Hpend & Hdisk).
    split; [| split].
    + split; [intros Eq; contradiction | intros [-> _]; discriminate].
    + rewrite Hpend. split.
      * intros H. right. now split.
      * intros [[-> _] | [_ H]]; [discriminate | exact H].
    + rewrite Hdisk by apply lookup_delete_eq.
      unfold unlink, createWriteStream.
      now rewrite delete_delete_eq, delete_insert_eq.
  - assert (Hcode : (statusCode <> 301 /\ statusCode <> 302)%Z).
    { apply orb_false_iff in Hredirect as [H1 H2].
      apply Z.eqb_neq in H1, H2. auto. }
    pose proof (handleResponse_open complete dest statusCode body
                  (createWriteStream dest disk)) as H.
    destruct (handleResponse false complete dest statusCode body _)
      as [[state disk'] steps].
    destruct H as (Hres & Hpend & ->). cbn [outcome disk_after].
    split; [exact Hres |]. split.
    + rewrite Hpend. split; [now left |].
      intros [H | [H _]]; [exact H | lia].
    + unfold createWriteStream.
      destruct (statusCode =? 200)%Z;
        [apply insert_insert_eq | apply delete_insert_eq].
Qed.

(** X7. How the promise of [downloadFile] ends is decided by what the
    requests yield.  It resolves exactly when the first response has
    status 200 and its body arrives completely.  It stays pending for
    ever exactly when the first request is never answered, or its
    response has status 200 and the body breaks off, or its response is
    a 301 or 302 and the follow-up request is never answered or is
    answered with status 200 (the body is piped into the stream closed on
    the redirect); in particular a download that was redirected never
    resolves.  In every other case the promise is rejected. *)
Theorem downloadFile_outcome (url dest : string) (disk : gmap string string) :
  let options := buildOptions PROXY_CONFIG in
  let d := downloadFile https_get url dest disk in
  (outcome d = Resolved <->
   exists location body, https_get url options = Response 200 location body)
  /\ (outcome d = Pending <->
      https_get url options = NoAnswer
      \/ (exists location received,
            https_get url options = Truncated 200 location received)
      \/ exists statusCode location body complete,
           arrival (https_get url options)
           = Some (statusCode, location, body, complete)
           /\ (statusCode = 301 \/ statusCode = 302)%Z
           /\ (https_get location options = NoAnswer
               \/ exists location' body' complete',
                    arrival (https_get location options)
                    = Some (200%Z, location', body', complete'))).
Proof.
  cbv zeta. unfold downloadFile.
  destruct (https_get url (buildOptions PROXY_CONFIG))
    as [code location body | cause | code location body |] eqn:E1.
  - destruct (firstResponse_outcome true code location body dest disk
                [IoCreateWriteStream dest;
                 IoGet url (buildOptions PROXY_CONFIG)])
      as (Hres & Hpend & _).
    rewrite Hres, Hpend. cbn [arrival]. split; split.
    + intros [-> _]. eauto.
    + intros (l & b & [= -> _ _]). auto.
    + intros [[_ Eq] | [Hc H]]; [discriminate |].
      right. right. exists code, location, body, true. auto.
    + intros [Eq | [(l & r & Eq) | (c & l & b & k & [= <- <- _ _] & Hc & H)]];
        [discriminate | discriminate | right; auto].
  - cbn [outcome arrival]. split; split; try discriminate.
    + intros (l & b & Eq). discriminate.
    + intros [Eq | [(l & r & Eq) | (c & l & b & k & Eq & _)]]; discriminate.
  - destruct (firstResponse_outcome false code location body dest disk
                [IoCreateWriteStream dest;
                 IoGet url (buildOptions PROXY_CONFIG)])
      as (Hres & Hpend & _).
    rewrite Hres, Hpend. cbn [arrival]. split; split.
    + intros [_ Eq]. discriminate.
    + intros (l & b & Eq). discriminate.
    + intros [[-> _] | [Hc H]]; [right; left; eauto |].
      right. right. exists code, location, body, false. auto.
    + intros [Eq | [(l & r & [= -> _ _])
                   | (c & l & b & k & [= <- <- _ _] & Hc & H)]];
        [discriminate | left; auto | right; auto].
  - cbn [outcome]. split; split; try discriminate.
    + intros (l & b & Eq). discriminate.
    + intros _. now left.
    + reflexivity.
Qed.

(** The disk after [downloadFile], in closed form. *)
Lemma downloadFile_effect (url dest : string) (disk : gmap string string) :
  disk_after (downloadFile https_get url dest disk)
  = match https_get url (buildOptions PROXY_CONFIG) with
    | Response statusCode _ body | Truncated statusCode _ body =>
        if (statusCode =? 200)%Z then <[dest := body]> disk
        else delete dest disk
    | RequestError _ => delete dest disk
    | NoAnswer => <[dest := ""]> disk
    end.
Proof.
  unfold downloadFile.
  destruct (https_get url (buildOptions PROXY_CONFIG))
    as [code location body | cause | code location body |] eqn:E1.
  - now destruct (firstResponse_outcome true code location body dest disk
                    [IoCreateWriteStream dest;
                     IoGet url (buildOptions PROXY_CONFIG)]) as (_ & _ & ->).
  - cbn [disk_after]. unfold unlink, createWriteStream.
    apply delete_insert_eq.
  - now destruct (firstResponse_outcome false code location body dest disk
                    [IoCreateWriteStream dest;
                     IoGet url (buildOptions PROXY_CONFIG)]) as (_ & _ & ->).
  - reflexivity.
Qed.

(** X8. What [downloadFile] does to the disk (the log file, which is not
    part of the state, apart).  No path other than the destination is
    touched.  Whatever the destination held before, it ends up absent,
    or holding what arrived of the body of a 200 response to the first
    request (all of it, or the part received before the body broke off),
    or empty, as [createWriteStream] made it, when the first request is
    never answered; it is absent in every other case (any other status,
    a redirect however it ends, a request error). *)
Theorem downloadFile_disk (url dest : string) (disk : gmap string string) :
  let options := buildOptions PROXY_CONFIG in
  let after := disk_after (downloadFile https_get url dest disk) in
  (forall path, path <> dest -> after !! path = disk !! path)
  /\ (forall content,
        after !! dest = Some content <->
        (exists location,
           https_get url options = Response 200 location content)
        \/ (exists location,
              https_get url options = Truncated 200 location content)
        \/ https_get url options = NoAnswer /\ content = "").
Proof.
  cbv zeta. rewrite downloadFile_effect.
  destruct (https_get url (buildOptions PROXY_CONFIG))
    as [code location body | cause | code location body |] eqn:E1.
  - destruct (Z.eqb_spec code 200) as [-> | Hcode]; split.
    + intros path Hp. now apply lookup_insert_ne.
    + intros content. rewrite lookup_insert_eq. split.
      * intros [= <-]. left. now exists location.
      * intros [(l & [= _ ->]) | [(l & Eq) | [Eq _]]];
          [reflexivity | discriminate | discriminate].
    + intros path Hp. now apply lookup_delete_ne.
    + intros content. rewrite lookup_delete_eq. split; [discriminate |].
      intros [(l & [= -> _ _]) | [(l & Eq) | [Eq _]]];
        [contradiction | discriminate | discriminate].
  - split.
    + intros path Hp. now apply lookup_delete_ne.
    + intros content. rewrite lookup_delete_eq. split; [discriminate |].
      intros [(l & Eq) | [(l & Eq) | [Eq _]]]; discriminate.
  - destruct (Z.eqb_spec code 200) as [-> | Hcode]; split.
    + intros path Hp. now apply lookup_insert_ne.
    + intros content. rewrite lookup_insert_eq. split.
      * intros [= <-]. right. left. now exists location.
      * intros [(l & Eq) | [(l & [= _ ->]) | [Eq _]]];
          [discriminate | reflexivity | discriminate].
    + intros path Hp. now apply lookup_delete_ne.
    + intros content. rewrite lookup_delete_eq. split; [discriminate |].
      intros [(l & Eq) | [(l & [= -> _ _]) | [Eq _]]];
        [discriminate | contradiction | discriminate].
  - split.
    + intros path Hp. now apply lookup_insert_ne.
    + intros content. rewrite lookup_insert_eq. split.
      * intros [= <-]. right. right. now split.
      * intros [(l & Eq) | [(l & Eq) | [_ ->]]];
          [discriminate | discriminate | reflexivity].
Qed.

End DownloadOutcome.

(** ** Batches *)

Lemma slices_concat {A} (steps n : nat) (l : list A) :
  0 < n -> length l <= steps -> concat (slices steps n l) = l.
Proof.
  intros Hn. revert l; induction steps as [|k IH]; intros l Hl.
  - destruct l; [reflexivity | simpl in Hl; lia].
  - destruct l as [|x l]; [reflexivity |].
    change (slices (S k) n (x :: l))
      with (take n (x :: l) :: slices k n (drop n (x :: l))).
    cbn [concat]. rewrite IH; [apply take_drop |].
    rewrite length_drop. simpl in *. lia.
Qed.

Lemma slices_lengths {A} (steps n : nat) (l : list A) :
  0 < n -> Forall (fun c => 0 < length c <= n) (slices steps n l).
Proof.
  intros Hn. revert l; induction steps as [|k IH]; intros l; [constructor |].
  destruct l as [|x l]; [constructor |].
  change (slices (S k) n (x :: l))
    with (take n (x :: l) :: slices k n (drop n (x :: l))).
  constructor; [| apply IH].
  rewrite length_take. simpl. lia.
Qed.

Lemma chunks_concat {A} (l : list A) : concat (chunks l) = l.
Proof. apply slices_concat; [unfold CONCURRENT_DOWNLOADS; lia | lia]. Qed.

(** X9. The batches that [main] and [downloadDependency] cut a list of
    dependencies into are a partition of the list: put end to end they give
    the list back, nothing lost, nothing repeated, order kept; and every
    batch has at least one and at most [CONCURRENT_DOWNLOADS] members, so
    no more than five calls of [downloadDependency] are started
    together. *)
Theorem chunks_partition {A} (l : list A) :
  concat (chunks l) = l
  /\ Forall (fun c => 0 < length c <= CONCURRENT_DOWNLOADS) (chunks l).
Proof.
  split; [apply chunks_concat |].
  apply slices_lengths. unfold CONCURRENT_DOWNLOADS. lia.
Qed.

(** ** Names and paths *)

Section Names.

Import JsString.

Lemma includes_char (c d : ascii) (s : string) :
  includes (String d s) (String c "") = Ascii.eqb c d || includes s (String c "").
Proof. simpl. now rewrite andb_true_r. Qed.

Lemma split_replaceAll (g : string) :
  includes g "/" = false ->
  split "/" (replaceAll "." "/" g) = split "." g.
Proof.
  induction g as [|d g IH]; intros H; [reflexivity |].
  rewrite includes_char in H. apply orb_false_iff in H as [Hd Hg].
  specialize (IH Hg). simpl.
  destruct (Ascii.eqb_spec d ".") as [-> | Hdot].
  - simpl. now rewrite IH.
  - rewrite Ascii.eqb_sym in Hd. rewrite Hd. now rewrite IH.
Qed.

Lemma first_colon (a a' b b' : string) :
  includes a ":" = false -> includes a' ":" = false ->
  a +:+ ":" +:+ b = a' +:+ ":" +:+ b' -> a = a' /\ b = b'.
Proof.
  revert a'; induction a as [|x a IH]; intros [|y a'] Ha Ha' E;
    unfold_append.
  - now injection E.
  - injection E as <- _. rewrite includes_char in Ha'. discriminate.
  - injection E as -> _. rewrite includes_char in Ha. discriminate.
  - injection E as -> E.
    rewrite includes_char in Ha, Ha'.
    apply orb_false_iff in Ha as [_ Ha]. apply orb_false_iff in Ha' as [_ Ha'].
    destruct (IH a' Ha Ha' E) as [-> ->]. now split.
Qed.

End Names.

(** X10. The directory of a group is the group id with its dot-separated
    segments as path components: for a group id without a slash,
    splitting the path that [downloadDependency] computes at the slashes
    gives the segments of the group id. *)
Theorem groupPath_segments (g : string) :
  JsString.includes g "/" = false ->
  exists p,
    groupPath (JStr g) = Ok p
    /\ JsString.split "/" p = JsString.split "." g.
Proof.
  intros H. eexists. split; [reflexivity |]. now apply split_replaceAll.
Qed.

Lemma groupPath_segments_witness :
  exists p,
    groupPath (JStr "org.apache.commons") = Ok p
    /\ JsString.split "/" p = ["org"; "apache"; "commons"].
Proof. exact (groupPath_segments "org.apache.commons" eq_refl). Defined.

(** X11. The key under which a coordinate is recorded as visited tells
    coordinates apart: two different dependencies whose group and
    artifact ids are strings without a colon and whose versions are
    strings have different keys, so the visited set never takes one for
    the other. *)
Theorem keyOf_injective (d d' : dependency) :
  plainField (groupId d) -> plainField (artifactId d) ->
  is_string (version d) ->
  plainField (groupId d') -> plainField (artifactId d') ->
  is_string (version d') ->
  d <> d' -> keyOf d <> keyOf d'.
Proof.
  destruct d as [g a v], d' as [g' a' v']. cbn [groupId artifactId version].
  intros (sg & -> & Hg) (sa & -> & Ha) (sv & ->)
         (sg' & -> & Hg') (sa' & -> & Ha') (sv' & ->) Hne E.
  apply Hne.
  unfold keyOf in E. cbn [groupId artifactId version to_string] in E.
  apply first_colon in E as [-> E]; [| assumption ..].
  apply first_colon in E as [-> ->]; [| assumption ..].
  reflexivity.
Qed.

Lemma keyOf_injective_witness :
  keyOf (Dependency (JStr "org.a") (JStr "lib") (JStr "1.0"))
  <> keyOf (Dependency (JStr "org") (JStr "a.lib") (JStr "1.0")).
Proof.
  apply keyOf_injective;
    try (eexists; split; reflexivity); try (eexists; reflexivity).
  discriminate.
Defined.

(** X12. A dependency whose version is the open range [[min,)] is laid
    out as version [min]: the remote path, the names of the two files and
    their local paths are those computed for the plain version [min].
    Only the key under which it is recorded as visited differs, since the
    key is built with the version as declared. *)
Theorem layout_open_range (path_join : string -> string -> string)
    (repositoryPath g min : string) (a : jsval) :
  JsString.includes min "[" = false -> JsString.includes min "(" = false ->
  exists t t',
    layout path_join repositoryPath
      (Dependency (JStr g) a (JStr ("[" +:+ min +:+ ",)"))) = Ok t
    /\ layout path_join repositoryPath (Dependency (JStr g) a (JStr min))
       = Ok t'
    /\ actualVersion t = JStr min
    /\ artifactPath t = artifactPath t'
    /\ jarName t = jarName t' /\ pomName t = pomName t'
    /\ localJarPath t = localJarPath t' /\ pomFilePath t = pomFilePath t'
    /\ dependencyKey t <> dependencyKey t'.
Proof.
  intros Hb Hp. unfold layout. cbn [version groupId artifactId].
  rewrite !effectiveVersion_string, Hb, Hp.
  assert (Ho : JsString.includes ("[" +:+ min +:+ ",)") "[" = true)
    by apply (includes_append "" "[" (min +:+ ",)")).
  rewrite Ho, parseVersionRange_open. cbn [orb range_min Js.bind groupPath].
  eexists; eexists. split; [reflexivity |]. split; [reflexivity |].
  cbn [actualVersion artifactPath jarName pomName localJarPath pomFilePath
       dependencyKey].
  repeat (split; [reflexivity |]).
  unfold keyOf. cbn [groupId artifactId version to_string]. intros E.
  apply (f_equal String.length) in E.
  rewrite !length_append in E. simpl in E. lia.
Qed.

Lemma layout_open_range_witness :
  exists t,
    layout Sample.join "./repository"
      (Dependency (JStr "org.x") (JStr "lib") (JStr "[1.0,)")) = Ok t
    /\ actualVersion t = JStr "1.0"
    /\ jarName t = "lib-1.0.jar"
    /\ localJarPath t = "repository/org/x/lib/1.0/lib-1.0.jar".
Proof.
  destruct (layout_open_range Sample.join "./repository" "org.x" "1.0"
              (JStr "lib") eq_refl eq_refl)
    as (t & t' & Ht & Ht' & Hv & _ & Hj & _ & Hl & _).
  exists t. split; [exact Ht |]. split; [exact Hv |].
  injection Ht' as <-. split; [exact Hj | exact Hl].
Defined.

(** ** Relations that every part of the walk respects *)

Section Preserved.

Variable https_get : string -> requestOptions -> reply.
Variable parseString : string -> option jsval.
Variable path_join : string -> string -> string.

(** A relation between the world before and after. *)
Variable R : world -> world -> Prop.

Hypothesis R_refl : forall w, R w w.
Hypothesis R_trans : forall w1 w2 w3, R w1 w2 -> R w2 w3 -> R w1 w3.
Hypothesis R_mark : forall key w, R w (mark key w).
Hypothesis R_fetchFiles : forall t w, R w (fetchFiles https_get t w).2.
Hypothesis R_unlink :
  forall w path,
    disk w !! path = Some "" ->
    R w {| downloadedDependencies := downloadedDependencies w;
           disk := delete path (disk w);
           events := events w |}.

Lemma prepare_preserved (repositoryPath : string) (d : dependency)
    (w : world) :
  R w (prepare path_join repositoryPath d w).2.
Proof.
  unfold prepare.
  destruct (_ || _); [apply R_refl |].
  destruct (bool_decide _); [apply R_refl |].
  destruct (layout _ _ _); apply R_mark.
Qed.

Section ChunkPreserved.

Variable begin : dependency -> world -> prepared * world.
Variable finish : task -> world -> option (status * world).

Hypothesis begin_preserved : forall d w, R w (begin d w).2.
Hypothesis finish_preserved :
  forall t w s w', finish t w = Some (s, w') -> R w w'.

Lemma beginAll_preserved (chunk : list dependency) (w : world) :
  R w (beginAll begin chunk w).2.
Proof.
  revert w; induction chunk as [|d rest IH]; intros w; simpl;
    [apply R_refl |].
  pose proof (begin_preserved d w) as Hd.
  destruct (begin d w) as [p w1].
  specialize (IH w1). destruct (beginAll begin rest w1) as [ps w2].
  simpl in *. eauto.
Qed.

Lemma finishAll_preserved (started : list prepared) (w : world)
    (s : status) (w' : world) :
  finishAll finish started w = Some (s, w') -> R w w'.
Proof.
  revert w s w'; induction started as [|p rest IH]; intros w s w' H;
    simpl in H.
  - injection H as <- <-. apply R_refl.
  - assert (Hp : forall s1 w1,
               match p with
               | Skip => Some (Completed, w)
               | Fail => Some (Threw, w)
               | Start t => finish t w
               end = Some (s1, w1) -> R w w1).
    { intros s1 w1 E. destruct p as [|t|].
      - injection E as <- <-. apply R_refl.
      - eapply finish_preserved, E.
      - injection E as <- <-. apply R_refl. }
    destruct (match p with
              | Skip => Some (Completed, w)
              | Fail => Some (Threw, w)
              | Start t => finish t w
              end) as [[s1 w1]|]; [| discriminate].
    destruct (finishAll finish rest w1) as [[s2 w2]|] eqn:E2; [| discriminate].
    injection H as <- <-. eauto.
Qed.

Lemma walkChunk_preserved (chunk : list dependency) (w : world)
    (s : status) (w' : world) :
  walkChunk begin finish chunk w = Some (s, w') -> R w w'.
Proof.
  unfold walkChunk. pose proof (beginAll_preserved chunk w) as Hb.
  destruct (beginAll begin chunk w) as [started w1]. intros H.
  apply finishAll_preserved in H. simpl in Hb. eauto.
Qed.

Lemma walkChunks_preserved (cs : list (list dependency)) (w : world)
    (s : status) (w' : world) :
  walkChunks begin finish cs w = Some (s, w') -> R w w'.
Proof.
  revert w; induction cs as [|chunk rest IH]; intros w H; simpl in H.
  - injection H as <- <-. apply R_refl.
  - destruct (walkChunk begin finish chunk w) as [[s1 w1]|] eqn:E;
      [| discriminate].
    apply walkChunk_preserved in E.
    destruct s1; [apply IH in H | injection H as <- <- ..]; eauto.
Qed.

End ChunkPreserved.

Lemma resume_preserved (fuel : nat) (repositoryPath : string) (t : task)
    (w : world) (s : status) (w' : world) :
  resume https_get parseString path_join fuel repositoryPath t w
    = Some (s, w') ->
  R w w'.
Proof.
  revert t w s w'; induction fuel as [|fuel IH]; intros t w s w' H;
    [discriminate |].
  cbn [resume] in H.
  pose proof (R_fetchFiles t w) as Hf.
  destruct (fetchFiles https_get t w) as [[| |] w1]; cbn [snd] in Hf;
    try (injection H as <- <-; exact Hf).
  destruct (disk w1 !! pomFilePath t) as [pomContent|] eqn:Ep;
    [| injection H as <- <-; exact Hf].
  destruct (String.eqb_spec pomContent "") as [-> | Hne].
  { injection H as <- <-. eapply R_trans; [exact Hf |]. now apply R_unlink. }
  destruct (parsePomXml parseString pomContent) as [depPomObj|];
    [| injection H as <- <-; exact Hf].
  destruct (truthy depPomObj); [| injection H as <- <-; exact Hf].
  destruct (getDependencies depPomObj) as [transitiveDeps|];
    [| injection H as <- <-; exact Hf].
  destruct (walkChunks _ _ _ w1) as [[s2 w2]|] eqn:E; [| discriminate].
  apply walkChunks_preserved in E;
    [| intros; apply prepare_preserved | exact IH].
  destruct s2; injection H as <- <-; eauto.
Qed.

Lemma main_preserved (fuel : nat) (w : world) (s : status) (w' : world) :
  main https_get parseString path_join fuel w = Some (s, w') -> R w w'.
Proof.
  unfold main. intros H.
  destruct (disk w !! "./pom.xml") as [pomContent|];
    [| injection H as <- <-; apply R_refl].
  destruct (parsePomXml parseString pomContent) as [pomObj|];
    [| injection H as <- <-; apply R_refl].
  destruct (getDependencies pomObj) as [dependencies|];
    [| injection H as <- <-; apply R_refl].
  apply walkChunks_preserved in H; [exact H | |].
  - intros d w0. destruct (truthy (version d));
      [apply prepare_preserved | apply R_refl].
  - intros t w0 s0 w0'. apply resume_preserved.
Qed.

End Preserved.

(** ** What a run does to the files *)

Lemma fetch_frame (https_get : string -> requestOptions -> reply)
    (key : string) (file : artifactFile) (url dest : string) (w : world)
    (path : string) :
  path <> dest -> disk (fetch https_get key file url dest w).2 !! path
                  = disk w !! path.
Proof.
  intros Hp. unfold fetch. cbn [snd disk]. rewrite downloadFile_effect.
  destruct (https_get url _) as [code location body | cause
                                | code location body |];
    try destruct (code =? 200)%Z;
    first [now apply lookup_insert_ne | now apply lookup_delete_ne].
Qed.

Lemma fetch_events (https_get : string -> requestOptions -> reply)
    (key : string) (file : artifactFile) (url dest : string) (w : world) :
  events (fetch https_get key file url dest w).2
  = events w ++ [Fetch key file url dest]
  /\ downloadedDependencies (fetch https_get key file url dest w).2
     = downloadedDependencies w.
Proof. split; reflexivity. Qed.

(** [fetchFiles] leaves every file that exists alone. *)
Lemma fetchFiles_existing (https_get : string -> requestOptions -> reply)
    (t : task) (w : world) (path : string) :
  is_Some (disk w !! path) ->
  disk (fetchFiles https_get t w).2 !! path = disk w !! path.
Proof.
  intros Hpath. unfold fetchFiles, existsSync.
  destruct (bool_decide (is_Some (disk w !! localJarPath t))) eqn:Ej;
    destruct (bool_decide (is_Some (disk w !! pomFilePath t))) eqn:Ep;
    cbn [negb];
    try apply bool_decide_eq_false in Ej;
    try apply bool_decide_eq_false in Ep.
  - reflexivity.
  - destruct (fetch https_get _ Pom _ _ w) as [pom w2] eqn:E2. cbn [snd].
    change w2 with (pom, w2).2. rewrite <- E2.
    apply fetch_frame. intros ->. contradiction.
  - destruct (fetch https_get _ Jar _ _ w) as [jar w1] eqn:E1. cbn [snd].
    change w1 with (jar, w1).2. rewrite <- E1.
    apply fetch_frame. intros ->. contradiction.
  - destruct (fetch https_get _ Jar _ _ w) as [jar w1] eqn:E1.
    destruct (fetch https_get _ Pom _ _ w1) as [pom w2] eqn:E2. cbn [snd].
    change w2 with (pom, w2).2. rewrite <- E2.
    rewrite fetch_frame by (intros ->; contradiction).
    change w1 with (jar, w1).2. rewrite <- E1.
    apply fetch_frame. intros ->. contradiction.
Qed.

Lemma keeps_refl (w : world) : keeps w w.
Proof. intros path content H _. exact H. Qed.

Lemma keeps_trans (w1 w2 w3 : world) : keeps w1 w2 -> keeps w2 w3 -> keeps w1 w3.
Proof. intros H12 H23 path content H Hne. apply H23, Hne. now apply H12. Qed.

Lemma keeps_unlink (w : world) (path : string) :
  disk w !! path = Some "" ->
  keeps w {| downloadedDependencies := downloadedDependencies w;
             disk := delete path (disk w);
             events := events w |}.
Proof.
  intros Hempty p content Hp Hne. cbn [disk].
  rewrite lookup_delete_ne; [exact Hp |]. intros ->. congruence.
Qed.

Lemma fetchFiles_keeps (https_get : string -> requestOptions -> reply)
    (t : task) (w : world) :
  keeps w (fetchFiles https_get t w).2.
Proof.
  intros path content Hp _. rewrite fetchFiles_existing; [exact Hp |].
  now rewrite Hp.
Qed.

(** X13. A run never modifies or removes a file that had content when
    it started (the log file, which is not part of the state, apart):
    whatever [main] returns, every path that held a non-empty file at the
    start holds the same content at the end.  (Downloads go only to paths
    where no file exists, and the only file removed outside [downloadFile]
    is an empty descriptor.) *)
Theorem main_keeps_files
    (https_get : string -> requestOptions -> reply)
    (parseString : string -> option jsval)
    (path_join : string -> string -> string)
    (fuel : nat) (w : world) (s : status) (w' : world)
    (path content : string) :
  main https_get parseString path_join fuel w = Some (s, w') ->
  disk w !! path = Some content -> content <> "" ->
  disk w' !! path = Some content.
Proof.
  intros H. revert path content. change (keeps w w').
  revert H. apply main_preserved.
  - apply keeps_refl.
  - apply keeps_trans.
  - intros key w0 path content Hp _. exact Hp.
  - apply fetchFiles_keeps.
  - apply keeps_unlink.
Qed.

Lemma main_keeps_files_witness :
  exists s w',
    main Sample.Cycle.get Sample.Cycle.parseString Sample.join 2
      (World ∅ {["./pom.xml" := "root"; Sample.file "A" "jar" := "old"]} [])
    = Some (s, w')
    /\ disk w' !! Sample.file "A" "jar" = Some "old"
    /\ disk w' !! Sample.file "A" "pom" = Some "A".
Proof.
  destruct (main Sample.Cycle.get Sample.Cycle.parseString Sample.join 2
              (World ∅ {["./pom.xml" := "root";
                         Sample.file "A" "jar" := "old"]} []))
    as [[s w']|] eqn:E; [| vm_compute in E; discriminate E].
  exists s, w'. split; [reflexivity |]. split.
  - apply (main_keeps_files _ _ _ _ _ _ _ _ _ E); [reflexivity | discriminate].
  - vm_compute in E. injection E as <- <-. reflexivity.
Defined.

(** ** Errors that end the run *)

Lemma all_Threw (a b : status) : all a b = Threw -> a = Threw \/ b = Threw.
Proof. destruct a, b; simpl; auto; discriminate. Qed.

Section Contained.

Variable https_get : string -> requestOptions -> reply.
Variable parseString : string -> option jsval.
Variable path_join : string -> string -> string.

(** The part of [downloadDependency] inside its [try] never rejects. *)
Lemma resume_contained (fuel : nat) (repositoryPath : string) (t : task)
    (w : world) (s : status) (w' : world) :
  resume https_get parseString path_join fuel repositoryPath t w
    = Some (s, w') ->
  s <> Threw.
Proof.
  destruct fuel as [|fuel]; [discriminate |]. cbn [resume]. intros H.
  destruct (fetchFiles https_get t w) as [[| |] w1];
    try (injection H as <- _; discriminate).
  destruct (disk w1 !! pomFilePath t) as [pomContent|];
    [| injection H as <- _; discriminate].
  destruct (String.eqb pomContent ""); [injection H as <- _; discriminate |].
  destruct (parsePomXml parseString pomContent) as [depPomObj|];
    [| injection H as <- _; discriminate].
  destruct (truthy depPomObj); [| injection H as <- _; discriminate].
  destruct (getDependencies depPomObj) as [transitiveDeps|];
    [| injection H as <- _; discriminate].
  destruct (walkChunks _ _ _ w1) as [[[| |] w2]|]; try discriminate;
    injection H as <- _; discriminate.
Qed.

Lemma prepare_strings (repositoryPath : string) (d : dependency) (w : world) :
  is_string (groupId d) -> is_string (version d) ->
  (prepare path_join repositoryPath d w).1 <> Fail.
Proof.
  intros [g Hg] [v Hv]. unfold prepare.
  destruct (_ || _); [discriminate |].
  destruct (bool_decide _); [discriminate |].
  unfold layout. rewrite Hg, Hv, effectiveVersion_string.
  cbn [Js.bind groupPath]. discriminate.
Qed.

Section ChunkContained.

Variable begin : dependency -> world -> prepared * world.
Variable finish : task -> world -> option (status * world).
Variable regular : dependency -> Prop.

Hypothesis begin_regular : forall d w, regular d -> (begin d w).1 <> Fail.
Hypothesis finish_contained :
  forall t w s w', finish t w = Some (s, w') -> s <> Threw.

Lemma beginAll_regular (chunk : list dependency) (w : world) :
  Forall regular chunk -> Forall (fun p => p <> Fail) (beginAll begin chunk w).1.
Proof.
  intros Hc. revert w; induction Hc as [|d rest Hd Hrest IH]; intros w;
    simpl; [constructor |].
  pose proof (begin_regular d w Hd) as Hp.
  destruct (begin d w) as [p w1].
  specialize (IH w1). destruct (beginAll begin rest w1) as [ps w2].
  simpl in *. now constructor.
Qed.

Lemma finishAll_contained (started : list prepared) (w : world)
    (s : status) (w' : world) :
  Forall (fun p => p <> Fail) started ->
  finishAll finish started w = Some (s, w') -> s <> Threw.
Proof.
  intros Hs. revert w s w'; induction Hs as [|p rest Hp Hrest IH];
    intros w s w' H; simpl in H.
  - injection H as <- _. discriminate.
  - assert (H1 : forall s1 w1,
               match p with
               | Skip => Some (Completed, w)
               | Fail => Some (Threw, w)
               | Start t => finish t w
               end = Some (s1, w1) -> s1 <> Threw).
    { intros s1 w1 E. destruct p as [|t|].
      - injection E as <- _. discriminate.
      - eapply finish_contained, E.
      - contradiction. }
    destruct (match p with
              | Skip => Some (Completed, w)
              | Fail => Some (Threw, w)
              | Start t => finish t w
              end) as [[s1 w1]|]; [| discriminate].
    destruct (finishAll finish rest w1) as [[s2 w2]|] eqn:E2; [| discriminate].
    injection H as <- _. intros Ha.
    apply all_Threw in Ha as [Ha | Ha].
    + now apply (H1 s1 w1).
    + now apply (IH _ _ _ E2).
Qed.

Lemma walkChunks_contained (cs : list (list dependency)) (w : world)
    (s : status) (w' : world) :
  Forall (Forall regular) cs ->
  walkChunks begin finish cs w = Some (s, w') -> s <> Threw.
Proof.
  intros Hcs. revert w; induction Hcs as [|chunk rest Hc Hrest IH];
    intros w H; simpl in H.
  - injection H as <- _. discriminate.
  - unfold walkChunk in H.
    pose proof (beginAll_regular chunk w Hc) as Hb.
    destruct (beginAll begin chunk w) as [started w1]. cbn [fst] in Hb.
    destruct (finishAll finish started w1) as [[s1 w2]|] eqn:E;
      [| discriminate].
    apply finishAll_contained in E; [| exact Hb].
    destruct s1; [now apply IH in H | contradiction |].
    injection H as <- _. discriminate.
Qed.

End ChunkContained.

(** The calls that [main] makes for string coordinates do not reject. *)
Lemma roots_contained (fuel : nat) (deps : list dependency) (w : world)
    (s : status) (w' : world) :
  Forall (fun d => is_string (groupId d) /\ is_string (version d)) deps ->
  walkChunks
    (fun dep w =>
       if truthy (version dep) then prepare path_join "./repository" dep w
       else (Skip, w))
    (resume https_get parseString path_join fuel "./repository")
    (chunks deps) w = Some (s, w') ->
  s <> Threw.
Proof.
  intros Hstr.
  apply walkChunks_contained
    with (regular := fun d => is_string (groupId d) /\ is_string (version d)).
  - intros d w0 [Hg Hv].
    destruct (truthy (version d)); [now apply prepare_strings | discriminate].
  - intros t w0 s0 w0'. apply resume_contained.
  - now apply chunks_Forall.
Qed.

(** X15. Once the root descriptor has been read, the run takes the
    [process.exit(1)] path only for a malformed root dependency: when every
    dependency that the root descriptor declares has a string group id and
    a string version, [main] never ends that way, whatever the network
    answers and whatever the descriptors of the dependencies contain.
    Download failures and errors in transitive descriptors are caught
    inside [downloadDependency].  ([mkdirp] and the progress bar, which
    are not part of the model, are taken not to fail.) *)
Theorem main_exit_only_root (fuel : nat) (w : world) (content : string)
    (pomObj : jsval) (deps : list dependency) (s : status) (w' : world) :
  disk w !! "./pom.xml" = Some content ->
  parsePomXml parseString content = Some pomObj ->
  getDependencies pomObj = Ok deps ->
  Forall (fun d => is_string (groupId d) /\ is_string (version d)) deps ->
  main https_get parseString path_join fuel w = Some (s, w') ->
  s <> Threw.
Proof.
  intros Hroot Hparse Hdeps Hstr. unfold main. rewrite Hroot, Hparse, Hdeps.
  now apply roots_contained.
Qed.

End Contained.

Lemma main_exit_only_root_witness :
  exists s w',
    main Sample.Diamond.get Sample.Diamond.parseString Sample.join 3
      Sample.Diamond.start = Some (s, w')
    /\ s <> Threw.
Proof.
  destruct (main Sample.Diamond.get Sample.Diamond.parseString Sample.join 3
              Sample.Diamond.start) as [[s w']|] eqn:E;
    [| vm_compute in E; discriminate E].
  exists s, w'. split; [reflexivity |].
  apply (main_exit_only_root Sample.Diamond.get Sample.Diamond.parseString
           Sample.join 3 Sample.Diamond.start "root"
           (Sample.pom [Sample.declaration "g" "A" "1";
                        Sample.declaration "g" "B" "1"])
           [Dependency (JStr "g") (JStr "A") (JStr "1");
            Dependency (JStr "g") (JStr "B") (JStr "1")] s w');
    [reflexivity | reflexivity | reflexivity | | exact E].
  repeat constructor; eexists; reflexivity.
Defined.

(** ** Coverage of the root dependencies *)

Section Visits.

Variable https_get : string -> requestOptions -> reply.
Variable parseString : string -> option jsval.
Variable path_join : string -> string -> string.

Lemma resume_grows (fuel : nat) (repositoryPath : string) (t : task)
    (w : world) (s : status) (w' : world) :
  resume https_get parseString path_join fuel repositoryPath t w
    = Some (s, w') ->
  grows w w'.
Proof. intros H. now apply resume_step in H as (Hv & _). Qed.

Lemma prepare_grows (repositoryPath : string) (d : dependency) (w : world) :
  grows w (prepare path_join repositoryPath d w).2.
Proof.
  destruct (prepare_credit path_join repositoryPath d w) as ((Hv & _) & _).
  exact Hv.
Qed.

Lemma prepare_visits (repositoryPath : string) (d : dependency) (w : world) :
  valid d = true ->
  keyOf d ∈ downloadedDependencies (prepare path_join repositoryPath d w).2.
Proof.
  unfold valid, prepare. intros Hv.
  apply andb_true_iff in Hv as [Hv Hver]. apply andb_true_iff in Hv as [Hg Ha].
  rewrite Hg, Ha, Hver. cbn [negb orb].
  destruct (bool_decide_reflect (keyOf d ∈ downloadedDependencies w)) as [Hin|Hout];
    [exact Hin |].
  destruct (layout _ _ _); cbn [snd mark downloadedDependencies]; set_solver.
Qed.

Section ChunkVisits.

Variable begin : dependency -> world -> prepared * world.
Variable finish : task -> world -> option (status * world).

Hypothesis begin_grows : forall d w, grows w (begin d w).2.
Hypothesis begin_visits :
  forall d w, valid d = true -> keyOf d ∈ downloadedDependencies (begin d w).2.
Hypothesis finish_grows :
  forall t w s w', finish t w = Some (s, w') -> grows w w'.

Lemma beginAll_visits (chunk : list dependency) (w : world) (d : dependency) :
  d ∈ chunk -> valid d = true ->
  keyOf d ∈ downloadedDependencies (beginAll begin chunk w).2.
Proof.
  intros Hd Hv. revert w; induction chunk as [|d' rest IH]; intros w;
    [now apply elem_of_nil in Hd |].
  simpl.
  pose proof (begin_visits d' w) as Hb.
  destruct (begin d' w) as [p w1] eqn:E1.
  pose proof (beginAll_preserved grows
                ltac:(intros ?; unfold grows; set_solver)
                ltac:(unfold grows; set_solver)
                begin begin_grows rest w1) as Hg.
  apply elem_of_cons in Hd as [-> | Hd].
  - destruct (beginAll begin rest w1) as [ps w2]. cbn [snd] in *.
    apply Hg. now apply Hb.
  - specialize (IH Hd w1). now destruct (beginAll begin rest w1) as [ps w2].
Qed.

Lemma walkChunks_visits (cs : list (list dependency)) (w w' : world)
    (d : dependency) :
  walkChunks begin finish cs w = Some (Completed, w') ->
  d ∈ concat cs -> valid d = true ->
  keyOf d ∈ downloadedDependencies w'.
Proof.
  intros H Hd Hv. revert w H; induction cs as [|chunk rest IH]; intros w H;
    [now apply elem_of_nil in Hd |].
  simpl in H, Hd.
  destruct (walkChunk begin finish chunk w) as [[s1 w1]|] eqn:E;
    [| discriminate].
  destruct s1; try discriminate.
  apply elem_of_app in Hd as [Hd | Hd]; [| now apply (IH Hd w1)].
  apply (walkChunks_preserved grows
           ltac:(intros ?; unfold grows; set_solver)
           ltac:(unfold grows; set_solver)
           begin finish begin_grows finish_grows) in H.
  apply H. unfold walkChunk in E.
  pose proof (beginAll_visits chunk w d Hd Hv) as Hb.
  destruct (beginAll begin chunk w) as [started w0]. cbn [snd] in Hb.
  apply (finishAll_preserved grows
           ltac:(intros ?; unfold grows; set_solver)
           ltac:(unfold grows; set_solver)
           finish finish_grows) in E.
  now apply E.
Qed.

End ChunkVisits.

(** X16. A run that completes has visited every root dependency: when
    [main] returns normally, the key of every dependency that the root
    descriptor declares with a non-empty group id and artifact id is in
    [downloadedDependencies] at the end, in whatever batch it was and
    whatever happened to its downloads. *)
Theorem main_completed_visits_roots (fuel : nat) (w w' : world)
    (content : string) (pomObj : jsval) (deps : list dependency)
    (d : dependency) :
  disk w !! "./pom.xml" = Some content ->
  parsePomXml parseString content = Some pomObj ->
  getDependencies pomObj = Ok deps ->
  main https_get parseString path_join fuel w = Some (Completed, w') ->
  d ∈ deps -> truthy (groupId d) = true -> truthy (artifactId d) = true ->
  keyOf d ∈ downloadedDependencies w'.
Proof.
  intros Hroot Hparse Hdeps Hrun Hd Hg Ha.
  unfold main in Hrun. rewrite Hroot, Hparse, Hdeps in Hrun.
  assert (Hver : truthy (version d) = true).
  { apply getDependencies_versions in Hdeps.
    rewrite Forall_forall in Hdeps. now apply Hdeps. }
  set (begin := fun (dep : dependency) (w : world) =>
                  if truthy (version dep)
                  then prepare path_join "./repository" dep w
                  else (Skip, w)) in Hrun.
  assert (Hbg : forall d0 w0, grows w0 (begin d0 w0).2).
  { intros d0 w0. unfold begin. destruct (truthy (version d0));
      [apply prepare_grows | unfold grows; set_solver]. }
  assert (Hbv : forall d0 w0, valid d0 = true ->
                  keyOf d0 ∈ downloadedDependencies (begin d0 w0).2).
  { intros d0 w0 Hv0. assert (Hv1 := Hv0). unfold valid in Hv1. unfold begin.
    apply andb_true_iff in Hv1 as [_ ->]. now apply prepare_visits. }
  apply (walkChunks_visits begin _ Hbg Hbv
           (resume_grows fuel "./repository") _ _ _ d Hrun).
  - now rewrite chunks_concat.
  - unfold valid. now rewrite Hg, Ha, Hver.
Qed.

(** X17. Processing a coordinate a second time does nothing: after any
    call of [downloadDependency] for a dependency has returned, in
    whatever way, a further call for the same dependency returns at once
    without changing the visited set, the disk or the record of requests
    (it only writes a line to the log). *)
Theorem downloadDependency_repeat (fuel fuel' : nat) (d : dependency)
    (repositoryPath : string) (w : world) (s : status) (w' : world) :
  downloadDependency https_get parseString path_join fuel d repositoryPath w
    = Some (s, w') ->
  downloadDependency https_get parseString path_join fuel' d repositoryPath w'
    = Some (Completed, w').
Proof.
  unfold downloadDependency, prepare.
  destruct (negb (truthy (groupId d)) || negb (truthy (artifactId d))
            || negb (truthy (version d))) eqn:Hinvalid.
  { intros [= _ <-]. reflexivity. }
  destruct (bool_decide_reflect (keyOf d ∈ downloadedDependencies w))
    as [Hin | Hout].
  { intros [= _ <-]. now rewrite bool_decide_eq_true_2. }
  assert (Hmarked : keyOf d ∈ downloadedDependencies (mark (keyOf d) w))
    by (cbn [mark downloadedDependencies]; set_solver).
  destruct (layout path_join repositoryPath d) as [t|msg].
  - intros H. apply resume_grows in H.
    rewrite bool_decide_eq_true_2; [reflexivity |]. now apply H.
  - intros [= _ <-]. now rewrite bool_decide_eq_true_2.
Qed.

End Visits.

Lemma main_completed_visits_roots_witness :
  exists w',
    main Sample.Diamond.get Sample.Diamond.parseString Sample.join 3
      Sample.Diamond.start = Some (Completed, w')
    /\ "g:B:1" ∈ downloadedDependencies w'.
Proof.
  destruct (main Sample.Diamond.get Sample.Diamond.parseString Sample.join 3
              Sample.Diamond.start) as [[[| |] w']|] eqn:E;
    try (vm_compute in E; discriminate E).
  exists w'. split; [reflexivity |].
  apply (main_completed_visits_roots Sample.Diamond.get
           Sample.Diamond.parseString Sample.join 3 Sample.Diamond.start w'
           "root"
           (Sample.pom [Sample.declaration "g" "A" "1";
                        Sample.declaration "g" "B" "1"])
           [Dependency (JStr "g") (JStr "A") (JStr "1");
            Dependency (JStr "g") (JStr "B") (JStr "1")]
           (Dependency (JStr "g") (JStr "B") (JStr "1")));
    [reflexivity | reflexivity | reflexivity | exact E | | reflexivity
    | reflexivity].
  apply elem_of_cons. right. apply elem_of_cons. now left.
Defined.

Lemma downloadDependency_repeat_witness :
  exists s w',
    downloadDependency Sample.Cycle.get Sample.Cycle.parseString Sample.join 2
      (Dependency (JStr "g") (JStr "A") (JStr "1")) "./repository"
      Sample.Cycle.start = Some (s, w')
    /\ downloadDependency Sample.Cycle.get Sample.Cycle.parseString
         Sample.join 0
         (Dependency (JStr "g") (JStr "A") (JStr "1")) "./repository" w'
       = Some (Completed, w').
Proof.
  destruct (downloadDependency Sample.Cycle.get Sample.Cycle.parseString
              Sample.join 2 (Dependency (JStr "g") (JStr "A") (JStr "1"))
              "./repository" Sample.Cycle.start) as [[s w']|] eqn:E;
    [| vm_compute in E; discriminate E].
  exists s, w'. split; [reflexivity |].
  exact (downloadDependency_repeat _ _ _ _ _ _ _ _ _ _ E).
Defined.

(** ** The earliest variant: no visited set *)

Section EarlierFacts.

Variable https_get : string -> reply.
Variable parseString : string -> option jsval.
Variable path_join : string -> string -> string.

(** X18. Without the visited set the walk need not end: in the earliest
    variant of the script, when the requests for the two files of a
    coordinate are answered (the descriptor with a status other than 404)
    and the descriptor declares that same coordinate first, the call of
    [downloadDependency] for it never returns (no depth of recursion is
    enough), and neither does a [main] whose root descriptor declares it
    first. *)
Theorem earlier_self_dependency (g v : string) (a pomObj : jsval)
    (rest : list dependency) :
  let d := Dependency (JStr g) a (JStr v) in
  g <> "" -> truthy a = true -> v <> "" ->
  (exists statusCode location body,
     https_get (Earlier.remote g a v ".jar")
     = Response statusCode location body) ->
  (exists statusCode location body,
     https_get (Earlier.remote g a v ".pom")
     = Response statusCode location body
     /\ statusCode <> 404%Z
     /\ Earlier.parsePomXml parseString body = Some pomObj) ->
  truthy pomObj = true ->
  getDependencies pomObj = Ok (d :: rest) ->
  (forall fuel repositoryPath disk,
     Earlier.downloadDependency https_get parseString path_join fuel d
       repositoryPath disk = None)
  /\ (forall fuel disk content rootObj others,
        disk !! "./pom.xml" = Some content ->
        Earlier.parsePomXml parseString content = Some rootObj ->
        getDependencies rootObj = Ok (d :: others) ->
        Earlier.main https_get parseString path_join fuel disk = None).
Proof.
  intros d Hg Ha Hv (cj & lj & bj & Hjar) (cp & lp & bp & Hpom & Hcp & Hparse)
         Ht Hdeps.
  assert (Htg : truthy (JStr g) = true)
    by (simpl; apply negb_true_iff; now apply String.eqb_neq).
  assert (Htv : truthy (JStr v) = true)
    by (simpl; apply negb_true_iff; now apply String.eqb_neq).
  assert (Hloop : forall fuel repositoryPath disk,
             Earlier.downloadDependency https_get parseString path_join fuel d
               repositoryPath disk = None).
  { induction fuel as [|fuel IH]; intros repositoryPath disk; [reflexivity |].
    cbn [Earlier.downloadDependency]. subst d.
    cbn [groupId artifactId version groupPath to_string].
    rewrite Htg, Ha, Htv. cbn [negb orb].
    unfold Earlier.downloadFile.
    change (Earlier.MAVEN_CENTRAL_URL +:+ "/"
            +:+ (JsString.replaceAll "." "/" g +:+ "/" +:+ to_string a
                 +:+ "/" +:+ v)
            +:+ "/" +:+ (to_string a +:+ "-" +:+ v +:+ ".jar"))
      with (Earlier.remote g a v ".jar").
    change (Earlier.MAVEN_CENTRAL_URL +:+ "/"
            +:+ (JsString.replaceAll "." "/" g +:+ "/" +:+ to_string a
                 +:+ "/" +:+ v)
            +:+ "/" +:+ (to_string a +:+ "-" +:+ v +:+ ".pom"))
      with (Earlier.remote g a v ".pom").
    rewrite Hjar, Hpom.
    apply Z.eqb_neq in Hcp. rewrite Hcp.
    destruct (cj =? 404)%Z; rewrite lookup_insert_eq, Hparse, Ht, Hdeps;
      cbn [Earlier.forEach]; now rewrite IH. }
  split; [exact Hloop |].
  intros fuel disk content rootObj others Hroot Hrp Hrd.
  unfold Earlier.main. rewrite Hroot, Hrp, Hrd. cbn [Earlier.forEach].
  subst d. cbn [version]. rewrite Htv.
  now rewrite (Hloop fuel "./repository" disk).
Qed.

End EarlierFacts.

Lemma earlier_self_dependency_witness :
  Earlier.downloadDependency Earlier.Loop.get Earlier.Loop.parseString
    Sample.join 9 Earlier.Loop.self "./repository" ∅ = None
  /\ Earlier.main Earlier.Loop.get Earlier.Loop.parseString Sample.join 9
       {["./pom.xml" := "A"]} = None.
Proof.
  destruct (earlier_self_dependency Earlier.Loop.get Earlier.Loop.parseString
              Sample.join "g" "1" (JStr "A")
              (Sample.pom [Sample.declaration "g" "A" "1"]) [])
    as [Hcall Hmain]; try reflexivity; try discriminate.
  - exists 200%Z, "", "A". reflexivity.
  - exists 200%Z, "", "A". repeat split. discriminate.
  - split; [apply Hcall |].
    apply (Hmain 9 _ "A" (Sample.pom [Sample.declaration "g" "A" "1"]) []);
      reflexivity.
Defined.

(** ** Runs that complete *)

Section Completes.

Variable https_get : string -> requestOptions -> reply.
Variable parseString : string -> option jsval.
Variable path_join : string -> string -> string.

(** X19. A run completes normally when nothing stands in its way: if the
    coordinates that descriptors can declare form a finite set and the
    recursion may go as deep as that set is large, the root descriptor is
    read, its dependencies have string group ids and versions, and the
    network leaves no download pending (every request is answered, no
    body of a 200 breaks off, no redirect leads to a 200), then [main]
    returns without taking the [process.exit(1)] path and without
    waiting for ever, whatever else the network answers (404, other
    statuses, request errors) and whatever the other descriptors
    contain.  ([mkdirp] and the progress bar, which are not part of the
    model, are taken not to fail.) *)
Theorem main_completes (universe : gset string) (fuel : nat) (w : world)
    (content : string) (pomObj : jsval) (deps : list dependency) :
  (forall content pomObj deps d,
     parsePomXml parseString content = Some pomObj ->
     getDependencies pomObj = Ok deps ->
     d ∈ deps -> keyOf d ∈ universe) ->
  size universe <= fuel ->
  settling https_get ->
  disk w !! "./pom.xml" = Some content ->
  parsePomXml parseString content = Some pomObj ->
  getDependencies pomObj = Ok deps ->
  Forall (fun d => is_string (groupId d) /\ is_string (version d)) deps ->
  exists w', main https_get parseString path_join fuel w = Some (Completed, w').
Proof.
  intros Hclosed Hfuel Hsettling Hroot Hparse Hdeps Hstr.
  destruct (main_total https_get parseString path_join universe Hclosed
              fuel w) as [[s w'] Hrun].
  { unfold room. etransitivity; [| exact Hfuel].
    apply subseteq_size. set_solver. }
  exists w'. rewrite Hrun. do 2 f_equal.
  pose proof (main_settles https_get parseString path_join Hsettling
                fuel w s w' Hrun) as Hstalled.
  unfold main in Hrun. rewrite Hroot, Hparse, Hdeps in Hrun.
  pose proof (roots_contained https_get parseString path_join _ _ _ _ _
                Hstr Hrun) as Hthrew.
  now destruct s.
Qed.

End Completes.

Lemma main_completes_witness :
  exists w',
    main Sample.Cycle.get Sample.Cycle.parseString Sample.join 2
      Sample.Cycle.start = Some (Completed, w').
Proof.
  apply (main_completes Sample.Cycle.get Sample.Cycle.parseString Sample.join
           Sample.Cycle.universe 2
           Sample.Cycle.start "root"
           (Sample.pom [Sample.declaration "g" "A" "1"])
           [Dependency (JStr "g") (JStr "A") (JStr "1")]);
    [exact cycle_declared | vm_compute; lia | apply sample_settling
    | reflexivity | reflexivity | reflexivity |].
  repeat constructor; eexists; reflexivity.
Defined.

(** ** Number of requests *)

Lemma occurrences_present (k : string) (l : list string) :
  k ∈ l -> 1 <= occurrences k l.
Proof.
  induction l as [|x l IH]; intros H; [now apply elem_of_nil in H |].
  simpl. apply elem_of_cons in H as [-> | H].
  - rewrite String.eqb_refl. lia.
  - specialize (IH H). lia.
Qed.

Lemma occurrences_once_NoDup (l : list string) :
  (forall k, occurrences k l <= 1) -> NoDup l.
Proof.
  induction l as [|x l IH]; intros H; constructor.
  - intros Hx. apply occurrences_present in Hx.
    specialize (H x). simpl in H. rewrite String.eqb_refl in H. lia.
  - apply IH. intros k. specialize (H k). simpl in H. lia.
Qed.

(** X20. A run makes at most one request per file and visited
    coordinate: in a run of [main] that starts with an empty
    [downloadedDependencies], the number of calls of [downloadFile] for
    jars, and likewise for descriptors, is at most the number of
    coordinates in the visited set at the end. *)
Theorem main_request_bound
    (https_get : string -> requestOptions -> reply)
    (parseString : string -> option jsval)
    (path_join : string -> string -> string)
    (fuel : nat) (files : gmap string string) (s : status) (w' : world)
    (file : artifactFile) :
  main https_get parseString path_join fuel (World ∅ files []) = Some (s, w') ->
  length (fetches file (events w')) <= size (downloadedDependencies w').
Proof.
  intros H. apply main_step in H as (_ & _ & Hfresh & _ & Hcount).
  destruct Hfresh as [Hnd Hsub].
  { split; [constructor |]. intros k. simpl. set_solver. }
  assert (Hle : forall k, occurrences k (fetches file (events w'))
                          <= occurrences k (marks (events w'))).
  { intros k. specialize (Hcount file k). simpl in Hcount. lia. }
  assert (Hset : downloadedDependencies w' = list_to_set (marks (events w'))).
  { apply set_eq. intros k. rewrite elem_of_list_to_set. symmetry. apply Hsub. }
  rewrite Hset, size_list_to_set by exact Hnd.
  apply submseteq_length, NoDup_submseteq.
  - apply occurrences_once_NoDup. intros k.
    etransitivity; [apply Hle | now apply occurrences_NoDup].
  - intros k Hk. apply occurrences_present in Hk.
    destruct (decide (k ∈ marks (events w'))) as [Hin | Hout]; [exact Hin |].
    apply occurrences_absent in Hout. specialize (Hle k). lia.
Qed.

Lemma main_request_bound_witness :
  exists s w',
    main Sample.Diamond.get Sample.Diamond.parseString Sample.join 3
      (World ∅ {["./pom.xml" := "root"]} []) = Some (s, w')
    /\ length (fetches Jar (events w')) <= size (downloadedDependencies w').
Proof.
  destruct (main Sample.Diamond.get Sample.Diamond.parseString Sample.join 3
              (World ∅ {["./pom.xml" := "root"]} [])) as [[s w']|] eqn:E;
    [| vm_compute in E; discriminate E].
  exists s, w'. split; [reflexivity |].
  exact (main_request_bound _ _ _ _ _ _ _ Jar E).
Defined.

(** ** The sequential variant *)

Lemma all_Completed_r (s : status) : all s Completed = s.
Proof. now destruct s. Qed.

(** Awaiting the calls one after the other is walking batches of one. *)
Lemma forEach_walkChunks
    (begin : dependency -> world -> prepared * world)
    (finish : task -> world -> option (status * world))
    (deps : list dependency) (w : world) :
  Sequential.forEach begin finish deps w
  = walkChunks begin finish (map (fun d => [d]) deps) w.
Proof.
  revert w; induction deps as [|d rest IH]; intros w; [reflexivity |].
  cbn [Sequential.forEach map walkChunks]. unfold walkChunk.
  cbn [beginAll].
  destruct (begin d w) as [[|t|] w1]; cbn [finishAll].
  - cbn [all]. apply IH.
  - destruct (finish t w1) as [[s w2]|]; [| reflexivity].
    rewrite all_Completed_r. destruct s; [apply IH | reflexivity ..].
  - reflexivity.
Qed.

Section SequentialFacts.

Variable downloadFile :
  string -> string -> gmap string string -> settled * gmap string string.
Variable parseString : string -> option jsval.
Variable path_join : string -> string -> string.

Lemma sequential_fetchFiles_events (t : task) (w : world) :
  exists new,
    events (Sequential.fetchFiles downloadFile t w).2 = events w ++ new
    /\ (forall file k,
          occurrences k (fetches file new)
          <= if String.eqb (dependencyKey t) k then 1 else 0)
    /\ marks new = []
    /\ Forall (fun e => exists file url dest,
                         e = Fetch (dependencyKey t) file url dest) new
    /\ downloadedDependencies (Sequential.fetchFiles downloadFile t w).2
       = downloadedDependencies w.
Proof.
  assert (H0 : exists new : list event,
             events w = events w ++ new
             /\ (forall file k,
                   occurrences k (fetches file new)
                   <= if String.eqb (dependencyKey t) k then 1 else 0)
             /\ marks new = []
             /\ Forall (fun e => exists file url dest,
                                  e = Fetch (dependencyKey t) file url dest) new
             /\ downloadedDependencies w = downloadedDependencies w).
  { exists []. rewrite app_nil_r. repeat split; auto.
    intros file k. simpl. destruct (String.eqb _ _); lia. }
  assert (H1 : forall file url dest,
             exists new : list event,
               events w ++ [Fetch (dependencyKey t) file url dest]
               = events w ++ new
               /\ (forall file k,
                     occurrences k (fetches file new)
                     <= if String.eqb (dependencyKey t) k then 1 else 0)
               /\ marks new = []
               /\ Forall (fun e => exists file url dest,
                                    e = Fetch (dependencyKey t) file url dest)
                    new
               /\ downloadedDependencies w = downloadedDependencies w).
  { intros file url dest. eexists [_]. repeat split; auto.
    - intros [] k; destruct file; simpl; destruct (String.eqb _ _); lia.
    - repeat constructor. eauto. }
  unfold Sequential.fetchFiles, Sequential.fetch.
  destruct (existsSync (disk w) (localJarPath t)); cbn [status_of].
  - destruct (existsSync (disk w) (pomFilePath t)); [exact H0 |].
    destruct (downloadFile _ _ _) as [state files]. cbn [snd events
      downloadedDependencies]. now apply H1.
  - destruct (downloadFile _ (localJarPath t) _) as [state files].
    destruct state; cbn [status_of snd events downloadedDependencies disk];
      try (now apply H1).
    destruct (existsSync files (pomFilePath t));
      cbn [snd events downloadedDependencies disk]; [now apply H1 |].
    destruct (downloadFile _ (pomFilePath t) _) as [state' files'].
    cbn [snd events downloadedDependencies].
    eexists [_; _]. rewrite <- app_assoc. repeat split; auto.
    + intros [] k; simpl; destruct (String.eqb _ _); lia.
    + repeat constructor; eauto.
Qed.

Lemma sequential_fetchFiles_step (t : task) (w : world) :
  step [dependencyKey t] w (Sequential.fetchFiles downloadFile t w).2.
Proof.
  destruct (sequential_fetchFiles_events t w)
    as (new & He & Hocc & Hmarks & Hnew & Hv).
  unfold step, fresh. rewrite He, Hv, marks_app, Hmarks, app_nil_r.
  split; [reflexivity |]. split; [now eexists |].
  split; [auto |].
  split.
  - intros Ho Hk. eapply ordered_app_fetches; [exact Ho | | exact Hnew].
    apply Hk, list_elem_of_singleton. reflexivity.
  - intros file k. rewrite fetches_app, occurrences_app.
    specialize (Hocc file k). simpl.
    destruct (String.eqb (dependencyKey t) k); lia.
Qed.

Lemma sequential_resume_step (fuel : nat) (repositoryPath : string)
    (t : task) (w : world) (s : status) (w' : world) :
  Sequential.resume downloadFile parseString path_join fuel repositoryPath t w
    = Some (s, w') ->
  step [dependencyKey t] w w'.
Proof.
  revert t w s w'; induction fuel as [|fuel IH]; intros t w s w' H;
    [discriminate |].
  cbn [Sequential.resume] in H.
  pose proof (sequential_fetchFiles_step t w) as Hfetch.
  destruct (Sequential.fetchFiles downloadFile t w) as [st w1].
  cbn [snd] in Hfetch.
  destruct st; [| now injection H as <- <- | now injection H as <- <-].
  destruct (disk w1 !! pomFilePath t) as [pomContent|];
    [| now injection H as <- <-].
  destruct (String.eqb pomContent "").
  { injection H as <- <-. exact Hfetch. }
  destruct (parsePomXml parseString pomContent) as [depPomObj|];
    [| now injection H as <- <-].
  destruct (truthy depPomObj); [| now injection H as <- <-].
  destruct (getDependencies depPomObj) as [transitiveDeps|];
    [| now injection H as <- <-].
  rewrite forEach_walkChunks in H.
  destruct (walkChunks _ _ _ w1) as [[s2 w2]|] eqn:Hw; [| discriminate].
  apply walkChunks_step in Hw;
    [| intros; apply prepare_credit | exact IH].
  pose proof (step_trans _ _ _ _ _ Hfetch Hw) as Hall.
  rewrite app_nil_r in Hall.
  destruct s2; now injection H as <- <-.
Qed.

Lemma sequential_main_step (fuel : nat) (w : world) (s : status)
    (w' : world) :
  Sequential.main downloadFile parseString path_join fuel w = Some (s, w') ->
  step [] w w'.
Proof.
  unfold Sequential.main. intros H.
  destruct (disk w !! "./pom.xml") as [pomContent|];
    [| injection H as <- <-; apply step_refl].
  destruct (parsePomXml parseString pomContent) as [pomObj|];
    [| injection H as <- <-; apply step_refl].
  destruct (getDependencies pomObj) as [dependencies|];
    [| injection H as <- <-; apply step_refl].
  rewrite forEach_walkChunks in H.
  apply walkChunks_step in H;
    [exact H | | intros t0 w0 s0 w0' Hr;
                 exact (sequential_resume_step _ _ _ _ _ _ Hr)].
  intros d w0. destruct (truthy (version d)).
  - apply prepare_credit.
  - now apply credit_skip.
Qed.

(** X21. The sequential variant visits every coordinate at most once,
    whatever its [downloadFile] does: in a run of its [main] that starts
    with an empty [downloadedDependencies], the keys added are distinct and
    are the members of the set at the end, every call of [downloadFile] for
    a key comes after the key was added, and for each key the jar is
    requested at most once and the descriptor at most once. *)
Theorem sequential_visited_once
    (fuel : nat) (files : gmap string string) (s : status) (w' : world) :
  Sequential.main downloadFile parseString path_join fuel (World ∅ files [])
    = Some (s, w') ->
  NoDup (marks (events w'))
  /\ (forall k, k ∈ marks (events w') <-> k ∈ downloadedDependencies w')
  /\ ordered (events w')
  /\ (forall file k,
        occurrences k (fetches file (events w'))
        <= occurrences k (marks (events w'))
        /\ occurrences k (marks (events w')) <= 1).
Proof.
  intros H.
  apply sequential_main_step in H as (_ & _ & Hfresh & Hordered & Hcount).
  assert (Hf : fresh w').
  { apply Hfresh. split; [constructor |]. intros k. simpl. set_solver. }
  destruct Hf as [Hnd Hsub].
  split; [exact Hnd |]. split; [exact Hsub |].
  split.
  - apply Hordered; [apply ordered_nil |].
    intros k Hk. now apply elem_of_nil in Hk.
  - intros file k. split; [| now apply occurrences_NoDup].
    specialize (Hcount file k). simpl in Hcount. lia.
Qed.

Lemma singletons_Forall {A} (P : A -> Prop) (l : list A) :
  Forall P l -> Forall (Forall P) (map (fun x => [x]) l).
Proof. induction 1; constructor; auto. Qed.

Section SequentialTermination.

Variable universe : gset string.
Hypothesis declared_in_universe :
  forall content pomObj deps d,
    parsePomXml parseString content = Some pomObj ->
    getDependencies pomObj = Ok deps ->
    d ∈ deps -> keyOf d ∈ universe.

Lemma sequential_resume_total (fuel : nat) (repositoryPath : string)
    (t : task) (w : world) :
  room universe w < fuel ->
  is_Some (Sequential.resume downloadFile parseString path_join fuel
             repositoryPath t w).
Proof.
  revert t w; induction fuel as [|fuel IH]; intros t w Hroom; [lia |].
  cbn [Sequential.resume].
  pose proof (sequential_fetchFiles_step t w) as (Hv & _).
  destruct (Sequential.fetchFiles downloadFile t w) as [st w1].
  cbn [snd] in Hv.
  pose proof (room_mono universe _ _ Hv) as Hroom1.
  destruct st; [| eauto | eauto].
  destruct (disk w1 !! pomFilePath t) as [pomContent|]; [| eauto].
  destruct (String.eqb pomContent ""); [eauto |].
  destruct (parsePomXml parseString pomContent) as [depPomObj|] eqn:Hparse;
    [| eauto].
  destruct (truthy depPomObj); [| eauto].
  destruct (getDependencies depPomObj) as [transitiveDeps|] eqn:Hdeps;
    [| eauto].
  rewrite forEach_walkChunks.
  destruct (walkChunks_total universe
              (prepare path_join repositoryPath)
              (Sequential.resume downloadFile parseString path_join fuel
                 repositoryPath)
              fuel
              (prepare_credit path_join repositoryPath)
              (fun d w t Hd => prepare_room path_join universe repositoryPath
                                 d w Hd t)
              (sequential_resume_step fuel repositoryPath)
              IH
              (map (fun d => [d]) transitiveDeps) w1) as [[s2 w2] ->].
  - apply singletons_Forall, Forall_forall. intros d Hd.
    exact (declared_in_universe _ _ _ _ Hparse Hdeps Hd).
  - lia.
  - destruct s2; eauto.
Qed.

Section SequentialSettles.

Hypothesis downloads_settle :
  forall url dest files, (downloadFile url dest files).1 <> Pending.

Lemma sequential_fetchFiles_settles (t : task) (w : world) :
  (Sequential.fetchFiles downloadFile t w).1 <> Stalled.
Proof.
  assert (Hf : forall key file url dest w0,
             status_of (Sequential.fetch downloadFile key file url dest w0).1
             <> Stalled).
  { intros key file url dest w0. unfold Sequential.fetch.
    pose proof (downloads_settle url dest (disk w0)) as H.
    destruct (downloadFile url dest (disk w0)) as [state files].
    cbn [fst] in *. now destruct state. }
  unfold Sequential.fetchFiles.
  destruct (existsSync (disk w) (localJarPath t)).
  - cbn [status_of].
    destruct (existsSync (disk w) (pomFilePath t)); [discriminate |].
    pose proof (Hf (dependencyKey t) Pom
                  (Sequential.urlOf (artifactPath t) (pomName t))
                  (pomFilePath t) w) as H.
    now destruct (Sequential.fetch downloadFile _ Pom _ _ w) as [pom w2].
  - pose proof (Hf (dependencyKey t) Jar
                  (Sequential.urlOf (artifactPath t) (jarName t))
                  (localJarPath t) w) as H1.
    destruct (Sequential.fetch downloadFile _ Jar _ _ w) as [jar w1].
    cbn [fst] in H1.
    destruct (status_of jar) eqn:Ej; [| discriminate | contradiction].
    destruct (existsSync (disk w1) (pomFilePath t)); [discriminate |].
    pose proof (Hf (dependencyKey t) Pom
                  (Sequential.urlOf (artifactPath t) (pomName t))
                  (pomFilePath t) w1) as H2.
    now destruct (Sequential.fetch downloadFile _ Pom _ _ w1) as [pom w2].
Qed.

Lemma sequential_resume_settles (fuel : nat) (repositoryPath : string)
    (t : task) (w : world) (s : status) (w' : world) :
  Sequential.resume downloadFile parseString path_join fuel repositoryPath t w
    = Some (s, w') ->
  s <> Stalled.
Proof.
  revert t w s w'; induction fuel as [|fuel IH]; intros t w s w' H;
    [discriminate |].
  cbn [Sequential.resume] in H.
  pose proof (sequential_fetchFiles_settles t w) as Hf.
  destruct (Sequential.fetchFiles downloadFile t w) as [[| |] w1];
    cbn [fst] in Hf;
    try contradiction; try (injection H as <- _; discriminate).
  destruct (disk w1 !! pomFilePath t) as [pomContent|];
    [| injection H as <- _; discriminate].
  destruct (String.eqb pomContent ""); [injection H as <- _; discriminate |].
  destruct (parsePomXml parseString pomContent) as [depPomObj|];
    [| injection H as <- _; discriminate].
  destruct (truthy depPomObj); [| injection H as <- _; discriminate].
  destruct (getDependencies depPomObj) as [transitiveDeps|];
    [| injection H as <- _; discriminate].
  rewrite forEach_walkChunks in H.
  destruct (walkChunks _ _ _ w1) as [[s2 w2]|] eqn:E; [| discriminate].
  apply walkChunks_settles in E; [| exact IH].
  destruct s2; try contradiction; injection H as <- _; discriminate.
Qed.

(** X22. The sequential variant ends on every dependency graph with
    finitely many coordinates, cycles included, as long as its
    [downloadFile] leaves no promise pending: when the keys that
    descriptors can declare lie in a finite set and the recursion may go
    as deep as that set is large, its [main] returns without waiting for
    ever, and the visited set has only grown. *)
Theorem sequential_terminates (fuel : nat) (w : world) :
  size universe <= fuel ->
  exists s w',
    Sequential.main downloadFile parseString path_join fuel w = Some (s, w')
    /\ s <> Stalled
    /\ downloadedDependencies w ⊆ downloadedDependencies w'.
Proof.
  intros Hfuel.
  assert (Hroom : room universe w <= fuel).
  { unfold room. etransitivity; [| exact Hfuel].
    apply subseteq_size. set_solver. }
  assert (Hsome : is_Some (Sequential.main downloadFile parseString path_join
                             fuel w)).
  { unfold Sequential.main.
    destruct (disk w !! "./pom.xml") as [pomContent|]; [| eauto].
    destruct (parsePomXml parseString pomContent) as [pomObj|] eqn:Hparse;
      [| eauto].
    destruct (getDependencies pomObj) as [dependencies|] eqn:Hdeps; [| eauto].
    rewrite forEach_walkChunks.
    apply walkChunks_total with (universe := universe) (bound := fuel).
    - intros d w0. destruct (truthy (version d)).
      + apply prepare_credit.
      + now apply credit_skip.
    - intros d w0 t Hd. destruct (truthy (version d)); [| discriminate].
      now apply prepare_room.
    - apply sequential_resume_step.
    - intros t w0. apply sequential_resume_total.
    - apply singletons_Forall, Forall_forall. intros d Hd.
      exact (declared_in_universe _ _ _ _ Hparse Hdeps Hd).
    - exact Hroom. }
  destruct Hsome as [[s w'] Hrun]. exists s, w'. split; [exact Hrun |].
  split; [| now apply sequential_main_step in Hrun as (Hv & _)].
  unfold Sequential.main in Hrun.
  destruct (disk w !! "./pom.xml") as [pomContent|];
    [| injection Hrun as <- _; discriminate].
  destruct (parsePomXml parseString pomContent) as [pomObj|];
    [| injection Hrun as <- _; discriminate].
  destruct (getDependencies pomObj) as [dependencies|];
    [| injection Hrun as <- _; discriminate].
  rewrite forEach_walkChunks in Hrun.
  apply walkChunks_settles in Hrun; [exact Hrun |].
  intros t w0 s0 w0'. apply sequential_resume_settles.
Qed.

End SequentialSettles.

End SequentialTermination.

End SequentialFacts.

Lemma sequential_visited_once_witness :
  exists s w',
    Sequential.main Sequential.served Sample.Diamond.parseString Sample.join 3
      (World ∅ {["./pom.xml" := "root"]} []) = Some (s, w')
    /\ marks (events w') = ["g:A:1"; "g:C:1"; "g:B:1"]
    /\ fetches Jar (events w') = ["g:A:1"; "g:C:1"; "g:B:1"]
    /\ NoDup (marks (events w'))
    /\ ordered (events w').
Proof.
  destruct (Sequential.main Sequential.served Sample.Diamond.parseString
              Sample.join 3 (World ∅ {["./pom.xml" := "root"]} []))
    as [[s w']|] eqn:E; [| vm_compute in E; discriminate E].
  exists s, w'. split; [reflexivity |].
  destruct (sequential_visited_once _ _ _ _ _ _ _ E) as (Hnd & _ & Hord & _).
  vm_compute in E. injection E as <- <-.
  repeat split; try reflexivity; assumption.
Defined.

Lemma served_settles (url dest : string) (files : gmap string string) :
  (Sequential.served url dest files).1 <> Pending.
Proof.
  unfold Sequential.served.
  destruct (JsString.endsWith url ".jar"); [discriminate |].
  destruct (JsString.endsWith url "/A-1.pom"); [discriminate |].
  destruct (JsString.endsWith url "/B-1.pom"); discriminate.
Qed.

Lemma sequential_terminates_witness :
  exists s w',
    Sequential.main Sequential.served Sample.Cycle.parseString Sample.join 2
      Sample.Cycle.start = Some (s, w')
    /\ s <> Stalled
    /\ downloadedDependencies Sample.Cycle.start ⊆ downloadedDependencies w'.
Proof.
  apply (sequential_terminates Sequential.served Sample.Cycle.parseString
           Sample.join Sample.Cycle.universe cycle_declared served_settles 2
           Sample.Cycle.start).
  vm_compute. lia.
Defined.

(** ** A jar that cannot be downloaded *)

(** X23. In the first script both downloads of a coordinate are started
    before either is awaited: when the jar is missing and its download is
    rejected, the descriptor has been requested all the same (if it was
    missing), and the call ends there, normally: no key is added to
    [downloadedDependencies], so none of the dependencies of the
    coordinate is visited through it. *)
Theorem jar_failure_stops_walk
    (https_get : string -> requestOptions -> reply)
    (parseString : string -> option jsval)
    (path_join : string -> string -> string)
    (fuel : nat) (repositoryPath : string) (t : task) (w : world) :
  existsSync (disk w) (localJarPath t) = false ->
  (exists err,
     outcome (downloadFile https_get (urlOf (artifactPath t) (jarName t))
                (localJarPath t) (disk w)) = Rejected err) ->
  exists w',
    resume https_get parseString path_join (S fuel) repositoryPath t w
    = Some (Completed, w')
    /\ downloadedDependencies w' = downloadedDependencies w
    /\ marks (events w') = marks (events w)
    /\ fetches Jar (events w') = fetches Jar (events w) ++ [dependencyKey t]
    /\ (existsSync (disk w) (pomFilePath t) = false ->
        fetches Pom (events w') = fetches Pom (events w) ++ [dependencyKey t]).
Proof.
  intros Hjar [err Herr]. cbn [resume]. unfold fetchFiles, fetch.
  rewrite Hjar, Herr. cbn [negb status_of all].
  destruct (existsSync (disk w) (pomFilePath t)); cbn [negb].
  - eexists. split; [reflexivity |]. cbn [downloadedDependencies events].
    rewrite marks_app, !fetches_app, app_nil_r. repeat split; try reflexivity.
    discriminate.
  - eexists. split; [reflexivity |]. cbn [downloadedDependencies events].
    rewrite !marks_app, !fetches_app, !app_nil_r. repeat split; reflexivity.
Qed.

Lemma jar_failure_stops_walk_witness :
  exists w',
    resume (fun _ _ => Response 404 "" "") Sample.Cycle.parseString
      Sample.join 1 "./repository" Sample.taskA (World ∅ ∅ [])
    = Some (Completed, w')
    /\ marks (events w') = []
    /\ fetches Jar (events w') = ["g:A:1"]
    /\ fetches Pom (events w') = ["g:A:1"].
Proof.
  assert (Hjar : existsSync (disk (World ∅ ∅ [])) (localJarPath Sample.taskA)
                 = false) by (vm_compute; reflexivity).
  assert (Hpom : existsSync (disk (World ∅ ∅ [])) (pomFilePath Sample.taskA)
                 = false) by (vm_compute; reflexivity).
  destruct (jar_failure_stops_walk (fun _ _ => Response 404 "" "")
              Sample.Cycle.parseString Sample.join 0 "./repository"
              Sample.taskA (World ∅ ∅ []) Hjar)
    as (w' & Hrun & _ & Hmarks & Hj & Hp).
  { exists FileNotFound. reflexivity. }
  exists w'. split; [exact Hrun |]. split; [exact Hmarks |].
  split; [exact Hj | exact (Hp Hpom)].
Defined.

(** X24. In the sequential variant the descriptor is requested only
    after the download of the jar has resolved: when the jar is missing and
    its download is rejected, the call ends there, normally, without a
    request for the descriptor and without visiting any dependency. *)
Theorem sequential_jar_failure
    (downloadFile :
       string -> string -> gmap string string -> settled * gmap string string)
    (parseString : string -> option jsval)
    (path_join : string -> string -> string)
    (fuel : nat) (repositoryPath : string) (t : task) (w : world) :
  existsSync (disk w) (localJarPath t) = false ->
  (exists err files,
     downloadFile (Sequential.urlOf (artifactPath t) (jarName t))
       (localJarPath t) (disk w) = (Rejected err, files)) ->
  exists w',
    Sequential.resume downloadFile parseString path_join (S fuel)
      repositoryPath t w = Some (Completed, w')
    /\ downloadedDependencies w' = downloadedDependencies w
    /\ marks (events w') = marks (events w)
    /\ fetches Jar (events w') = fetches Jar (events w) ++ [dependencyKey t]
    /\ fetches Pom (events w') = fetches Pom (events w).
Proof.
  intros Hjar (err & files & Herr). cbn [Sequential.resume].
  unfold Sequential.fetchFiles, Sequential.fetch.
  rewrite Hjar, Herr. cbn [status_of].
  eexists. split; [reflexivity |]. cbn [downloadedDependencies events].
  rewrite marks_app, !fetches_app, !app_nil_r. repeat split; reflexivity.
Qed.

Lemma sequential_jar_failure_witness :
  exists w',
    Sequential.resume (fun _ dest files => (Rejected FileNotFound, delete dest files))
      Sample.Cycle.parseString Sample.join 1 "./repository" Sample.taskA
      (World ∅ ∅ [])
    = Some (Completed, w')
    /\ fetches Jar (events w') = ["g:A:1"]
    /\ fetches Pom (events w') = [].
Proof.
  assert (Hjar : existsSync (disk (World ∅ ∅ [])) (localJarPath Sample.taskA)
                 = false) by (vm_compute; reflexivity).
  destruct (sequential_jar_failure
              (fun _ dest files => (Rejected FileNotFound, delete dest files))
              Sample.Cycle.parseString Sample.join 0 "./repository"
              Sample.taskA (World ∅ ∅ []) Hjar)
    as (w' & Hrun & _ & _ & Hj & Hp).
  { exists FileNotFound, (delete (localJarPath Sample.taskA) ∅). reflexivity. }
  exists w'. split; [exact Hrun |]. split; [exact Hj | exact Hp].
Defined.

